(** * build_kg.py: the knowledge-graph builder of doc-toolkit

    A shallow embedding of [scripts/build_kg.py]: the two regex-based term
    extractors ([find_entities], [find_topics]), the two passes that build
    the node and edge collections, and the Graphviz and summary exports.

    Python strings are sequences of Unicode code points, so a [str] is a
    [list N].  The ASCII part of every character table is written out; the
    part of CPython's Unicode database above code point 127, and the
    iteration order of a [set], belong to the interpreter and are taken
    as the fields of a [PyRuntime]. *)

From Stdlib Require Import String Ascii DecimalString.
From Stdlib Require Import List Arith NArith ZArith Lia Bool Permutation Sorted.
Import ListNotations.

(** ** Strings *)

Definition str := list N.

Definition str_eq_dec : forall a b : str, {a = b} + {a <> b} :=
  list_eq_dec N.eq_dec.

(** A Python string literal. *)
Definition lit (s : string) : str := map N_of_ascii (list_ascii_of_string s).

Definition str_eqb (a b : str) : bool := if str_eq_dec a b then true else false.

(** [x in xs] for a list or a set literal of strings. *)
Definition str_in (x : str) (xs : list str) : bool := existsb (str_eqb x) xs.

Definition dedup_step (acc : list str) (x : str) : list str :=
  if str_in x acc then acc else acc ++ [x].

(** The distinct members of a list, in the order they first occur. *)
Definition dedup (l : list str) : list str := fold_left dedup_step l [].

(** ** The interpreter's tables *)

Class PyRuntime := {
  (** [str.isalnum] above code point 127 (the regex class [\w] there). *)
  uni_word : N -> bool;
  (** [str.isspace] above code point 127 (the regex class [\s] there). *)
  uni_space : N -> bool;
  (** the lower-casing of the character above code point 127 found at an
      index of a text (it may depend on the context, as for a final sigma,
      and may be several code points long). *)
  uni_lower : str -> nat -> str;
  (** the order in which a set built from a list is iterated. *)
  set_iter : list str -> list str
}.

(** What the language guarantees of a set: its iteration visits each
    distinct member once. *)
Definition set_iter_ok (R : PyRuntime) : Prop :=
  forall l : list str, NoDup (set_iter l) /\ (forall x, In x (set_iter l) <-> In x l).

Definition is_upper (c : N) : bool := ((65 <=? c) && (c <=? 90))%N.
Definition is_lower (c : N) : bool := ((97 <=? c) && (c <=? 122))%N.
Definition is_digit (c : N) : bool := ((48 <=? c) && (c <=? 57))%N.

(** Lower-casing never produces an ASCII capital. *)
Definition uni_lower_ok (R : PyRuntime) : Prop :=
  forall t i c, In c (uni_lower t i) -> is_upper c = false.

Section Extractors.
Context {R : PyRuntime}.

(** The class [[a-zA-Z]]. *)
Definition is_alpha (c : N) : bool := is_upper c || is_lower c.
(** The class [[a-zA-Z0-9]]. *)
Definition is_alnum (c : N) : bool := is_alpha c || is_digit c.

(** [\s] and [str.isspace]: tab to carriage return, the four separators
    0x1C-0x1F and the space, then the Unicode table. *)
Definition is_space (c : N) : bool :=
  (if c <? 128 then ((9 <=? c) && (c <=? 13)) || ((28 <=? c) && (c <=? 31)) || (c =? 32)
   else uni_space c)%N.

(** [\w]: alphanumeric or underscore. *)
Definition is_word (c : N) : bool :=
  (if c <? 128 then is_alnum c || (c =? 95) else uni_word c)%N.

(** [str.strip()] *)
Fixpoint lstrip (s : str) : str :=
  match s with
  | c :: s' => if is_space c then lstrip s' else s
  | [] => []
  end.

Definition rstrip (s : str) : str := rev (lstrip (rev s)).

Definition strip (s : str) : str := rstrip (lstrip s).

(** [str.lower()] *)
Definition lower_at (t : str) (i : nat) (c : N) : str :=
  (if c <? 128 then [if is_upper c then c + 32 else c] else uni_lower t i)%N.

Fixpoint lower_from (t : str) (i : nat) (s : str) : str :=
  match s with
  | [] => []
  | c :: s' => lower_at t i c ++ lower_from t (S i) s'
  end.

Definition lower (t : str) : str := lower_from t 0 t.

(** ** Regular expressions

    The fragment of [re] the two patterns use, matched the way the
    backtracking engine does: a repetition takes as much as it can and
    gives back one iteration at a time, and the first success wins. *)

Inductive regex : Type :=
| Cls (p : N -> bool)        (* one character of a class *)
| WordB                      (* \b *)
| Cat (r1 r2 : regex)        (* r1 r2 *)
| Star (r : regex).          (* r*, greedy *)

(** [r+] *)
Definition Plus (r : regex) : regex := Cat r (Star r).

(** [r{n,}] *)
Fixpoint AtLeast (n : nat) (r : regex) : regex :=
  match n with
  | O => Star r
  | S n' => Cat r (AtLeast n' r)
  end.

(** [\b] at a position: the characters on the two sides differ in
    word-ness, a missing neighbour counting as a non-word. *)
Definition at_boundary (prev : option N) (s : str) : bool :=
  let that := match prev with Some c => is_word c | None => false end in
  let this := match s with c :: _ => is_word c | [] => false end in
  negb (Bool.eqb this that).

(** A matcher takes the character before the position, the rest of the
    input and a continuation; it answers with what is left of the input
    after the whole match. *)
Definition matcher := option N -> str -> (option N -> str -> option str) -> option str.

(** Greedy repetition of a matcher: one more iteration first, then the
    continuation.  An iteration that consumes nothing is refused, as the
    engine does, so [n] iterations suffice on an input of [n] characters. *)
Fixpoint star_loop (m : matcher) (k : option N -> str -> option str) (n : nat)
    (prev : option N) (s : str) {struct n} : option str :=
  match n with
  | O => k prev s
  | S n' =>
      match m prev s
              (fun p' s' =>
                 if length s' <? length s then star_loop m k n' p' s' else None) with
      | Some rest => Some rest
      | None => k prev s
      end
  end.

(** [re_match r prev s k]: match [r] at the head of [s], the character
    before it being [prev], then continue with [k]. *)
Fixpoint re_match (r : regex) (prev : option N) (s : str)
    (k : option N -> str -> option str) {struct r} : option str :=
  match r with
  | Cls p =>
      match s with
      | c :: s' => if p c then k (Some c) s' else None
      | [] => None
      end
  | WordB => if at_boundary prev s then k prev s else None
  | Cat r1 r2 => re_match r1 prev s (fun p' s' => re_match r2 p' s' k)
  | Star r1 => star_loop (re_match r1) k (length s) prev s
  end.

(** [re.findall(r, s)] for a pattern whose only group spans the whole
    match.  [skip] counts the characters of the current match still to be
    passed over: the next search starts where the match ended.  The two
    patterns below never match the empty string ([candidates_nonempty]),
    so the engine's rule for what follows an empty match plays no part. *)
Fixpoint scan (r : regex) (prev : option N) (s : str) (skip : nat) : list str :=
  match s with
  | [] =>
      match skip, re_match r prev [] (fun _ rest => Some rest) with
      | O, Some _ => [[]]
      | _, _ => []
      end
  | c :: s' =>
      match skip with
      | S n => scan r (Some c) s' n
      | O =>
          match re_match r prev s (fun _ rest => Some rest) with
          | Some rest =>
              let w := firstn (length s - length rest) s in
              w :: scan r (Some c) s' (length w - 1)
          | None => scan r (Some c) s' 0
          end
      end
  end.

Definition findall (r : regex) (s : str) : list str := scan r None s 0.

(** ** The term extractors *)

(** The pattern of [find_entities]: a word boundary, a group holding one
    capitalized word [[A-Z][a-zA-Z0-9]+] followed by any number of
    [\s+[A-Z][a-zA-Z0-9]+], and a word boundary. *)
Definition capitalized : regex := Cat (Cls is_upper) (Plus (Cls is_alnum)).

Definition entity_re : regex :=
  Cat WordB
    (Cat (Cat capitalized (Star (Cat (Plus (Cls is_space)) capitalized)))
       WordB).

Definition entity_stop : list str :=
  map lit ["The"; "This"; "That"; "And"; "For"; "With"; "From"; "Project";
           "Customer"]%string.

Definition find_entities (text : str) : list str :=
  let candidates := findall entity_re text in
  let cleaned :=
    map strip
      (filter (fun c => negb (str_in c entity_stop) && (2 <? length c)) candidates) in
  cleaned.

(** [\b[a-zA-Z]{5,}\b] *)
Definition topic_re : regex := Cat WordB (Cat (AtLeast 5 (Cls is_alpha)) WordB).

Definition topic_stop : list str :=
  map lit ["project"; "requirements"; "system"; "solution"; "cloud"; "customer";
           "service"]%string.


(** ** [collections.Counter] and [dict]

    Both keep their keys in insertion order, which the rankings and the
    exports depend on: association lists with distinct keys. *)

Definition counter := list (str * nat).

(** [c[k] = c.get(k, 0) + n] *)
Fixpoint counter_add (k : str) (n : nat) (c : counter) : counter :=
  match c with
  | [] => [(k, n)]
  | (k', m) :: c' =>
      if str_eq_dec k' k then (k', m + n) :: c' else (k', m) :: counter_add k n c'
  end.

(** [c[k]], zero for a missing key. *)
Fixpoint counter_get (c : counter) (k : str) : nat :=
  match c with
  | [] => 0
  | (k', m) :: c' => if str_eq_dec k' k then m else counter_get c' k
  end.

(** [Counter(iterable)] *)
Definition Counter (l : list str) : counter :=
  fold_left (fun c x => counter_add x 1 c) l [].


(** One occurrence more of [x]. *)
Definition add1 (c : counter) (x : str) : counter := counter_add x 1 c.

(** [c.update(other)] for a mapping [other]. *)
Definition counter_update (c other : counter) : counter :=
  fold_left (fun c kn => counter_add (fst kn) (snd kn) c) other c.

(** [sorted(items, key=itemgetter(1), reverse=True)]: a stable sort, the
    items of equal count keeping their order. *)
Fixpoint insert_desc (x : str * nat) (l : counter) : counter :=
  match l with
  | [] => [x]
  | y :: l' => if snd x <? snd y then y :: insert_desc x l' else x :: l
  end.

Definition sorted_desc (c : counter) : counter := fold_right insert_desc [] c.

(** [c.most_common(n)] is [heapq.nlargest(n, c.items(), key=itemgetter(1))],
    which the library documents as the first [n] items of the stable
    descending sort. *)
Definition most_common (n : nat) (c : counter) : counter := firstn n (sorted_desc c).

Definition find_topics (text : str) (top_n : nat) : list str :=
  let words := findall topic_re (lower text) in
  let words := filter (fun w => negb (str_in w topic_stop)) words in
  let freq := Counter words in
  map fst (most_common top_n freq).

(** The default of [top_n]. *)
Definition default_top_n : nat := 10.

Definition dict (V : Type) := list (str * V).

(** [d[k] = v] *)
Fixpoint dict_set {V} (k : str) (v : V) (d : dict V) : dict V :=
  match d with
  | [] => [(k, v)]
  | (k', v') :: d' =>
      if str_eq_dec k' k then (k', v) :: d' else (k', v') :: dict_set k v d'
  end.

(** [k in d] *)
Definition dict_mem {V} (k : str) (d : dict V) : bool := str_in k (map fst d).

Definition dict_keys {V} (d : dict V) : list str := map fst d.
Definition dict_values {V} (d : dict V) : list V := map snd d.

(** ** The graph structures *)

Inductive node_type := file | entity | topic.

Record node := {
  n_id : str;
  n_type : node_type;
  n_name : str;
  n_path : option str      (* file nodes only *)
}.

Inductive edge_type :=
| FILE_CONTAINS_ENTITY
| FILE_CONTAINS_TOPIC
| ENTITY_RELATED_TO_ENTITY
| ENTITY_RELATED_TO_TOPIC.

(** An edge record carries either a weight or the file it comes from. *)
Inductive edge_attr := weight (n : nat) | from_file (file_id : str).

Record edge := {
  e_type : edge_type;
  e_from : str;
  e_to : str;
  e_attr : edge_attr
}.

(** [nodes = {"file": {}, "entity": {}, "topic": {}}] *)
Record node_store := {
  file_nodes : dict node;
  entity_nodes : dict node;
  topic_nodes : dict node
}.

(** The module-level variables.  [created] is a ghost: it remembers, for
    each edge appended, the node store as it was at that moment. *)
Record state := {
  nodes : node_store;
  edges : list edge;
  entity_global_counts : counter;
  topic_global_counts : counter;
  file_texts : dict str;
  created : list (edge * node_store)
}.

Definition init : state :=
  {| nodes := {| file_nodes := []; entity_nodes := []; topic_nodes := [] |};
     edges := [];
     entity_global_counts := [];
     topic_global_counts := [];
     file_texts := [];
     created := [] |}.

Definition get_nodes (ty : node_type) (ns : node_store) : dict node :=
  match ty with
  | file => file_nodes ns
  | entity => entity_nodes ns
  | topic => topic_nodes ns
  end.

Definition put_nodes (ty : node_type) (d : dict node) (ns : node_store) : node_store :=
  match ty with
  | file => {| file_nodes := d; entity_nodes := entity_nodes ns; topic_nodes := topic_nodes ns |}
  | entity => {| file_nodes := file_nodes ns; entity_nodes := d; topic_nodes := topic_nodes ns |}
  | topic => {| file_nodes := file_nodes ns; entity_nodes := entity_nodes ns; topic_nodes := d |}
  end.

Definition with_nodes (ns : node_store) (st : state) : state :=
  {| nodes := ns; edges := edges st;
     entity_global_counts := entity_global_counts st;
     topic_global_counts := topic_global_counts st;
     file_texts := file_texts st; created := created st |}.

(** [nodes[ty][id] = nd] *)
Definition set_node (ty : node_type) (id : str) (nd : node) (st : state) : state :=
  with_nodes (put_nodes ty (dict_set id nd (get_nodes ty (nodes st))) (nodes st)) st.

(** [if id not in nodes[ty]: nodes[ty][id] = nd] *)
Definition ensure_node (ty : node_type) (id : str) (nd : node) (st : state) : state :=
  if dict_mem id (get_nodes ty (nodes st)) then st else set_node ty id nd st.

(** [edges.append(e)] *)
Definition append_edge (e : edge) (st : state) : state :=
  {| nodes := nodes st; edges := edges st ++ [e];
     entity_global_counts := entity_global_counts st;
     topic_global_counts := topic_global_counts st;
     file_texts := file_texts st;
     created := created st ++ [(e, nodes st)] |}.

(** [file_texts[file_id] = text] *)
Definition set_file_text (file_id text : str) (st : state) : state :=
  {| nodes := nodes st; edges := edges st;
     entity_global_counts := entity_global_counts st;
     topic_global_counts := topic_global_counts st;
     file_texts := dict_set file_id text (file_texts st);
     created := created st |}.

(** [entity_global_counts.update(ec); topic_global_counts.update(tc)] *)
Definition update_globals (ec tc : counter) (st : state) : state :=
  {| nodes := nodes st; edges := edges st;
     entity_global_counts := counter_update (entity_global_counts st) ec;
     topic_global_counts := counter_update (topic_global_counts st) tc;
     file_texts := file_texts st; created := created st |}.

Definition file_id_of (path : str) : str := lit "file:" ++ path.
Definition ent_id_of (e : str) : str := lit "entity:" ++ e.
Definition top_id_of (t : str) : str := lit "topic:" ++ t.

(** ** 1. Collect data per file *)

(** The body of the loop over an entity (or topic) counter: create the
    node if it is new, then append the containment edge. *)
Definition contain (ty : node_type) (ety : edge_type) (mk_id : str -> str)
    (file_id : str) (st : state) (item : str * nat) : state :=
  let (t, count) := item in
  let id := mk_id t in
  let st := ensure_node ty id
              {| n_id := id; n_type := ty; n_name := t; n_path := None |} st in
  append_edge
    {| e_type := ety; e_from := file_id; e_to := id; e_attr := weight count |} st.

(** The body of the inner loop, for the file [f] found at [path] whose
    extracted text is [text]. *)
Definition collect (st : state) (f path text : str) : state :=
  match strip text with
  | [] => st                                            (* continue *)
  | _ :: _ =>
      let file_id := file_id_of path in
      let st := set_node file file_id
                  {| n_id := file_id; n_type := file; n_name := f;
                     n_path := Some path |} st in
      let st := set_file_text file_id text st in
      let entities := find_entities text in
      let topics := find_topics text default_top_n in
      let entity_counts := Counter entities in
      let topic_counts := Counter topics in
      let st := update_globals entity_counts topic_counts st in
      let st := fold_left (contain entity FILE_CONTAINS_ENTITY ent_id_of file_id)
                  entity_counts st in
      fold_left (contain topic FILE_CONTAINS_TOPIC top_id_of file_id)
        topic_counts st
  end.

(** [os.path.join(root, f)] on a POSIX system. *)
Definition path_join (root f : str) : str :=
  match f with
  | 47%N :: _ => f
  | _ =>
      match rev root with
      | [] => f
      | 47%N :: _ => root ++ f
      | _ => root ++ lit "/" ++ f
      end
  end.

(** What the run reads from the outside: the directories [os.walk]
    yields, each with its file names, and the text [extract_text]
    returns for a path (the format readers are not part of this file's
    logic). *)
Record sources := {
  walk : list (str * list str);
  extract_text : str -> str
}.

Definition first_pass (src : sources) : state :=
  fold_left
    (fun st (dir : str * list str) =>
       let (root, files) := dir in
       fold_left
         (fun st f =>
            let path := path_join root f in
            let text := extract_text src path in
            collect st f path text)
         files st)
    (walk src) init.

(** ** 2. Entity-entity and entity-topic co-occurrence edges *)

Definition cooccur (st : state) (item : str * str) : state :=
  let (file_id, text) := item in
  let entities := set_iter (find_entities text) in
  let topics := set_iter (find_topics text default_top_n) in
  let n := length entities in
  let st :=
    fold_left
      (fun st i =>
         fold_left
           (fun st j =>
              let e1 := ent_id_of (nth i entities []) in
              let e2 := ent_id_of (nth j entities []) in
              append_edge
                {| e_type := ENTITY_RELATED_TO_ENTITY; e_from := e1; e_to := e2;
                   e_attr := from_file file_id |} st)
           (seq (i + 1) (n - (i + 1))) st)
      (seq 0 n) st in
  fold_left
    (fun st e =>
       fold_left
         (fun st t =>
            let e_id := ent_id_of e in
            let t_id := top_id_of t in
            append_edge
              {| e_type := ENTITY_RELATED_TO_TOPIC; e_from := e_id; e_to := t_id;
                 e_attr := from_file file_id |} st)
         topics st)
    entities st.

Definition second_pass (st : state) : state :=
  fold_left cooccur (file_texts st) st.

(** The state once both loops have run. *)
Definition build (src : sources) : state := second_pass (first_pass src).

(** ** 3. Graphviz *)

Definition dquote : str := [34%N].

Definition shape_of (ty : node_type) : str :=
  match ty with
  | file => lit "box"
  | entity => lit "ellipse"
  | topic => lit "diamond"
  end.

Definition type_name (ty : edge_type) : str :=
  match ty with
  | FILE_CONTAINS_ENTITY => lit "FILE_CONTAINS_ENTITY"
  | FILE_CONTAINS_TOPIC => lit "FILE_CONTAINS_TOPIC"
  | ENTITY_RELATED_TO_ENTITY => lit "ENTITY_RELATED_TO_ENTITY"
  | ENTITY_RELATED_TO_TOPIC => lit "ENTITY_RELATED_TO_TOPIC"
  end.

(** The f-string of a node line, for the literal shape of its loop. *)
Definition node_line (shape : str) (nd : node) : str :=
  lit "  " ++ dquote ++ n_id nd ++ dquote ++ lit " [label=" ++ dquote
    ++ n_name nd ++ dquote ++ lit " shape=" ++ shape ++ lit "];".

(** The f-string of an edge line. *)
Definition edge_line (e : edge) : str :=
  lit "  " ++ dquote ++ e_from e ++ dquote ++ lit " -- " ++ dquote ++ e_to e
    ++ dquote ++ lit " [label=" ++ dquote ++ type_name (e_type e) ++ dquote
    ++ lit "];".

Definition gv_lines (st : state) : list str :=
  let gv := [lit "graph G {"] in
  let gv := fold_left (fun gv fnode => gv ++ [node_line (lit "box") fnode])
              (dict_values (file_nodes (nodes st))) gv in
  let gv := fold_left (fun gv enode => gv ++ [node_line (lit "ellipse") enode])
              (dict_values (entity_nodes (nodes st))) gv in
  let gv := fold_left (fun gv tnode => gv ++ [node_line (lit "diamond") tnode])
              (dict_values (topic_nodes (nodes st))) gv in
  let gv := fold_left (fun gv e => gv ++ [edge_line e]) (edges st) gv in
  gv ++ [lit "}"].

(** ** 4. Human-readable summary *)

(** [str(n)] of a count. *)
Definition str_of_nat (n : nat) : str := lit (NilZero.string_of_uint (Nat.to_uint n)).

Definition newline : str := [10%N].

Definition mention_line (item : str * nat) : str :=
  lit "- " ++ fst item ++ lit " (" ++ str_of_nat (snd item) ++ lit " mentions)".

Definition occurrence_line (item : str * nat) : str :=
  lit "- " ++ fst item ++ lit " (" ++ str_of_nat (snd item) ++ lit " occurrences)".

Definition summary_lines (st : state) : list str :=
  let num_files := length (file_nodes (nodes st)) in
  let num_entities := length (entity_nodes (nodes st)) in
  let num_topics := length (topic_nodes (nodes st)) in
  let sl : list str := [] in
  let sl := sl ++ [lit "# Knowledge Graph Summary" ++ newline] in
  let sl := sl ++ [lit "- Files: " ++ str_of_nat num_files] in
  let sl := sl ++ [lit "- Entities: " ++ str_of_nat num_entities] in
  let sl := sl ++ [lit "- Topics: " ++ str_of_nat num_topics ++ newline] in
  let sl := sl ++ [lit "## Top Entities" ++ newline] in
  let sl := fold_left (fun sl item => sl ++ [mention_line item])
              (most_common 20 (entity_global_counts st)) sl in
  let sl := sl ++ [newline ++ lit "## Top Topics" ++ newline] in
  fold_left (fun sl item => sl ++ [occurrence_line item])
    (most_common 20 (topic_global_counts st)) sl.

End Extractors.

(** ** A runtime for ASCII texts *)

(** On texts of ASCII characters every runtime behaves the same, but for
    the iteration order of sets; this one visits a set in insertion
    order. *)
Definition ascii_runtime : PyRuntime := {|
  uni_word := fun _ => false;
  uni_space := fun _ => false;
  uni_lower := fun t i =>
    match nth_error t i with
    | Some c => if is_upper c then [] else [c]
    | None => []
    end;
  set_iter := dedup
|}.

Definition a_txt : str := lit "Acme Corp requirements for Acme Corp cloud migration".
Definition b_txt : str := lit "Acme Corp and Globex Inc partnership".

Definition two_files : sources :=
  {| walk := [(lit "./source", [lit "a.txt"; lit "b.txt"])];
     extract_text := fun p =>
       if str_eq_dec p (lit "./source/a.txt") then a_txt
       else if str_eq_dec p (lit "./source/b.txt") then b_txt else [] |}.



(** ** Specification vocabulary *)

(** The words a pattern denotes, boundaries left aside: what a successful
    match can have consumed. *)
Inductive matches : regex -> str -> Prop :=
| M_cls p c : p c = true -> matches (Cls p) [c]
| M_wordb : matches WordB []
| M_cat r1 r2 w1 w2 :
    matches r1 w1 -> matches r2 w2 -> matches (Cat r1 r2) (w1 ++ w2)
| M_star_nil r : matches (Star r) []
| M_star_cons r w1 w2 :
    matches r w1 -> matches (Star r) w2 -> matches (Star r) (w1 ++ w2).

(** A capitalized word, and so a phrase of them, starts with a capital and
    ends with a letter or digit. *)
Definition proper (w : str) : Prop :=
  exists c m d, w = c :: m ++ [d] /\ is_upper c = true /\ is_alnum d = true.

(** [x] occurs in [l] somewhere before [y]. *)
Definition before {A} (l : list A) (x y : A) : Prop :=
  exists l1 l2 l3, l = l1 ++ x :: l2 ++ y :: l3.

(** The ranking of counter items: by count, the larger first, and among
    equal counts by position in the counter, the earlier first. *)
Definition ranks_before (c : counter) (x y : str * nat) : Prop :=
  snd y < snd x \/ (snd x = snd y /\ before c x y).

(** The ranking of terms drawn from a list of occurrences: by number of
    occurrences, then by first occurrence. *)
Definition outranks (occ : list str) (a b : str) : Prop :=
  count_occ str_eq_dec occ b < count_occ str_eq_dec occ a
  \/ (count_occ str_eq_dec occ a = count_occ str_eq_dec occ b
      /\ before (dedup occ) a b).

(** [top] lists the [n] best-ranked terms of the occurrences [occ], best
    first, each with its number of occurrences. *)
Definition top_ranked (n : nat) (occ : list str) (top : list (str * nat)) : Prop :=
  length top = Nat.min n (length (dedup occ)) /\
  NoDup (map fst top) /\
  Forall (fun kn => In (fst kn) occ /\ snd kn = count_occ str_eq_dec occ (fst kn)) top /\
  StronglySorted (outranks occ) (map fst top) /\
  (forall a b, In a (map fst top) -> In b occ -> ~ In b (map fst top) ->
               outranks occ a b).

Section Vocabulary.
Context {R : PyRuntime}.

(** The candidate words of [find_topics] once the stop words are gone: the
    occurrences that [freq] counts. *)
Definition topic_words (text : str) : list str :=
  filter (fun w => negb (str_in w topic_stop)) (findall topic_re (lower text)).

(** The paths of the files the walk visits, in order. *)
Definition walked (src : sources) : list (str * str) :=
  flat_map (fun dir : str * list str =>
              map (fun f => (f, path_join (fst dir) f)) (snd dir)) (walk src).

Definition is_blank (text : str) : bool :=
  match strip text with [] => true | _ :: _ => false end.

(** The walked files that are registered: those with a text that is not
    blank. *)
Definition registered (src : sources) : list (str * str) :=
  filter (fun fp => negb (is_blank (extract_text src (snd fp)))) (walked src).

Definition entities_of (src : sources) (path : str) : list str :=
  find_entities (extract_text src path).

Definition topics_of (src : sources) (path : str) : list str :=
  find_topics (extract_text src path) default_top_n.

End Vocabulary.

(** The containment edge the first pass appends for an item of a per-file
    counter. *)
Definition contain_edge (ety : edge_type) (mk_id : str -> str) (file_id : str)
    (item : str * nat) : edge :=
  {| e_type := ety; e_from := file_id; e_to := mk_id (fst item);
     e_attr := weight (snd item) |}.

(** The co-occurrence edge the second pass appends for two terms. *)
Definition related_edge (ety : edge_type) (file_id a b : str) : edge :=
  {| e_type := ety; e_from := a; e_to := b; e_attr := from_file file_id |}.

(** The pairs of a list, each element with each later one. *)
Fixpoint pairs {A} (l : list A) : list (A * A) :=
  match l with
  | [] => []
  | x :: r => map (pair x) r ++ pairs r
  end.

(** The state after a run of [edges.append] that leaves the nodes alone. *)
Definition append_edges (es : list edge) (st : state) : state :=
  {| nodes := nodes st; edges := edges st ++ es;
     entity_global_counts := entity_global_counts st;
     topic_global_counts := topic_global_counts st;
     file_texts := file_texts st;
     created := created st ++ map (fun e => (e, nodes st)) es |}.

Section Passes.
Context {R : PyRuntime}.

(** The containment edges of the file at [path], entities then topics. *)
Definition containment (src : sources) (path : str) : list edge :=
  map (contain_edge FILE_CONTAINS_ENTITY ent_id_of (file_id_of path))
      (Counter (entities_of src path))
  ++ map (contain_edge FILE_CONTAINS_TOPIC top_id_of (file_id_of path))
         (Counter (topics_of src path)).

(** The entity-entity edges of a file, by the two index loops. *)
Definition entity_pairs (file_id : str) (entities : list str) : list edge :=
  let n := length entities in
  flat_map
    (fun i =>
       map (fun j =>
              related_edge ENTITY_RELATED_TO_ENTITY file_id
                (ent_id_of (nth i entities [])) (ent_id_of (nth j entities [])))
           (seq (i + 1) (n - (i + 1))))
    (seq 0 n).

(** The entity-topic edges of a file. *)
Definition entity_topic_pairs (file_id : str) (entities topics : list str) : list edge :=
  flat_map
    (fun e =>
       map (fun t =>
              related_edge ENTITY_RELATED_TO_TOPIC file_id (ent_id_of e) (top_id_of t))
           topics)
    entities.

(** The co-occurrence edges of an item of [file_texts]. *)
Definition cooccurrence (item : str * str) : list edge :=
  let entities := set_iter (find_entities (snd item)) in
  let topics := set_iter (find_topics (snd item) default_top_n) in
  entity_pairs (fst item) entities ++ entity_topic_pairs (fst item) entities topics.

End Passes.

Definition edge_type_eqb (a b : edge_type) : bool :=
  match a, b with
  | FILE_CONTAINS_ENTITY, FILE_CONTAINS_ENTITY
  | FILE_CONTAINS_TOPIC, FILE_CONTAINS_TOPIC
  | ENTITY_RELATED_TO_ENTITY, ENTITY_RELATED_TO_ENTITY
  | ENTITY_RELATED_TO_TOPIC, ENTITY_RELATED_TO_TOPIC => true
  | _, _ => false
  end.

(** The edge has this type and these two endpoints. *)
Definition joins (ty : edge_type) (a b : str) (e : edge) : bool :=
  edge_type_eqb (e_type e) ty && str_eqb (e_from e) a && str_eqb (e_to e) b.

(** The edge has this type and is attributed to this file. *)
Definition tagged (ty : edge_type) (file_id : str) (e : edge) : bool :=
  edge_type_eqb (e_type e) ty &&
  match e_attr e with from_file f => str_eqb f file_id | weight _ => false end.

Definition weight_of (e : edge) : nat :=
  match e_attr e with weight n => n | from_file _ => 0 end.

(** [sum(edge.weight for edge in es)] *)
Definition weight_sum (es : list edge) : nat := list_sum (map weight_of es).

(** Both endpoints of an edge are keys of the node store, each in the
    collection its edge type names. *)
Definition endpoints_in (ns : node_store) (e : edge) : Prop :=
  match e_type e with
  | FILE_CONTAINS_ENTITY =>
      In (e_from e) (dict_keys (file_nodes ns)) /\ In (e_to e) (dict_keys (entity_nodes ns))
  | FILE_CONTAINS_TOPIC =>
      In (e_from e) (dict_keys (file_nodes ns)) /\ In (e_to e) (dict_keys (topic_nodes ns))
  | ENTITY_RELATED_TO_ENTITY =>
      In (e_from e) (dict_keys (entity_nodes ns)) /\ In (e_to e) (dict_keys (entity_nodes ns))
  | ENTITY_RELATED_TO_TOPIC =>
      In (e_from e) (dict_keys (entity_nodes ns)) /\ In (e_to e) (dict_keys (topic_nodes ns))
  end.

(** Every node sits under its own id, which is built from its path (a
    file) or from its name (an entity, a topic). *)
Definition node_ok (ty : node_type) (kn : str * node) : Prop :=
  n_id (snd kn) = fst kn /\ n_type (snd kn) = ty /\
  match ty with
  | file => exists p, n_path (snd kn) = Some p /\ fst kn = file_id_of p
  | entity => n_path (snd kn) = None /\ fst kn = ent_id_of (n_name (snd kn))
  | topic => n_path (snd kn) = None /\ fst kn = top_id_of (n_name (snd kn))
  end.

Definition store_ok (ns : node_store) : Prop :=
  forall ty, NoDup (dict_keys (get_nodes ty ns)) /\ Forall (node_ok ty) (get_nodes ty ns).

(** The edges were logged as they were appended, each with endpoints
    that were nodes already. *)
Definition log_ok (st : state) : Prop :=
  map fst (created st) = edges st /\
  Forall (fun en => endpoints_in (snd en) (fst en)) (created st).

(** The node ids of one store are all node ids of another. *)
Definition keys_le (ns ns' : node_store) : Prop :=
  forall ty k, In k (dict_keys (get_nodes ty ns)) -> In k (dict_keys (get_nodes ty ns')).

Section Coverage.
Context {R : PyRuntime}.

(** Each text kept for the second pass has its file node and the nodes of
    all its entities and topics. *)
Definition covered (st : state) : Prop :=
  forall fid text, In (fid, text) (file_texts st) ->
    In fid (dict_keys (file_nodes (nodes st))) /\
    (forall e, In e (find_entities text) ->
               In (ent_id_of e) (dict_keys (entity_nodes (nodes st)))) /\
    (forall t, In t (find_topics text default_top_n) ->
               In (top_id_of t) (dict_keys (topic_nodes (nodes st)))).

(** The loop body of the first pass on a walked file. *)
Definition visit (src : sources) (st : state) (fp : str * str) : state :=
  collect st (fst fp) (snd fp) (extract_text src (snd fp)).

End Coverage.

(** The two uses of the containment loop. *)
Definition kind_ok (ty : node_type) (ety : edge_type) (mk_id : str -> str) : Prop :=
  (ty = entity /\ ety = FILE_CONTAINS_ENTITY /\ mk_id = ent_id_of) \/
  (ty = topic /\ ety = FILE_CONTAINS_TOPIC /\ mk_id = top_id_of).

Section Registered.
Context {R : PyRuntime}.

(** The text kept for a registered file, under its id. *)
Definition kept (src : sources) (fp : str * str) : str * str :=
  (file_id_of (snd fp), extract_text src (snd fp)).

End Registered.

(** The pair is made of [a] and [b], in either order. *)
Definition unordered (a b : str) (p : str * str) : bool :=
  (str_eqb (fst p) a && str_eqb (snd p) b) || (str_eqb (fst p) b && str_eqb (snd p) a).

(** No two nodes of a type share a name. *)
Definition names_unique (st : state) : Prop :=
  forall ty, NoDup (map n_name (dict_values (get_nodes ty (nodes st)))).

(** A source directory holding one empty text file. *)
Definition zero_byte : sources :=
  {| walk := [(lit "./source", [lit "empty.txt"])];
     extract_text := fun _ => [] |}.

(** Two directories, each with a file called notes.txt. *)
Definition same_name : sources :=
  {| walk := [(lit "./source/a", [lit "notes.txt"]);
              (lit "./source/b", [lit "notes.txt"])];
     extract_text := fun _ => lit "hello" |}.

(** A file whose name holds a double quote and a backslash, and whose
    text holds a phrase broken by a newline. *)
Definition odd_names : sources :=
  {| walk := [(lit "./source", [lit "a" ++ [34%N] ++ lit "b\.txt"])];
     extract_text := fun _ => lit "Acme" ++ [10%N] ++ lit "Corp" |}.

(** One file saying the same long word twice. *)
Definition twice_alpha : sources :=
  {| walk := [(lit "./source", [lit "t.txt"])];
     extract_text := fun _ => lit "alpha alpha" |}.

(** ** The rest of the script *)

(** The record the first pass stores for a term, under its id. *)
Definition term_node (ty : node_type) (mk_id : str -> str) (t : str) : str * node :=
  (mk_id t, {| n_id := mk_id t; n_type := ty; n_name := t; n_path := None |}).

(** The record the first pass stores for a walked file, under its id. *)
Definition file_node (fp : str * str) : str * node :=
  (file_id_of (snd fp),
   {| n_id := file_id_of (snd fp); n_type := file; n_name := fst fp;
      n_path := Some (snd fp) |}).

(** What the containment loop does to the collection of its node type. *)
Definition ensure_term (ty : node_type) (mk_id : str -> str) (d : dict node) (t : str)
    : dict node :=
  if dict_mem (mk_id t) d then d else dict_set (mk_id t) (snd (term_node ty mk_id t)) d.

(** [graph["stats"]] *)
Record stats := {
  num_files : nat;
  num_entities : nat;
  num_topics : nat
}.

(** The dictionary handed to [json.dump]. *)
Record graph_doc := {
  g_file : list node;
  g_entity : list node;
  g_topic : list node;
  g_edges : list edge;
  g_stats : stats
}.

Definition graph (st : state) : graph_doc :=
  {| g_file := dict_values (file_nodes (nodes st));
     g_entity := dict_values (entity_nodes (nodes st));
     g_topic := dict_values (topic_nodes (nodes st));
     g_edges := edges st;
     g_stats := {| num_files := length (file_nodes (nodes st));
                   num_entities := length (entity_nodes (nodes st));
                   num_topics := length (topic_nodes (nodes st)) |} |}.

Section AllTerms.
Context {R : PyRuntime}.

(** Every entity occurrence of the run, file after file. *)
Definition all_entities (src : sources) : list str :=
  flat_map (fun fp => entities_of src (snd fp)) (registered src).

(** Every topic listed in the run, file after file. *)
Definition all_topics (src : sources) : list str :=
  flat_map (fun fp => topics_of src (snd fp)) (registered src).

End AllTerms.

(** Edges by kind. *)
Definition is_containment (e : edge) : bool :=
  match e_type e with
  | FILE_CONTAINS_ENTITY | FILE_CONTAINS_TOPIC => true
  | _ => false
  end.

(** The containment edges of a type that point at a node. *)
Definition points_at (ty : edge_type) (id : str) (e : edge) : bool :=
  edge_type_eqb (e_type e) ty && str_eqb (e_to e) id.

(** The containment edges of a type that leave a node. *)
Definition leaves (ty : edge_type) (id : str) (e : edge) : bool :=
  edge_type_eqb (e_type e) ty && str_eqb (e_from e) id.

Section Pruning.
Context {R : PyRuntime}.

(** The source tree without the files whose text is blank. *)
Definition prune (src : sources) : sources :=
  {| walk :=
       map (fun dir : str * list str =>
              (fst dir,
               filter (fun f =>
                         negb (is_blank (extract_text src (path_join (fst dir) f))))
                 (snd dir)))
         (walk src);
     extract_text := extract_text src |}.

(** The number of edges a registered file brings: one per distinct
    entity, one per distinct topic, one per pair of entities and one per
    entity and topic. *)
Definition edges_of_file (src : sources) (path : str) : nat :=
  let n := length (dedup (entities_of src path)) in
  let m := length (dedup (topics_of src path)) in
  n + m + n * (n - 1) / 2 + n * m.

End Pruning.

(** The ASCII runtime with sets iterated the other way round. *)
Definition ascii_runtime_rev : PyRuntime := {|
  uni_word := uni_word (PyRuntime := ascii_runtime);
  uni_space := uni_space (PyRuntime := ascii_runtime);
  uni_lower := uni_lower (PyRuntime := ascii_runtime);
  set_iter := fun l => rev (dedup l)
|}.

(** The strings are pieces of the text that follow one another without
    overlapping. *)
Inductive pieces_of : list str -> str -> Prop :=
| pieces_nil s : pieces_of [] s
| pieces_cons g w ws s : pieces_of ws s -> pieces_of (w :: ws) (g ++ w ++ s).

(** Every character class of the pattern lies within [P]. *)
Fixpoint classes_in (P : N -> Prop) (r : regex) : Prop :=
  match r with
  | Cls p => forall c, p c = true -> P c
  | WordB => True
  | Cat r1 r2 => classes_in P r1 /\ classes_in P r2
  | Star r1 => classes_in P r1
  end.

(** The double quote and the backslash. *)
Definition breaks_quoting (c : N) : bool := ((c =? 34) || (c =? 92))%N.

(** ** [extract_text] *)

(** [p.rfind(c)], minus one when [c] does not occur. *)
Fixpoint rfind_from (c : N) (i : Z) (p : str) : Z :=
  match p with
  | [] => (-1)%Z
  | x :: p' =>
      let j := rfind_from c (i + 1) p' in
      if (0 <=? j)%Z then j else if (x =? c)%N then i else (-1)%Z
  end.

Definition rfind (c : N) (p : str) : Z := rfind_from c 0 p.

(** [os.path.splitext(p)] on a POSIX system: the extension starts at the
    last dot of the last component, unless only dots come before it
    there. *)
Definition splitext (p : str) : str * str :=
  let sepIndex := rfind 47 p in
  let dotIndex := rfind 46 p in
  if (sepIndex <? dotIndex)%Z then
    let filenameIndex := Z.to_nat (sepIndex + 1) in
    if existsb (fun i => negb (nth i p 0 =? 46)%N)
         (seq filenameIndex (Z.to_nat dotIndex - filenameIndex))
    then (firstn (Z.to_nat dotIndex) p, skipn (Z.to_nat dotIndex) p)
    else (p, [])
  else (p, []).

(** [sep.join(parts)] *)
Fixpoint join (sep : str) (parts : list str) : str :=
  match parts with
  | [] => []
  | [x] => x
  | x :: rest => x ++ sep ++ join sep rest
  end.

(** What the format readers give for a path, [None] when they raise:
    the decoded content of a text file, the paragraph texts of a DOCX, the
    text extracted from each page of a PDF (possibly none), and, for each
    slide of a PPTX, the text of each shape that has one. *)
Record readers := {
  open_read : str -> option str;
  Document : str -> option (list str);
  PdfReader : str -> option (list (option str));
  Presentation : str -> option (list (list (option str)))
}.

(** [x or ""] *)
Definition or_empty (x : option str) : str :=
  match x with Some s => s | None => [] end.

(** The texts of the shapes of the slides that have one, in order. *)
Definition shape_texts (slides : list (list (option str))) : list str :=
  flat_map (fun slide =>
              flat_map (fun shape => match shape with Some t => [t] | None => [] end)
                slide)
    slides.

Definition text_exts : list str := [lit ".txt"; lit ".md"; lit ".csv"; lit ".json"].

Section ExtractText.
Context {R : PyRuntime}.

Definition extract_text_of (fs : readers) (path : str) : str :=
  let ext := lower (snd (splitext path)) in
  if str_in ext text_exts then
    match open_read fs path with Some s => s | None => [] end
  else if str_eqb ext (lit ".docx") then
    match Document fs path with
    | Some paragraphs => join newline paragraphs
    | None => []
    end
  else if str_eqb ext (lit ".pdf") then
    match PdfReader fs path with
    | Some pages => join newline (map or_empty pages)
    | None => []
    end
  else if str_eqb ext (lit ".pptx") then
    match Presentation fs path with
    | Some slides => join newline (shape_texts slides)
    | None => []
    end
  else [].

(** The sources of a run over a directory tree read with these readers. *)
Definition disk (fs : readers) (tree : list (str * list str)) : sources :=
  {| walk := tree; extract_text := extract_text_of fs |}.

End ExtractText.

(** The extensions with a reader. *)
Definition known_exts : list str :=
  text_exts ++ [lit ".docx"; lit ".pdf"; lit ".pptx"].

(** A directory prefix: nothing, or something that ends with a slash. *)
Definition dir_prefix (d : str) : Prop := d = [] \/ exists d', d = d' ++ [47%N].

(** The reader that the extension of the path selects raises. *)
Definition reader_raises {R : PyRuntime} (fs : readers) (path : str) : Prop :=
  let ext := lower (snd (splitext path)) in
  (In ext text_exts /\ open_read fs path = None) \/
  (ext = lit ".docx" /\ Document fs path = None) \/
  (ext = lit ".pdf" /\ PdfReader fs path = None) \/
  (ext = lit ".pptx" /\ Presentation fs path = None).

(** Readers that know one text file, of upper-case extension. *)
Definition one_note : readers :=
  {| open_read := fun p => if str_eq_dec p (lit "./source/NOTE.TXT")
                           then Some (lit "Acme Corp") else None;
     Document := fun _ => None;
     PdfReader := fun p => if str_eq_dec p (lit "./source/scan.pdf")
                           then Some [None; Some []; None] else None;
     Presentation := fun _ => None |}.

(** A directory with a text file of upper-case extension, a PDF without
    text, a program and a dot-file. *)
Definition mixed_tree : list (str * list str) :=
  [(lit "./source", [lit "NOTE.TXT"; lit "scan.pdf"; lit "tool.exe"; lit ".txt"])].

(** What [os.walk] yields: each directory once, under a name that is not
    empty and does not end with a slash, with its file names, each once
    and without a slash. *)
Definition walk_ok (w : list (str * list str)) : Prop :=
  NoDup (map fst w) /\
  Forall (fun dir : str * list str =>
            fst dir <> [] /\ last (fst dir) 0%N <> 47%N /\
            NoDup (snd dir) /\ Forall (fun f => ~ In 47%N f) (snd dir)) w.

(** ** Character classes *)

Ltac nbool :=
  unfold is_alnum, is_alpha, is_upper, is_lower, is_digit in *;
  repeat match goal with
         | |- context [(?a <=? ?b)%N] => destruct (N.leb_spec a b)
         | |- context [(?a <? ?b)%N] => destruct (N.ltb_spec a b)
         | |- context [(?a =? ?b)%N] => destruct (N.eqb_spec a b)
         | H : context [(?a <=? ?b)%N] |- _ => destruct (N.leb_spec a b)
         | H : context [(?a <? ?b)%N] |- _ => destruct (N.ltb_spec a b)
         | H : context [(?a =? ?b)%N] |- _ => destruct (N.eqb_spec a b)
         end;
  simpl in *; try congruence; try lia.

Section ExtractorFacts.
Context {R : PyRuntime}.

Lemma alnum_not_space c : is_alnum c = true -> is_space c = false.
Proof. unfold is_space. nbool. Qed.

Lemma upper_alnum c : is_upper c = true -> is_alnum c = true.
Proof. nbool. Qed.

Lemma lstrip_head c s : is_space c = false -> lstrip (c :: s) = c :: s.
Proof. intros H. simpl. now rewrite H. Qed.

(** A string that neither starts nor ends with a blank is its own strip. *)
Lemma strip_id c w d :
  is_space c = false -> is_space d = false ->
  strip (c :: w ++ [d]) = c :: w ++ [d].
Proof.
  intros Hc Hd. unfold strip, rstrip. rewrite (lstrip_head _ _ Hc).
  change (c :: w ++ [d]) with ((c :: w) ++ [d]).
  rewrite rev_app_distr. simpl (rev [d] ++ _).
  rewrite (lstrip_head _ _ Hd).
  simpl. now rewrite rev_app_distr, rev_involutive.
Qed.

(** ** Soundness of the matcher *)

Lemma re_match_sound r :
  forall prev s k rest,
    re_match r prev s k = Some rest ->
    exists w s' p', s = w ++ s' /\ matches r w /\ k p' s' = Some rest.
Proof.
  induction r as [p| |r1 IH1 r2 IH2|r1 IH1]; intros prev s k rest H; simpl in H.
  - destruct s as [|c s']; [discriminate|].
    destruct (p c) eqn:Hp; [|discriminate].
    exists [c], s', (Some c). repeat split; trivial. now constructor.
  - destruct (at_boundary prev s); [|discriminate].
    exists [], s, prev. repeat split; trivial. constructor.
  - apply IH1 in H. destruct H as (w1 & s1 & p1 & -> & M1 & H).
    apply IH2 in H. destruct H as (w2 & s2 & p2 & -> & M2 & H).
    exists (w1 ++ w2), s2, p2. rewrite app_assoc. repeat split; trivial.
    now constructor.
  - revert H. generalize (length s). intros n. revert prev s.
    induction n as [|n IHn]; intros prev s H; simpl in H.
    + exists [], s, prev. repeat split; trivial. constructor.
    + match type of H with
      | match ?m with _ => _ end = _ => destruct m as [rest'|] eqn:Hm
      end.
      * injection H as ->. apply IH1 in Hm.
        destruct Hm as (w1 & s1 & p1 & -> & M1 & Hm).
        destruct (length s1 <? length (w1 ++ s1)); [|discriminate].
        apply IHn in Hm. destruct Hm as (w2 & s2 & p2 & -> & M2 & Hk).
        exists (w1 ++ w2), s2, p2. rewrite app_assoc. repeat split; trivial.
        now constructor.
      * exists [], s, prev. repeat split; trivial. constructor.
Qed.

(** A match only asks its continuation about what is left of the input. *)
Lemma re_match_ext r :
  forall prev s k1 k2,
    (forall p' s', length s' <= length s -> k1 p' s' = k2 p' s') ->
    re_match r prev s k1 = re_match r prev s k2.
Proof.
  induction r as [p| |r1 IH1 r2 IH2|r1 IH1]; intros prev s k1 k2 H; simpl.
  - destruct s as [|c s']; trivial. destruct (p c); trivial.
    apply H. simpl. lia.
  - destruct (at_boundary prev s); trivial. now apply H.
  - apply IH1. intros p' s' L. apply IH2. intros p2 s2 L2. apply H. lia.
  - assert (forall n p0 s0, length s0 <= length s ->
              star_loop (re_match r1) k1 n p0 s0 = star_loop (re_match r1) k2 n p0 s0)
      as Hn; [|now apply Hn].
    induction n as [|n IHn]; intros p0 s0 L; simpl.
    + now apply H.
    + rewrite (H p0 s0 L).
      erewrite IH1; [reflexivity|]. intros p' s' L'. simpl.
      destruct (length s' <? length s0); trivial. apply IHn. lia.
Qed.

Lemma re_match_none r prev s : re_match r prev s (fun _ _ => None) = None.
Proof.
  destruct (re_match r prev s (fun _ _ => None)) as [rest|] eqn:E; trivial.
  apply re_match_sound in E. destruct E as (_ & _ & _ & _ & _ & E). discriminate.
Qed.

(** The repetition does not run out of iterations: more of them than the
    input has characters change nothing. *)
Lemma star_loop_fuel r k :
  forall n n' prev s,
    length s <= n -> length s <= n' ->
    star_loop (re_match r) k n prev s = star_loop (re_match r) k n' prev s.
Proof.
  assert (forall n prev, star_loop (re_match r) k n prev [] = k prev []) as Hnil.
  { intros [|n] prev; simpl; trivial.
    rewrite (re_match_ext r prev [] _ (fun _ _ => None)).
    - now rewrite re_match_none.
    - intros p' s' _. now destruct (length s' <? 0) eqn:E. }
  induction n as [|n IHn]; intros n' prev s L L'.
  - destruct s; [|simpl in L; lia]. now rewrite !Hnil.
  - destruct n' as [|n'].
    + destruct s; [|simpl in L'; lia]. now rewrite !Hnil.
    + simpl. erewrite re_match_ext; [reflexivity|].
      intros p' s' _. simpl.
      destruct (length s' <? length s) eqn:E; trivial.
      apply Nat.ltb_lt in E. apply IHn; lia.
Qed.

Lemma scan_cons r prev c s skip :
  scan r prev (c :: s) skip =
  match skip with
  | S n => scan r (Some c) s n
  | O =>
      match re_match r prev (c :: s) (fun _ rest => Some rest) with
      | Some rest =>
          let w := firstn (length (c :: s) - length rest) (c :: s) in
          w :: scan r (Some c) s (length w - 1)
      | None => scan r (Some c) s 0
      end
  end.
Proof. reflexivity. Qed.

(** Every string [findall] returns is a piece of the text that the
    pattern denotes. *)
Lemma scan_sound r :
  forall s prev skip w,
    In w (scan r prev s skip) ->
    matches r w /\ exists s1 s2, s = s1 ++ w ++ s2.
Proof.
  induction s as [|c s IH]; intros prev skip w H;
    [simpl in H|rewrite scan_cons in H].
  - destruct skip; [|contradiction].
    destruct (re_match r prev [] (fun _ rest => Some rest)) as [rest|] eqn:Hm;
      [|contradiction].
    destruct H as [<-|[]].
    apply re_match_sound in Hm. destruct Hm as (w & s' & _ & E & M & _).
    symmetry in E. apply app_eq_nil in E. destruct E as [-> ->].
    split; trivial. now exists [], [].
  - destruct skip as [|n].
    + destruct (re_match r prev (c :: s) (fun _ rest => Some rest)) as [rest|] eqn:Hm.
      * destruct H as [<-|H].
        -- apply re_match_sound in Hm. destruct Hm as (w & s' & _ & E & M & Hk).
           injection Hk as <-. cbv zeta. rewrite E.
           rewrite length_app, Nat.add_sub, firstn_app, Nat.sub_diag, firstn_all.
           simpl. rewrite app_nil_r. split; trivial. now exists [], s'.
        -- apply IH in H. destruct H as (M & s1 & s2 & ->).
           split; trivial. now exists (c :: s1), s2.
      * apply IH in H. destruct H as (M & s1 & s2 & ->).
        split; trivial. now exists (c :: s1), s2.
    + apply IH in H. destruct H as (M & s1 & s2 & ->).
      split; trivial. now exists (c :: s1), s2.
Qed.

Lemma findall_sound r s w :
  In w (findall r s) -> matches r w /\ exists s1 s2, s = s1 ++ w ++ s2.
Proof. apply scan_sound. Qed.

End ExtractorFacts.

(** ** Lists *)

Section ListFacts.

Lemma str_eqb_eq a b : str_eqb a b = true <-> a = b.
Proof. unfold str_eqb. destruct (str_eq_dec a b); split; congruence. Qed.

Lemma str_eqb_refl a : str_eqb a a = true.
Proof. now apply str_eqb_eq. Qed.

Lemma str_in_In x xs : str_in x xs = true <-> In x xs.
Proof.
  unfold str_in. rewrite existsb_exists. split.
  - intros (y & Hy & E). apply str_eqb_eq in E. now subst.
  - intros H. exists x. split; trivial. apply str_eqb_refl.
Qed.

Lemma str_in_false x xs : str_in x xs = false <-> ~ In x xs.
Proof.
  rewrite <- str_in_In. destruct (str_in x xs); split; congruence.
Qed.

Lemma dedup_step_old acc x : str_in x acc = true -> dedup_step acc x = acc.
Proof. intros H. unfold dedup_step. now rewrite H. Qed.

Lemma dedup_step_new acc x : str_in x acc = false -> dedup_step acc x = acc ++ [x].
Proof. intros H. unfold dedup_step. now rewrite H. Qed.

Lemma dedup_step_In acc x y : In y (dedup_step acc x) <-> In y acc \/ y = x.
Proof.
  unfold dedup_step. destruct (str_in x acc) eqn:E.
  - apply str_in_In in E. split; [tauto|]. intros [H| ->]; trivial.
  - rewrite in_app_iff. simpl. intuition congruence.
Qed.

Lemma dedup_from_In l : forall acc y,
  In y (fold_left dedup_step l acc) <-> In y acc \/ In y l.
Proof.
  induction l as [|x l IH]; intros acc y; simpl; [tauto|].
  rewrite IH, dedup_step_In. intuition congruence.
Qed.

Lemma dedup_In l y : In y (dedup l) <-> In y l.
Proof. unfold dedup. rewrite dedup_from_In. simpl. tauto. Qed.

Lemma dedup_step_NoDup acc x : NoDup acc -> NoDup (dedup_step acc x).
Proof.
  intros H. unfold dedup_step. destruct (str_in x acc) eqn:E; trivial.
  apply str_in_false in E.
  apply NoDup_app; trivial.
  - repeat constructor. intros [].
  - intros y Hy [<-|[]]. contradiction.
Qed.

Lemma dedup_from_NoDup l : forall acc, NoDup acc -> NoDup (fold_left dedup_step l acc).
Proof.
  induction l as [|x l IH]; intros acc H; simpl; trivial.
  apply IH, dedup_step_NoDup, H.
Qed.

Lemma dedup_NoDup l : NoDup (dedup l).
Proof. apply dedup_from_NoDup. constructor. Qed.

(** Deduplicating first changes nothing for a later deduplication. *)
Lemma dedup_from_dedup l : forall acc,
  fold_left dedup_step (dedup l) acc = fold_left dedup_step l acc.
Proof.
  induction l as [|x l IH] using rev_ind; intros acc; trivial.
  unfold dedup in *. rewrite !fold_left_app. simpl.
  destruct (str_in x (fold_left dedup_step l [])) eqn:E.
  - rewrite (dedup_step_old _ _ E), IH. symmetry. apply dedup_step_old.
    apply str_in_In in E. apply dedup_from_In in E. destruct E as [[]|E].
    apply str_in_In, dedup_from_In. auto.
  - rewrite (dedup_step_new _ _ E), fold_left_app. simpl. now rewrite IH.
Qed.

Lemma dedup_app l1 l2 : dedup (l1 ++ l2) = fold_left dedup_step l2 (dedup l1).
Proof. unfold dedup. now rewrite fold_left_app. Qed.

Lemma before_cons {A} (a : A) l x y : before l x y -> before (a :: l) x y.
Proof. intros (l1 & l2 & l3 & ->). now exists (a :: l1), l2, l3. Qed.

Lemma before_head {A} (a : A) l y : In y l -> before (a :: l) a y.
Proof.
  intros H. apply in_split in H. destruct H as (l1 & l2 & ->).
  now exists [], l1, l2.
Qed.

Lemma before_map {A B} (f : A -> B) l x y :
  before l x y -> before (map f l) (f x) (f y).
Proof.
  intros (l1 & l2 & l3 & ->). exists (map f l1), (map f l2), (map f l3).
  now rewrite map_app; simpl; rewrite map_app.
Qed.

Lemma SSorted_weaken {A} (P Q : A -> A -> Prop) l :
  StronglySorted P l ->
  (forall x y, In x l -> In y l -> P x y -> Q x y) ->
  StronglySorted Q l.
Proof.
  induction 1 as [|a l S IH F]; intros H; constructor.
  - apply IH. intros x y Hx Hy. apply H; now right.
  - rewrite Forall_forall in *. intros y Hy. apply H; simpl; auto.
Qed.

Lemma SSorted_map {A B} (f : A -> B) (P : A -> A -> Prop) (Q : B -> B -> Prop) l :
  StronglySorted P l ->
  (forall x y, In x l -> In y l -> P x y -> Q (f x) (f y)) ->
  StronglySorted Q (map f l).
Proof.
  induction 1 as [|a l S IH F]; intros H; simpl; constructor.
  - apply IH. intros x y Hx Hy. apply H; now right.
  - rewrite Forall_forall in *. intros y Hy.
    apply in_map_iff in Hy. destruct Hy as (z & <- & Hz).
    apply H; simpl; auto.
Qed.

Lemma SSorted_app_inv {A} (P : A -> A -> Prop) l1 l2 :
  StronglySorted P (l1 ++ l2) ->
  StronglySorted P l1 /\ StronglySorted P l2 /\
  (forall x y, In x l1 -> In y l2 -> P x y).
Proof.
  induction l1 as [|a l1 IH]; simpl; intros H.
  - repeat split; trivial; [constructor|]. intros x y [].
  - inversion H as [|? ? S F]; subst.
    destruct (IH S) as (S1 & S2 & C).
    rewrite Forall_forall in F.
    repeat split; trivial.
    + constructor; trivial. rewrite Forall_forall. intros y Hy.
      apply F, in_app_iff. now left.
    + intros x y [<-|Hx] Hy; [|now apply C].
      apply F, in_app_iff. now right.
Qed.

Lemma NoDup_firstn {A} n (l : list A) : NoDup l -> NoDup (firstn n l).
Proof.
  intros H. rewrite <- (firstn_skipn n l) in H.
  now apply NoDup_app_remove_r in H.
Qed.

End ListFacts.

(** ** Counters *)

Section CounterFacts.

Lemma keys_counter_add k n c :
  map fst (counter_add k n c) = dedup_step (map fst c) k.
Proof.
  induction c as [|[k' m] c IH]; simpl; trivial.
  unfold dedup_step. simpl. unfold str_eqb at 1.
  destruct (str_eq_dec k' k) as [->|N]; simpl.
  - destruct (str_eq_dec k k); [trivial|congruence].
  - destruct (str_eq_dec k k') as [E|_]; [congruence|]. simpl.
    rewrite IH. unfold dedup_step. unfold str_in.
    now destruct (existsb (str_eqb k) (map fst c)).
Qed.

Lemma get_counter_add k n c k' :
  counter_get (counter_add k n c) k' =
  counter_get c k' + (if str_eq_dec k k' then n else 0).
Proof.
  induction c as [|[k0 m] c IH]; simpl.
  - destruct (str_eq_dec k k'); trivial.
  - destruct (str_eq_dec k0 k) as [->|N]; simpl.
    + destruct (str_eq_dec k k'); lia.
    + destruct (str_eq_dec k0 k') as [->|N']; [|apply IH].
      destruct (str_eq_dec k k'); [congruence|lia].
Qed.

Lemma keys_fold_add1 l : forall c,
  map fst (fold_left add1 l c) = fold_left dedup_step l (map fst c).
Proof.
  induction l as [|x l IH]; intros c; simpl; trivial.
  rewrite IH. unfold add1. now rewrite keys_counter_add.
Qed.

Lemma get_fold_add1 l k : forall c,
  counter_get (fold_left add1 l c) k = counter_get c k + count_occ str_eq_dec l k.
Proof.
  induction l as [|x l IH]; intros c; simpl; [lia|].
  rewrite IH. unfold add1. rewrite get_counter_add.
  destruct (str_eq_dec x k); lia.
Qed.

Lemma keys_Counter l : map fst (Counter l) = dedup l.
Proof. apply (keys_fold_add1 l []). Qed.

Lemma get_Counter l k : counter_get (Counter l) k = count_occ str_eq_dec l k.
Proof. apply (get_fold_add1 l k []). Qed.

Lemma keys_Counter_NoDup l : NoDup (map fst (Counter l)).
Proof. rewrite keys_Counter. apply dedup_NoDup. Qed.

(** With distinct keys, the count listed for a key is the one looked up. *)
Lemma counter_get_In c k n :
  NoDup (map fst c) -> In (k, n) c -> counter_get c k = n.
Proof.
  induction c as [|[k' m] c IH]; simpl; intros ND H; [contradiction|].
  inversion ND as [|? ? NI ND']; subst.
  destruct H as [E|H].
  - injection E as -> ->. destruct (str_eq_dec k k); congruence.
  - destruct (str_eq_dec k' k) as [->|_]; [|now apply IH].
    exfalso. apply NI. change k with (fst (k, n)). now apply in_map.
Qed.

Lemma Counter_In l k n :
  In (k, n) (Counter l) -> In k l /\ n = count_occ str_eq_dec l k.
Proof.
  intros H. split.
  - apply dedup_In. rewrite <- keys_Counter.
    change k with (fst (k, n)). now apply in_map.
  - rewrite <- get_Counter. symmetry.
    apply counter_get_In; trivial. apply keys_Counter_NoDup.
Qed.

(** A counter with distinct keys is determined by its keys and counts. *)
Lemma counter_canon c :
  NoDup (map fst c) -> c = map (fun k => (k, counter_get c k)) (map fst c).
Proof.
  induction c as [|[k m] c IH]; simpl; intros ND; trivial.
  inversion ND as [|? ? NI ND']; subst.
  destruct (str_eq_dec k k); [|congruence]. f_equal.
  rewrite (IH ND') at 1. rewrite !map_map. apply map_ext_in.
  intros [k' m'] Hk. simpl.
  destruct (str_eq_dec k k') as [->|_]; trivial.
  exfalso. apply NI. change k' with (fst (k', m')). now apply in_map.
Qed.

Lemma counter_ext c d :
  NoDup (map fst c) -> NoDup (map fst d) -> map fst c = map fst d ->
  (forall k, counter_get c k = counter_get d k) -> c = d.
Proof.
  intros Hc Hd K G. rewrite (counter_canon c Hc), (counter_canon d Hd), K.
  apply map_ext. intros k. now rewrite G.
Qed.

Lemma keys_counter_update o : forall c,
  map fst (counter_update c o) = fold_left dedup_step (map fst o) (map fst c).
Proof.
  unfold counter_update.
  induction o as [|[k n] o IH]; intros c; simpl; trivial.
  now rewrite IH, keys_counter_add.
Qed.

Lemma get_counter_update o k : forall c,
  NoDup (map fst o) ->
  counter_get (counter_update c o) k = counter_get c k + counter_get o k.
Proof.
  unfold counter_update.
  induction o as [|[k' n] o IH]; intros c ND; simpl; [lia|].
  inversion ND as [|? ? NI ND']; subst.
  rewrite (IH _ ND'), get_counter_add.
  destruct (str_eq_dec k' k) as [->|_]; [|lia].
  assert (counter_get o k = 0) as ->; [|lia].
  clear -NI. induction o as [|[k0 m] o IH]; simpl in *; trivial.
  destruct (str_eq_dec k0 k); [tauto|]. apply IH. tauto.
Qed.

(** Updating with the counter of a list is counting its members one by
    one. *)
Lemma counter_update_Counter c l :
  NoDup (map fst c) -> counter_update c (Counter l) = fold_left add1 l c.
Proof.
  intros ND. apply counter_ext.
  - rewrite keys_counter_update. now apply dedup_from_NoDup.
  - rewrite keys_fold_add1. now apply dedup_from_NoDup.
  - rewrite keys_counter_update, keys_fold_add1, keys_Counter.
    apply dedup_from_dedup.
  - intros k. rewrite get_counter_update by apply keys_Counter_NoDup.
    now rewrite get_fold_add1, get_Counter.
Qed.

Lemma fold_add1_NoDup l c : NoDup (map fst c) -> NoDup (map fst (fold_left add1 l c)).
Proof. intros H. rewrite keys_fold_add1. now apply dedup_from_NoDup. Qed.

(** *** The ranking *)

Lemma insert_desc_perm x l : Permutation (insert_desc x l) (x :: l).
Proof.
  induction l as [|y l IH]; simpl; trivial.
  destruct (snd x <? snd y); trivial.
  rewrite IH. apply perm_swap.
Qed.

Lemma sorted_desc_perm c : Permutation (sorted_desc c) c.
Proof.
  induction c as [|a c IH]; simpl; trivial.
  rewrite insert_desc_perm. now constructor.
Qed.

Lemma ranks_before_cons a c x y : ranks_before c x y -> ranks_before (a :: c) x y.
Proof. intros [H|[E B]]; [now left|right]. split; trivial. now apply before_cons. Qed.

Lemma insert_desc_sorted a c l :
  StronglySorted (ranks_before (a :: c)) l ->
  (forall z, In z l -> In z c) ->
  StronglySorted (ranks_before (a :: c)) (insert_desc a l).
Proof.
  induction l as [|y l IH]; intros S Hin; simpl.
  - repeat constructor.
  - inversion S as [|? ? S' F]; subst. rewrite Forall_forall in F.
    destruct (snd a <? snd y) eqn:E.
    + apply Nat.ltb_lt in E. constructor.
      * apply IH; trivial. intros z Hz. apply Hin. now right.
      * rewrite Forall_forall. intros z Hz.
        apply (Permutation_in _ (insert_desc_perm a l)) in Hz.
        destruct Hz as [<-|Hz]; [now left|now apply F].
    + apply Nat.ltb_ge in E. constructor; trivial.
      rewrite Forall_forall. intros z Hz.
      assert (snd z <= snd y) as Hzy.
      { destruct Hz as [<-|Hz]; [lia|].
        destruct (F z Hz) as [L|[L _]]; lia. }
      destruct (Nat.eq_dec (snd z) (snd a)) as [Q|Q].
      * right. split; [lia|]. apply before_head, Hin, Hz.
      * left. lia.
Qed.

(** The sort is stable: it follows [ranks_before]. *)
Lemma sorted_desc_stable c : StronglySorted (ranks_before c) (sorted_desc c).
Proof.
  induction c as [|a c IH]; simpl; [constructor|].
  apply insert_desc_sorted.
  - apply (SSorted_weaken _ _ _ IH). intros x y _ _. apply ranks_before_cons.
  - intros z Hz. apply (Permutation_in _ (sorted_desc_perm c)), Hz.
Qed.

End CounterFacts.

(** ** What the two patterns denote *)

Section Patterns.
Context {R : PyRuntime}.

Lemma star_cls_all p w :
  matches (Star (Cls p)) w -> Forall (fun c => p c = true) w.
Proof.
  intros H. remember (Star (Cls p)) as r eqn:E.
  induction H as [| | | |r w1 w2 M1 _ M2 IH2]; try discriminate; [constructor|].
  injection E as ->. inversion M1; subst. constructor; auto.
Qed.

Lemma at_least_cls p n : forall w,
  matches (AtLeast n (Cls p)) w ->
  n <= length w /\ Forall (fun c => p c = true) w.
Proof.
  induction n as [|n IH]; intros w H; simpl in H.
  - split; [lia|]. now apply star_cls_all.
  - inversion H as [| |? ? w1 w2 M1 M2| |]; subst.
    inversion M1; subst. apply IH in M2. destruct M2 as [L F].
    simpl. split; [lia|]. now constructor.
Qed.

Lemma capitalized_proper w : matches capitalized w -> proper w.
Proof.
  unfold capitalized, Plus. intros H.
  inversion H as [| |? ? w1 w2 M1 M2| |]; subst.
  inversion M1 as [? c Hc| | | |]; subst.
  inversion M2 as [| |? ? w3 w4 M3 M4| |]; subst.
  inversion M3 as [? a Ha| | | |]; subst.
  apply star_cls_all in M4.
  assert (Forall (fun c => is_alnum c = true) ([a] ++ w4)) as F by now constructor.
  destruct (exists_last (l := [a] ++ w4)) as (m & d & E); [discriminate|].
  rewrite E in *. apply Forall_app in F. destruct F as [_ F].
  inversion F; subst. now exists c, m, d.
Qed.

Lemma proper_app_r u w : proper w -> exists m d, u ++ w = m ++ [d] /\ is_alnum d = true.
Proof.
  intros (c & m & d & -> & _ & Hd). exists (u ++ c :: m), d.
  split; trivial. now rewrite <- app_assoc.
Qed.

Lemma more_words_end w :
  matches (Star (Cat (Plus (Cls is_space)) capitalized)) w ->
  w = [] \/ exists m d, w = m ++ [d] /\ is_alnum d = true.
Proof.
  intros H. remember (Star (Cat (Plus (Cls is_space)) capitalized)) as r eqn:E.
  induction H as [| | | |r w1 w2 M1 _ M2 IH2]; try discriminate; [now left|].
  injection E as ->. right.
  inversion M1 as [| |? ? u v Mu Mv| |]; subst.
  apply capitalized_proper in Mv.
  destruct (IH2 eq_refl) as [->|(m & d & -> & Hd)].
  - rewrite app_nil_r. now apply proper_app_r.
  - exists ((u ++ v) ++ m), d. split; trivial. now rewrite <- !app_assoc.
Qed.

Lemma entity_re_proper w : matches entity_re w -> proper w.
Proof.
  unfold entity_re. intros H.
  inversion H as [| |? ? w1 w2 M1 M2| |]; subst. inversion M1; subst.
  inversion M2 as [| |? ? w3 w4 M3 M4| |]; subst. inversion M4; subst.
  inversion M3 as [| |? ? u v Mu Mv| |]; subst.
  apply capitalized_proper in Mu. apply more_words_end in Mv.
  simpl. rewrite app_nil_r.
  destruct Mv as [->|(m & d & -> & Hd)]; [now rewrite app_nil_r|].
  destruct Mu as (c & m' & d' & -> & Hc & _).
  exists c, (m' ++ [d'] ++ m), d. repeat split; trivial.
  simpl. now rewrite <- !app_assoc.
Qed.

Lemma proper_strip w : proper w -> strip w = w.
Proof.
  intros (c & m & d & -> & Hc & Hd). apply strip_id.
  - now apply alnum_not_space, upper_alnum.
  - now apply alnum_not_space.
Qed.

Lemma topic_re_word w :
  matches topic_re w -> 5 <= length w /\ Forall (fun c => is_alpha c = true) w.
Proof.
  unfold topic_re. intros H.
  inversion H as [| |? ? w1 w2 M1 M2| |]; subst. inversion M1; subst.
  inversion M2 as [| |? ? w3 w4 M3 M4| |]; subst. inversion M4; subst.
  simpl. rewrite app_nil_r. now apply at_least_cls.
Qed.

(** Neither pattern matches the empty string, so [findall] never meets an
    empty match. *)
Lemma candidates_nonempty text w :
  In w (findall entity_re text) \/ In w (findall topic_re text) -> w <> [].
Proof.
  intros [H|H]; apply findall_sound in H; destruct H as [M _].
  - apply entity_re_proper in M. destruct M as (c & m & d & -> & _). discriminate.
  - apply topic_re_word in M. destruct M as [L _]. intros ->. simpl in L. lia.
Qed.

Lemma lower_at_no_upper t i c d :
  uni_lower_ok R -> In d (lower_at t i c) -> is_upper d = false.
Proof.
  intros OK. unfold lower_at. destruct (c <? 128)%N; [|apply OK].
  intros [<-|[]]. destruct (is_upper c) eqn:E; trivial. nbool.
Qed.

Lemma lower_no_upper t d : uni_lower_ok R -> In d (lower t) -> is_upper d = false.
Proof.
  intros OK. unfold lower. generalize 0. generalize t at 2.
  intros s. induction s as [|c s IH]; intros i; simpl; [contradiction|].
  rewrite in_app_iff. intros [H|H]; [now apply lower_at_no_upper in H|].
  now apply IH in H.
Qed.

(** The counted words are lowercase words of five letters or more that
    are no stop words. *)
Lemma topic_words_shape text w :
  uni_lower_ok R -> In w (topic_words text) ->
  5 <= length w /\ Forall (fun c => is_lower c = true) w /\ ~ In w topic_stop.
Proof.
  intros OK H. unfold topic_words in H. apply filter_In in H.
  destruct H as [H S]. apply negb_true_iff, str_in_false in S.
  apply findall_sound in H. destruct H as (M & s1 & s2 & E).
  apply topic_re_word in M. destruct M as [L F].
  repeat split; trivial.
  rewrite Forall_forall in *. intros c Hc.
  assert (is_upper c = false) as U.
  { apply (lower_no_upper text); trivial. rewrite E, !in_app_iff. auto. }
  specialize (F c Hc). unfold is_alpha in F. rewrite U in F. exact F.
Qed.

End Patterns.

(** ** The term extractors *)

Section TermExtractor.
Context {R : PyRuntime}.

Lemma ranks_outranks occ x y :
  In x (Counter occ) -> In y (Counter occ) ->
  ranks_before (Counter occ) x y -> outranks occ (fst x) (fst y).
Proof.
  destruct x as [a n], y as [b m]. intros Hx Hy H.
  apply Counter_In in Hx, Hy. destruct Hx as [_ ->], Hy as [_ ->].
  destruct H as [H|[E B]]; [now left|right]. split; trivial.
  rewrite <- keys_Counter. now apply (before_map fst) in B.
Qed.

(** [most_common] lists the best-ranked keys of a counter. *)
Lemma most_common_top_ranked n occ : top_ranked n occ (most_common n (Counter occ)).
Proof.
  unfold most_common, top_ranked. set (c := Counter occ). set (srt := sorted_desc c).
  assert (Permutation srt c) as P by apply sorted_desc_perm.
  assert (StronglySorted (ranks_before c) srt) as S by apply sorted_desc_stable.
  rewrite <- (firstn_skipn n srt) in S. apply SSorted_app_inv in S.
  destruct S as (S1 & _ & Cross).
  assert (forall x, In x (firstn n srt) -> In x c) as In1.
  { intros x Hx. apply (Permutation_in _ P).
    rewrite <- (firstn_skipn n srt). apply in_app_iff. now left. }
  split; [|split; [|split; [|split]]].
  - rewrite length_firstn, (Permutation_length P), <- (length_map fst c).
    unfold c. now rewrite keys_Counter.
  - rewrite <- firstn_map. apply NoDup_firstn.
    apply (Permutation_NoDup (l := map fst c)); [|apply keys_Counter_NoDup].
    symmetry. now apply Permutation_map.
  - apply Forall_forall. intros [a m] Hx. apply In1, Counter_In in Hx. exact Hx.
  - apply (SSorted_map fst (ranks_before c)); trivial.
    intros x y Hx Hy. apply ranks_outranks; now apply In1.
  - intros a b Ha Hb Nb.
    apply in_map_iff in Ha. destruct Ha as (x & <- & Hx).
    apply dedup_In in Hb. rewrite <- keys_Counter in Hb.
    apply in_map_iff in Hb. destruct Hb as (y & <- & Hy).
    apply (ranks_outranks occ x y); [now apply In1|trivial|].
    apply Cross; trivial.
    apply (Permutation_in _ (Permutation_sym P)) in Hy.
    rewrite <- (firstn_skipn n srt) in Hy. apply in_app_iff in Hy.
    destruct Hy as [Hy|Hy]; trivial.
    exfalso. apply Nb. now apply in_map.
Qed.

Lemma find_topics_top_ranked text n :
  top_ranked n (topic_words text) (most_common n (Counter (topic_words text))) /\
  find_topics text n = map fst (most_common n (Counter (topic_words text))).
Proof. split; [apply most_common_top_ranked|reflexivity]. Qed.

Lemma find_topics_NoDup text n : NoDup (find_topics text n).
Proof.
  destruct (find_topics_top_ranked text n) as ((_ & ND & _) & ->). exact ND.
Qed.

(** C7. Whatever the text, every phrase [find_entities] returns is at
    least three characters long and is none of the nine stop words
    The, This, That, And, For, With, From, Project, Customer, compared
    exactly. *)
Theorem find_entities_phrases (text : str) :
  Forall (fun p => 3 <= length p /\ ~ In p entity_stop) (find_entities text) /\
  entity_stop =
    map lit ["The"; "This"; "That"; "And"; "For"; "With"; "From"; "Project";
             "Customer"]%string.
Proof.
  split; [|reflexivity].
  apply Forall_forall. intros p H. unfold find_entities in H.
  apply in_map_iff in H. destruct H as (c & <- & H).
  apply filter_In in H. destruct H as [H C].
  apply andb_true_iff in C. destruct C as [S L].
  apply negb_true_iff, str_in_false in S. apply Nat.ltb_lt in L.
  apply findall_sound in H. destruct H as [M _].
  rewrite (proper_strip c (entity_re_proper c M)). split; [lia|exact S].
Qed.

(** C8. Whatever the text, [find_topics] returns at most [top_n] words
    (ten by default), all distinct; each is made of five or more
    lowercase letters and is none of the seven stop words; they come by
    descending number of occurrences among the counted words, the word
    met first coming first among equals; and no counted word left out
    ranks above a returned one. *)
Theorem find_topics_ranked (text : str) (top_n : nat) :
  uni_lower_ok R ->
  let ws := find_topics text top_n in
  length ws <= top_n /\ NoDup ws /\
  Forall (fun w => 5 <= length w /\ Forall (fun c => is_lower c = true) w /\
                   ~ In w topic_stop) ws /\
  StronglySorted (outranks (topic_words text)) ws /\
  (forall a b, In a ws -> In b (topic_words text) -> ~ In b ws ->
               outranks (topic_words text) a b) /\
  default_top_n = 10 /\
  topic_stop =
    map lit ["project"; "requirements"; "system"; "solution"; "cloud"; "customer";
             "service"]%string.
Proof.
  intros OK ws.
  destruct (find_topics_top_ranked text top_n) as ((L & ND & F & S & Top) & E).
  subst ws. rewrite E.
  split; [|split; [|split; [|split; [|split; [|split]]]]]; trivial.
  - rewrite length_map, L. apply Nat.le_min_l.
  - apply Forall_forall. intros w Hw.
    apply (topic_words_shape text); trivial.
    apply in_map_iff in Hw. destruct Hw as (kn & <- & Hk).
    rewrite Forall_forall in F. now apply F.
Qed.

End TermExtractor.

(** ** Dictionaries and the state *)

Section StateFacts.

Lemma keys_dict_set {V} k (v : V) d :
  dict_keys (dict_set k v d) = dedup_step (dict_keys d) k.
Proof.
  unfold dict_keys.
  induction d as [|[k' v'] d IH]; simpl; trivial.
  unfold dedup_step. simpl. unfold str_eqb at 1.
  destruct (str_eq_dec k' k) as [->|N]; simpl.
  - destruct (str_eq_dec k k); [trivial|congruence].
  - destruct (str_eq_dec k k') as [E|_]; [congruence|]. simpl.
    rewrite IH. unfold dedup_step, str_in.
    now destruct (existsb (str_eqb k) (map fst d)).
Qed.

Lemma dict_set_In {V} k (v : V) d kv :
  In kv (dict_set k v d) -> kv = (k, v) \/ In kv d.
Proof.
  induction d as [|[k' v'] d IH]; simpl.
  - intros [<-|[]]. now left.
  - destruct (str_eq_dec k' k) as [->|N]; simpl.
    + intros [<-|H]; auto.
    + intros [<-|H]; auto. destruct (IH H); auto.
Qed.

Lemma dict_set_has {V} k (v : V) d : In (k, v) (dict_set k v d).
Proof.
  induction d as [|[k' v'] d IH]; simpl; auto.
  destruct (str_eq_dec k' k) as [->|N]; simpl; auto.
Qed.

Lemma dict_set_keep {V} k (v : V) d k' v' :
  In (k', v') d -> k' <> k -> In (k', v') (dict_set k v d).
Proof.
  intros H N. induction d as [|[k0 v0] d IH]; simpl in *; [contradiction|].
  destruct (str_eq_dec k0 k) as [->|N0]; simpl.
  - destruct H as [E|H]; [congruence|auto].
  - destruct H as [E|H]; auto.
Qed.

Lemma dict_set_Forall {V} (P : str * V -> Prop) k v d :
  Forall P d -> P (k, v) -> Forall P (dict_set k v d).
Proof.
  intros F H. rewrite Forall_forall in *. intros kv Hkv.
  apply dict_set_In in Hkv. destruct Hkv as [->|Hkv]; auto.
Qed.

Lemma dict_set_NoDup {V} k (v : V) d :
  NoDup (dict_keys d) -> NoDup (dict_keys (dict_set k v d)).
Proof. intros H. rewrite keys_dict_set. now apply dedup_step_NoDup. Qed.

Lemma dict_set_keys_In {V} k (v : V) d k' :
  In k' (dict_keys (dict_set k v d)) <-> In k' (dict_keys d) \/ k' = k.
Proof. rewrite keys_dict_set. apply dedup_step_In. Qed.

Lemma dict_mem_In {V} k (d : dict V) : dict_mem k d = true <-> In k (dict_keys d).
Proof. apply str_in_In. Qed.

(** With distinct keys a dictionary holds one value per key. *)
Lemma dict_functional {V} (d : dict V) k v v' :
  NoDup (dict_keys d) -> In (k, v) d -> In (k, v') d -> v = v'.
Proof.
  unfold dict_keys. induction d as [|[k0 v0] d IH]; simpl; intros ND H H'; [contradiction|].
  inversion ND as [|? ? NI ND']; subst.
  destruct H as [E|H], H' as [E'|H'].
  - congruence.
  - injection E as -> ->. exfalso. apply NI.
    change k with (fst (k, v')). now apply in_map.
  - injection E' as -> ->. exfalso. apply NI.
    change k with (fst (k, v)). now apply in_map.
  - now apply IH.
Qed.

Lemma get_put_same ty d ns : get_nodes ty (put_nodes ty d ns) = d.
Proof. now destruct ty. Qed.

Lemma get_put_other ty ty' d ns :
  ty <> ty' -> get_nodes ty' (put_nodes ty d ns) = get_nodes ty' ns.
Proof. destruct ty, ty'; simpl; congruence. Qed.

Lemma node_type_eq_dec (a b : node_type) : {a = b} + {a <> b}.
Proof. decide equality. Qed.

Lemma keys_le_refl ns : keys_le ns ns.
Proof. intros ty k H. exact H. Qed.

Lemma keys_le_trans a b c : keys_le a b -> keys_le b c -> keys_le a c.
Proof. intros H1 H2 ty k H. apply H2, H1, H. Qed.

Lemma put_set_keys_le ty k nd ns :
  keys_le ns (put_nodes ty (dict_set k nd (get_nodes ty ns)) ns).
Proof.
  intros ty' k' H. destruct (node_type_eq_dec ty ty') as [<-|N].
  - rewrite get_put_same. apply dict_set_keys_In. now left.
  - now rewrite get_put_other.
Qed.

Lemma put_set_store_ok ty k nd ns :
  store_ok ns -> node_ok ty (k, nd) ->
  store_ok (put_nodes ty (dict_set k nd (get_nodes ty ns)) ns).
Proof.
  intros OK H ty'. destruct (node_type_eq_dec ty ty') as [<-|N].
  - rewrite get_put_same. destruct (OK ty) as [ND F]. split.
    + now apply dict_set_NoDup.
    + now apply dict_set_Forall.
  - rewrite get_put_other by trivial. apply OK.
Qed.

Lemma endpoints_in_le ns ns' e : keys_le ns ns' -> endpoints_in ns e -> endpoints_in ns' e.
Proof.
  intros L. unfold endpoints_in.
  pose proof (L file) as Lf. pose proof (L entity) as Le. pose proof (L topic) as Lt.
  simpl in *. destruct (e_type e); intros [H1 H2]; split; auto.
Qed.

(** Effect of the primitives on the fields. *)

Lemma ensure_node_nodes ty id nd st :
  keys_le (nodes st) (nodes (ensure_node ty id nd st)) /\
  In id (dict_keys (get_nodes ty (nodes (ensure_node ty id nd st)))) /\
  (store_ok (nodes st) -> node_ok ty (id, nd) ->
   store_ok (nodes (ensure_node ty id nd st))).
Proof.
  unfold ensure_node. destruct (dict_mem id (get_nodes ty (nodes st))) eqn:E.
  - apply dict_mem_In in E. split; [apply keys_le_refl|split; trivial].
  - simpl. split; [|split].
    + apply put_set_keys_le.
    + rewrite get_put_same. apply dict_set_keys_In. now right.
    + apply put_set_store_ok.
Qed.

Lemma ensure_node_rest ty id nd st :
  edges (ensure_node ty id nd st) = edges st /\
  created (ensure_node ty id nd st) = created st /\
  entity_global_counts (ensure_node ty id nd st) = entity_global_counts st /\
  topic_global_counts (ensure_node ty id nd st) = topic_global_counts st /\
  file_texts (ensure_node ty id nd st) = file_texts st.
Proof.
  unfold ensure_node. now destruct (dict_mem id (get_nodes ty (nodes st))).
Qed.

Lemma append_edges_nil st : append_edges [] st = st.
Proof. destruct st. unfold append_edges. simpl. now rewrite !app_nil_r. Qed.

Lemma append_edges_cons e es st :
  append_edges (e :: es) st = append_edges es (append_edge e st).
Proof. unfold append_edges, append_edge. simpl. now rewrite <- !app_assoc. Qed.

Lemma fold_append_edges {A} (mk : A -> edge) l : forall st,
  fold_left (fun st x => append_edge (mk x) st) l st = append_edges (map mk l) st.
Proof.
  induction l as [|x l IH]; intros st; simpl.
  - now rewrite append_edges_nil.
  - now rewrite IH, append_edges_cons.
Qed.

Lemma append_edges_app es es' st :
  append_edges es' (append_edges es st) = append_edges (es ++ es') st.
Proof.
  unfold append_edges. simpl. now rewrite map_app, !app_assoc.
Qed.

Lemma fold_fold_append_edges {A B} (mk : A -> B -> edge) (inner : A -> list B) l :
  forall st,
    fold_left (fun st x => fold_left (fun st y => append_edge (mk x y) st) (inner x) st)
      l st
    = append_edges (flat_map (fun x => map (mk x) (inner x)) l) st.
Proof.
  induction l as [|x l IH]; intros st; simpl.
  - now rewrite append_edges_nil.
  - now rewrite IH, fold_append_edges, append_edges_app.
Qed.

End StateFacts.

(** ** The first pass *)

Section FirstPass.
Context {R : PyRuntime}.

Lemma contain_fields ty ety mk fid items : forall st,
  let st' := fold_left (contain ty ety mk fid) items st in
  edges st' = edges st ++ map (contain_edge ety mk fid) items /\
  entity_global_counts st' = entity_global_counts st /\
  topic_global_counts st' = topic_global_counts st /\
  file_texts st' = file_texts st.
Proof.
  induction items as [|[t n] items IH]; intros st; cbn [fold_left map]; cbv zeta.
  - now rewrite app_nil_r.
  - destruct (IH (contain ty ety mk fid st (t, n))) as (E & G1 & G2 & T).
    rewrite E, G1, G2, T. unfold contain. simpl.
    destruct (ensure_node_rest ty (mk t)
                {| n_id := mk t; n_type := ty; n_name := t; n_path := None |} st)
      as (-> & _ & -> & -> & ->).
    rewrite <- app_assoc. repeat split.
Qed.

Lemma contain_inv ty ety mk fid item st :
  kind_ok ty ety mk -> store_ok (nodes st) -> log_ok st ->
  In fid (dict_keys (file_nodes (nodes st))) ->
  let st' := contain ty ety mk fid st item in
  store_ok (nodes st') /\ log_ok st' /\ keys_le (nodes st) (nodes st') /\
  In (mk (fst item)) (dict_keys (get_nodes ty (nodes st'))).
Proof.
  intros K OK [LE LF] Hf. destruct item as [t n]. unfold contain. simpl.
  set (nd := {| n_id := mk t; n_type := ty; n_name := t; n_path := None |}).
  destruct (ensure_node_nodes ty (mk t) nd st) as (L & I & S).
  destruct (ensure_node_rest ty (mk t) nd st) as (E & C & _).
  assert (node_ok ty (mk t, nd)) as NK.
  { destruct K as [(-> & _ & ->)|(-> & _ & ->)]; repeat split. }
  split; [now apply S|split; [split|split; trivial]].
  - simpl. rewrite map_app, C, E. simpl. now rewrite LE.
  - simpl. rewrite C. apply Forall_app. split; trivial.
    repeat constructor. simpl. unfold endpoints_in. simpl.
    apply (L file) in Hf.
    destruct K as [(-> & -> & ->)|(-> & -> & ->)]; simpl; split; trivial.
Qed.

Lemma contain_fold_inv ty ety mk fid items : forall st,
  kind_ok ty ety mk -> store_ok (nodes st) -> log_ok st ->
  In fid (dict_keys (file_nodes (nodes st))) ->
  let st' := fold_left (contain ty ety mk fid) items st in
  store_ok (nodes st') /\ log_ok st' /\ keys_le (nodes st) (nodes st') /\
  (forall item, In item items ->
                In (mk (fst item)) (dict_keys (get_nodes ty (nodes st')))).
Proof.
  induction items as [|item items IH]; intros st K OK LG Hf; simpl.
  - split; [|split; [|split]]; trivial.
    + apply keys_le_refl.
    + intros item [].
  - destruct (contain_inv ty ety mk fid item st K OK LG Hf) as (OK1 & LG1 & L1 & I1).
    destruct (IH _ K OK1 LG1 (L1 file _ Hf)) as (OK2 & LG2 & L2 & I2).
    split; [|split; [|split]]; trivial.
    + eapply keys_le_trans; eauto.
    + intros it [<-|H]; [now apply L2|now apply I2].
Qed.

Lemma collect_blank st f path text : strip text = [] -> collect st f path text = st.
Proof. intros H. unfold collect. now rewrite H. Qed.

Lemma collect_fields st f path text :
  strip text <> [] ->
  let st' := collect st f path text in
  edges st' =
    edges st
    ++ map (contain_edge FILE_CONTAINS_ENTITY ent_id_of (file_id_of path))
         (Counter (find_entities text))
    ++ map (contain_edge FILE_CONTAINS_TOPIC top_id_of (file_id_of path))
         (Counter (find_topics text default_top_n)) /\
  entity_global_counts st' =
    counter_update (entity_global_counts st) (Counter (find_entities text)) /\
  topic_global_counts st' =
    counter_update (topic_global_counts st) (Counter (find_topics text default_top_n)) /\
  file_texts st' = dict_set (file_id_of path) text (file_texts st).
Proof.
  intros NB. unfold collect. destruct (strip text) as [|c s]; [congruence|]. clear NB.
  cbv zeta.
  match goal with
  | |- context [fold_left ?f2 ?i2 (fold_left ?f1 ?i1 ?s0)] =>
      destruct (contain_fields topic FILE_CONTAINS_TOPIC top_id_of (file_id_of path)
                  i2 (fold_left f1 i1 s0)) as (E2 & G2 & H2 & T2);
      destruct (contain_fields entity FILE_CONTAINS_ENTITY ent_id_of (file_id_of path)
                  i1 s0) as (E1 & G1 & H1 & T1)
  end.
  rewrite E2, G2, H2, T2, E1, G1, H1, T1. simpl.
  now rewrite <- app_assoc.
Qed.

Lemma collect_inv st f path text :
  store_ok (nodes st) -> log_ok st -> covered st ->
  let st' := collect st f path text in
  store_ok (nodes st') /\ log_ok st' /\ covered st' /\ keys_le (nodes st) (nodes st').
Proof.
  intros OK LG CV. simpl.
  destruct (strip text) as [|c s] eqn:B.
  { rewrite collect_blank by trivial.
    split; [|split; [|split]]; trivial. apply keys_le_refl. }
  assert (strip text <> []) as NB by congruence.
  destruct (collect_fields st f path text NB) as (_ & _ & _ & T).
  unfold collect in *. rewrite B in *. cbv zeta in *.
  set (fid := file_id_of path) in *.
  set (fnode := {| n_id := fid; n_type := file; n_name := f; n_path := Some path |}) in *.
  set (st1 := update_globals _ _ (set_file_text fid text (set_node file fid fnode st))) in *.
  assert (store_ok (nodes st1)) as OK1.
  { simpl. apply (put_set_store_ok file); trivial.
    repeat split. exists path. now split. }
  assert (keys_le (nodes st) (nodes st1)) as L1 by apply (put_set_keys_le file).
  assert (log_ok st1) as LG1 by exact LG.
  assert (In fid (dict_keys (file_nodes (nodes st1)))) as F1.
  { simpl. apply dict_set_keys_In. now right. }
  destruct (contain_fold_inv entity FILE_CONTAINS_ENTITY ent_id_of fid
              (Counter (find_entities text)) st1) as (OK2 & LG2 & L2 & I2); trivial.
  { left. repeat split. }
  set (st2 := fold_left _ (Counter (find_entities text)) st1) in *.
  destruct (contain_fold_inv topic FILE_CONTAINS_TOPIC top_id_of fid
              (Counter (find_topics text default_top_n)) st2) as (OK3 & LG3 & L3 & I3);
    trivial.
  { right. repeat split. }
  { now apply (L2 file). }
  set (st3 := fold_left _ (Counter (find_topics text default_top_n)) st2) in *.
  assert (keys_le (nodes st) (nodes st3)) as L.
  { eapply keys_le_trans; [exact L1|]. eapply keys_le_trans; eauto. }
  split; [|split; [|split]]; trivial.
  intros fid' text' H. rewrite T in H. apply dict_set_In in H.
  destruct H as [E|H].
  - injection E as -> ->. split; [|split].
    + apply (L3 file), (L2 file), F1.
    + intros e He. apply (L3 entity).
      assert (In e (map fst (Counter (find_entities text)))) as Hk
        by (rewrite keys_Counter; now apply dedup_In).
      apply in_map_iff in Hk. destruct Hk as (item & <- & Hi). now apply I2.
    + intros t Ht.
      assert (In t (map fst (Counter (find_topics text default_top_n)))) as Hk
        by (rewrite keys_Counter; now apply dedup_In).
      apply in_map_iff in Hk. destruct Hk as (item & <- & Hi). now apply I3.
  - destruct (CV _ _ H) as (A & B1 & C1). split; [|split].
    + now apply (L file).
    + intros e He. now apply (L entity), B1.
    + intros t Ht. now apply (L topic), C1.
Qed.

(** The two nested loops visit the walked files in order. *)
Lemma first_pass_visit src : first_pass src = fold_left (visit src) (walked src) init.
Proof.
  unfold first_pass, walked. generalize init.
  induction (walk src) as [|[root files] dirs IH]; intros st; simpl; trivial.
  rewrite fold_left_app, IH. f_equal.
  clear. revert st. induction files as [|f files IH]; intros st; simpl; trivial.
Qed.

End FirstPass.

(** ** Closed forms of the two passes *)

Section ClosedForms.
Context {R : PyRuntime}.

Lemma file_id_inj p q : file_id_of p = file_id_of q -> p = q.
Proof. apply app_inv_head. Qed.

Lemma ent_id_inj a b : ent_id_of a = ent_id_of b -> a = b.
Proof. apply app_inv_head. Qed.

Lemma top_id_inj a b : top_id_of a = top_id_of b -> a = b.
Proof. apply app_inv_head. Qed.

Lemma is_blank_strip text : is_blank text = true <-> strip text = [].
Proof. unfold is_blank. destruct (strip text); split; congruence. Qed.

Lemma visits_fields src l : forall st,
  NoDup (map fst (entity_global_counts st)) ->
  NoDup (map fst (topic_global_counts st)) ->
  let reg := filter (fun fp => negb (is_blank (extract_text src (snd fp)))) l in
  let st' := fold_left (visit src) l st in
  edges st' = edges st ++ flat_map (fun fp => containment src (snd fp)) reg /\
  entity_global_counts st' =
    fold_left add1 (flat_map (fun fp => entities_of src (snd fp)) reg)
      (entity_global_counts st) /\
  topic_global_counts st' =
    fold_left add1 (flat_map (fun fp => topics_of src (snd fp)) reg)
      (topic_global_counts st) /\
  file_texts st' =
    fold_left (fun d fp => dict_set (fst (kept src fp)) (snd (kept src fp)) d) reg
      (file_texts st).
Proof.
  induction l as [|fp l IH]; intros st N1 N2; cbn [fold_left filter]; cbv zeta.
  - simpl. now rewrite app_nil_r.
  - destruct (is_blank (extract_text src (snd fp))) eqn:B; cbn [negb].
    + apply is_blank_strip in B. unfold visit at 2 4 6 8.
      rewrite collect_blank by trivial. now apply IH.
    + assert (strip (extract_text src (snd fp)) <> []) as NB.
      { intros E. apply is_blank_strip in E. congruence. }
      destruct (collect_fields st (fst fp) (snd fp) _ NB) as (E & G1 & G2 & T).
      fold (visit src st fp) in E, G1, G2, T.
      rewrite counter_update_Counter in G1, G2 by trivial.
      destruct (IH (visit src st fp)) as (E' & G1' & G2' & T').
      { rewrite G1. now apply fold_add1_NoDup. }
      { rewrite G2. now apply fold_add1_NoDup. }
      rewrite E', G1', G2', T', E, G1, G2, T.
      cbn [flat_map fold_left]. rewrite !fold_left_app.
      unfold containment, entities_of, topics_of. rewrite <- !app_assoc.
      repeat split.
Qed.

Lemma first_pass_fields src :
  let st := first_pass src in
  edges st = flat_map (fun fp => containment src (snd fp)) (registered src) /\
  entity_global_counts st =
    Counter (flat_map (fun fp => entities_of src (snd fp)) (registered src)) /\
  topic_global_counts st =
    Counter (flat_map (fun fp => topics_of src (snd fp)) (registered src)) /\
  file_texts st =
    fold_left (fun d fp => dict_set (fst (kept src fp)) (snd (kept src fp)) d)
      (registered src) [].
Proof.
  cbv zeta. rewrite first_pass_visit.
  destruct (visits_fields src (walked src) init (NoDup_nil _) (NoDup_nil _))
    as (E & G1 & G2 & T).
  rewrite E, G1, G2, T. repeat split.
Qed.

Lemma visits_inv src l : forall st,
  store_ok (nodes st) -> log_ok st -> covered st ->
  let st' := fold_left (visit src) l st in
  store_ok (nodes st') /\ log_ok st' /\ covered st'.
Proof.
  induction l as [|fp l IH]; intros st OK LG CV; simpl; auto.
  destruct (collect_inv st (fst fp) (snd fp) (extract_text src (snd fp)) OK LG CV)
    as (OK1 & LG1 & CV1 & _).
  now apply IH.
Qed.

Lemma first_pass_inv src :
  store_ok (nodes (first_pass src)) /\ log_ok (first_pass src) /\
  covered (first_pass src).
Proof.
  rewrite first_pass_visit. apply visits_inv.
  - intros ty. destruct ty; split; constructor.
  - split; constructor.
  - intros fid text [].
Qed.

(** A dictionary filled from pairs that agree on their keys holds exactly
    those pairs. *)
Lemma fold_dict_set_In {A V} (g : A -> str * V) l : forall d,
  (forall k v v', In (k, v) (d ++ map g l) -> In (k, v') (d ++ map g l) -> v = v') ->
  forall k v,
    In (k, v) (fold_left (fun d x => dict_set (fst (g x)) (snd (g x)) d) l d)
    <-> In (k, v) (d ++ map g l).
Proof.
  induction l as [|x l IH]; intros d F k v; simpl.
  - now rewrite app_nil_r.
  - simpl in F. revert F. destruct (g x) as [k0 v0] eqn:G. intros F. simpl in *.
    assert (forall kv, In kv (dict_set k0 v0 d ++ map g l) ->
                       In kv (d ++ (k0, v0) :: map g l)) as Sub.
    { intros kv H. apply in_app_iff in H. apply in_app_iff.
      destruct H as [H|H]; [|simpl; auto].
      apply dict_set_In in H. destruct H as [->|H]; simpl; auto. }
    rewrite IH.
    + split; [apply Sub|]. intros H. apply in_app_iff.
      apply in_app_iff in H. destruct H as [H|[H|H]]; auto.
      * left. destruct (str_eq_dec k k0) as [->|N].
        -- assert (v = v0) as ->; [|apply dict_set_has].
           apply (F k0); apply in_app_iff; simpl; auto.
        -- now apply dict_set_keep.
      * injection H as <- <-. left. apply dict_set_has.
    + intros k1 v1 v1' H1 H2. apply (F k1); now apply Sub.
Qed.

Lemma kept_functional src l k v v' :
  In (k, v) (map (kept src) l) -> In (k, v') (map (kept src) l) -> v = v'.
Proof.
  intros H H'. apply in_map_iff in H, H'.
  destruct H as (fp & E & _), H' as (fp' & E' & _).
  unfold kept in *. injection E as <- <-. injection E' as E' <-.
  now rewrite E'.
Qed.

(** The dictionary of texts holds one entry per registered path. *)
Lemma file_texts_spec src :
  NoDup (dict_keys (file_texts (first_pass src))) /\
  (forall fid text,
      In (fid, text) (file_texts (first_pass src)) <->
      In (fid, text) (map (kept src) (registered src))).
Proof.
  destruct (first_pass_fields src) as (_ & _ & _ & T). rewrite T. clear T. split.
  - assert (NoDup (dict_keys (@nil (str * str)))) as ND by constructor.
    revert ND. generalize (@nil (str * str)).
    induction (registered src) as [|fp l IH]; intros d ND; simpl; trivial.
    apply IH. now apply dict_set_NoDup.
  - intros fid text. rewrite fold_dict_set_In; [reflexivity|].
    simpl. apply kept_functional.
Qed.

Lemma cooccur_closed st item : cooccur st item = append_edges (cooccurrence item) st.
Proof.
  destruct item as [fid text]. unfold cooccur, cooccurrence, entity_pairs,
    entity_topic_pairs, related_edge. cbv zeta. simpl fst. simpl snd.
  rewrite (fold_fold_append_edges
             (fun i j =>
                {| e_type := ENTITY_RELATED_TO_ENTITY;
                   e_from := ent_id_of (nth i (set_iter (find_entities text)) []);
                   e_to := ent_id_of (nth j (set_iter (find_entities text)) []);
                   e_attr := from_file fid |})).
  rewrite (fold_fold_append_edges
             (fun e t =>
                {| e_type := ENTITY_RELATED_TO_TOPIC; e_from := ent_id_of e;
                   e_to := top_id_of t; e_attr := from_file fid |})).
  apply append_edges_app.
Qed.

Lemma cooccur_fold items : forall st,
  fold_left cooccur items st = append_edges (flat_map cooccurrence items) st.
Proof.
  induction items as [|item items IH]; intros st; simpl.
  - now rewrite append_edges_nil.
  - now rewrite IH, cooccur_closed, append_edges_app.
Qed.

(** The graph once built: the second pass appends the co-occurrence edges
    of each kept text and touches nothing else. *)
Lemma build_closed src :
  build src =
  append_edges (flat_map cooccurrence (file_texts (first_pass src))) (first_pass src).
Proof. unfold build, second_pass. apply cooccur_fold. Qed.

Lemma build_edges src :
  edges (build src) =
  flat_map (fun fp => containment src (snd fp)) (registered src)
  ++ flat_map cooccurrence (file_texts (first_pass src)).
Proof.
  rewrite build_closed. simpl.
  destruct (first_pass_fields src) as (E & _). now rewrite E.
Qed.

End ClosedForms.

(** ** The edges of the built graph *)

Section EdgeFacts.
Context {R : PyRuntime}.

Lemma filter_nil {A} (f : A -> bool) l :
  (forall x, In x l -> f x = false) -> filter f l = [].
Proof.
  induction l as [|x l IH]; simpl; intros H; trivial.
  rewrite (H x) by auto. apply IH. auto.
Qed.

Lemma filter_all {A} (f : A -> bool) l :
  (forall x, In x l -> f x = true) -> filter f l = l.
Proof.
  induction l as [|x l IH]; simpl; intros H; trivial.
  rewrite (H x) by auto. f_equal. apply IH. auto.
Qed.

Lemma filter_flat_map_nil {A B} (f : B -> bool) (g : A -> list B) l :
  (forall x y, In x l -> In y (g x) -> f y = false) -> filter f (flat_map g l) = [].
Proof.
  intros H. apply filter_nil. intros y Hy.
  apply in_flat_map in Hy. destruct Hy as (x & Hx & Hy). eauto.
Qed.

Lemma filter_map_comm {A B} (f : B -> bool) (g : A -> B) l :
  filter f (map g l) = map g (filter (fun x => f (g x)) l).
Proof.
  induction l as [|x l IH]; simpl; trivial.
  destruct (f (g x)); simpl; now rewrite IH.
Qed.

Lemma filter_key (c : counter) k n :
  NoDup (map fst c) -> In (k, n) c ->
  filter (fun it => str_eqb (fst it) k) c = [(k, n)].
Proof.
  induction c as [|[k' m] c IH]; simpl; intros ND H; [contradiction|].
  inversion ND as [|? ? NI ND']; subst.
  destruct H as [E|H].
  - injection E as -> ->. rewrite str_eqb_refl. f_equal.
    apply filter_nil. intros [k1 n1] H1. simpl.
    destruct (str_eqb k1 k) eqn:Q; trivial. apply str_eqb_eq in Q. subst.
    exfalso. apply NI. change k with (fst (k, n1)). now apply in_map.
  - destruct (str_eqb k' k) eqn:Q; [|now apply IH].
    apply str_eqb_eq in Q. subst. exfalso. apply NI.
    change k with (fst (k, n)). now apply in_map.
Qed.

Lemma NoDup_map_filter {A B} (g : A -> B) (f : A -> bool) l :
  NoDup (map g l) -> NoDup (map g (filter f l)).
Proof.
  induction l as [|x l IH]; simpl; intros H; trivial.
  inversion H as [|? ? NI ND]; subst.
  destruct (f x); simpl; auto. constructor; auto.
  intros Hx. apply NI. apply in_map_iff in Hx. destruct Hx as (y & E & Hy).
  apply filter_In in Hy. apply in_map_iff. exists y. tauto.
Qed.

Lemma Counter_has l t :
  In t l -> In (t, count_occ str_eq_dec l t) (Counter l).
Proof.
  intros H. apply dedup_In in H. rewrite <- keys_Counter in H.
  apply in_map_iff in H. destruct H as ([k n] & E & H). simpl in E. subst k.
  destruct (Counter_In _ _ _ H) as [_ ->]. exact H.
Qed.

Lemma registered_In src fp :
  In fp (registered src) <->
  In fp (walked src) /\ strip (extract_text src (snd fp)) <> [].
Proof.
  unfold registered. rewrite filter_In, negb_true_iff.
  rewrite <- is_blank_strip. destruct (is_blank (extract_text src (snd fp)));
    intuition congruence.
Qed.

Lemma containment_In src path e :
  In e (containment src path) ->
  e_from e = file_id_of path /\
  ((e_type e = FILE_CONTAINS_ENTITY /\
    exists t, e_to e = ent_id_of t /\ In t (entities_of src path) /\
              e_attr e = weight (count_occ str_eq_dec (entities_of src path) t)) \/
   (e_type e = FILE_CONTAINS_TOPIC /\
    exists t, e_to e = top_id_of t /\ In t (topics_of src path) /\
              e_attr e = weight (count_occ str_eq_dec (topics_of src path) t))).
Proof.
  unfold containment. rewrite in_app_iff, !in_map_iff.
  intros [([t n] & <- & H)|([t n] & <- & H)]; apply Counter_In in H;
    destruct H as [H ->]; (split; [reflexivity|]); [left|right];
    (split; [reflexivity|]); exists t; repeat split; trivial.
Qed.

Lemma cooccurrence_In item e :
  In e (cooccurrence item) ->
  e_attr e = from_file (fst item) /\
  exists a, e_from e = ent_id_of a /\ In a (set_iter (find_entities (snd item))) /\
    ((e_type e = ENTITY_RELATED_TO_ENTITY /\
      exists b, e_to e = ent_id_of b /\ In b (set_iter (find_entities (snd item)))) \/
     (e_type e = ENTITY_RELATED_TO_TOPIC /\
      exists t, e_to e = top_id_of t /\
                In t (set_iter (find_topics (snd item) default_top_n)))).
Proof.
  unfold cooccurrence, entity_pairs, entity_topic_pairs. cbv zeta.
  rewrite in_app_iff, !in_flat_map.
  intros [(i & Hi & H)|(a & Ha & H)]; apply in_map_iff in H.
  - destruct H as (j & <- & Hj). apply in_seq in Hi, Hj.
    split; [reflexivity|]. eexists. split; [reflexivity|].
    split; [apply nth_In; lia|]. left. split; [reflexivity|].
    eexists. split; [reflexivity|]. apply nth_In. lia.
  - destruct H as (t & <- & Ht).
    split; [reflexivity|]. exists a. split; [reflexivity|].
    split; trivial. right. split; [reflexivity|]. now exists t.
Qed.

Lemma joins_iff ty a b e :
  joins ty a b e = true <-> e_type e = ty /\ e_from e = a /\ e_to e = b.
Proof.
  unfold joins. rewrite !andb_true_iff, !str_eqb_eq.
  destruct (e_type e), ty; simpl; intuition congruence.
Qed.

Lemma tagged_iff ty fid e :
  tagged ty fid e = true <-> e_type e = ty /\ e_attr e = from_file fid.
Proof.
  unfold tagged. rewrite andb_true_iff.
  destruct (e_attr e) as [n|f].
  - intuition congruence.
  - rewrite str_eqb_eq. destruct (e_type e), ty; simpl; intuition congruence.
Qed.

Lemma not_true_false b : (b = true -> False) -> b = false.
Proof. destruct b; intuition. Qed.

(** A containment-edge filter sees only the block of its own file. *)
Lemma filter_build_from src f path (g : edge -> bool) :
  NoDup (map snd (walked src)) ->
  In (f, path) (registered src) ->
  (forall e, g e = true ->
             e_from e = file_id_of path /\
             (e_type e = FILE_CONTAINS_ENTITY \/ e_type e = FILE_CONTAINS_TOPIC)) ->
  filter g (edges (build src)) = filter g (containment src path).
Proof.
  intros ND H G. rewrite build_edges, filter_app.
  rewrite (filter_flat_map_nil g cooccurrence), app_nil_r.
  2:{ intros item e _ He. apply not_true_false. intros Q.
      apply G in Q. destruct Q as (_ & Q).
      apply cooccurrence_In in He. destruct He as (_ & a & _ & _ & He).
      destruct He as [(He & _)|(He & _)], Q as [Q|Q]; congruence. }
  assert (NoDup (map snd (registered src))) as ND' by now apply NoDup_map_filter.
  apply in_split in H. destruct H as (l1 & l2 & E). rewrite E in *.
  rewrite map_app in ND'. simpl in ND'. apply NoDup_remove_2 in ND'.
  rewrite flat_map_app. simpl. rewrite !filter_app.
  rewrite (filter_flat_map_nil g _ l1), (filter_flat_map_nil g _ l2).
  - now rewrite app_nil_r.
  - intros fp e Hfp He. apply not_true_false. intros Q.
    apply G in Q. destruct Q as (Q & _).
    apply containment_In in He. destruct He as (He & _).
    rewrite He in Q. apply file_id_inj in Q.
    apply ND', in_app_iff. right. rewrite <- Q. now apply in_map.
  - intros fp e Hfp He. apply not_true_false. intros Q.
    apply G in Q. destruct Q as (Q & _).
    apply containment_In in He. destruct He as (He & _).
    rewrite He in Q. apply file_id_inj in Q.
    apply ND', in_app_iff. left. rewrite <- Q. now apply in_map.
Qed.

Lemma filter_contain_edges ety ety' mk fid id (c : counter) :
  ety <> ety' ->
  filter (joins ety' fid id) (map (contain_edge ety mk fid) c) = [].
Proof.
  intros N. apply filter_nil. intros e He.
  apply in_map_iff in He. destruct He as (it & <- & _).
  apply not_true_false. intros Q. apply joins_iff in Q. simpl in Q. tauto.
Qed.

Lemma filter_contain_edge ety mk fid t n (c : counter) :
  (forall a b, mk a = mk b -> a = b) ->
  NoDup (map fst c) -> In (t, n) c ->
  filter (joins ety fid (mk t)) (map (contain_edge ety mk fid) c)
  = [contain_edge ety mk fid (t, n)].
Proof.
  intros Inj ND H. rewrite filter_map_comm.
  rewrite (filter_ext _ (fun it => str_eqb (fst it) t)).
  - now rewrite (filter_key c t n).
  - intros [k m]. unfold joins, contain_edge. simpl.
    rewrite str_eqb_refl, andb_true_r.
    assert (edge_type_eqb ety ety = true) as -> by now destruct ety.
    simpl. unfold str_eqb.
    destruct (str_eq_dec (mk k) (mk t)) as [E|N], (str_eq_dec k t) as [E'|N'];
      trivial; [apply Inj in E|]; congruence.
Qed.

End EdgeFacts.

(** ** Containment *)

Section Containment.
Context {R : PyRuntime}.

(** The containment edges as the code makes them.  In a walk that meets
    each path once, every registered file has, for each distinct entity and each distinct topic
    extracted from its text, exactly one containment edge from the file's
    node to the term's node.  For an entity the weight is the number of
    occurrences of the phrase among the entities extracted from the
    file.  For a topic the weight is the number of occurrences of the
    word in the list [find_topics] returned, which is 1 however often the
    word occurs in the text: the topic counts do not count occurrences,
    as the entity counts do. *)
Theorem containment_edge_weights (src : sources) (f path t : str) :
  NoDup (map snd (walked src)) ->
  In (f, path) (walked src) ->
  strip (extract_text src path) <> [] ->
  let fid := file_id_of path in
  (In t (entities_of src path) ->
   let es := filter (joins FILE_CONTAINS_ENTITY fid (ent_id_of t)) (edges (build src)) in
   length es = 1 /\
   weight_sum es = count_occ str_eq_dec (entities_of src path) t) /\
  (In t (topics_of src path) ->
   let es := filter (joins FILE_CONTAINS_TOPIC fid (top_id_of t)) (edges (build src)) in
   length es = 1 /\
   weight_sum es = count_occ str_eq_dec (topics_of src path) t /\
   weight_sum es = 1).
Proof.
  intros ND Hw NB fid.
  assert (In (f, path) (registered src)) as Hr by (apply registered_In; auto).
  split; intros Ht es; subst es.
  - rewrite (filter_build_from src f path); trivial.
    + unfold containment. rewrite filter_app.
      rewrite (filter_contain_edge _ _ _ t _ _ ent_id_inj
                 (keys_Counter_NoDup _) (Counter_has _ _ Ht)).
      rewrite filter_contain_edges by discriminate.
      split; [reflexivity|]. apply Nat.add_0_r.
    + intros e Q. apply joins_iff in Q. destruct Q as (Ty & Fr & To). auto.
  - rewrite (filter_build_from src f path); trivial.
    + unfold containment. rewrite filter_app.
      rewrite (filter_contain_edge _ _ _ t _ _ top_id_inj
                 (keys_Counter_NoDup _) (Counter_has _ _ Ht)).
      rewrite filter_contain_edges by discriminate.
      assert (count_occ str_eq_dec (topics_of src path) t = 1) as One
        by (apply NoDup_count_occ'; trivial; apply find_topics_NoDup).
      split; [reflexivity|]. unfold weight_sum. simpl. rewrite One. auto.
    + intros e Q. apply joins_iff in Q. destruct Q as (Ty & Fr & To). auto.
Qed.

End Containment.

(** ** The global counters and the summary *)

Section Summary.
Context {R : PyRuntime}.

Lemma build_globals src :
  entity_global_counts (build src) =
    Counter (flat_map (fun fp => entities_of src (snd fp)) (registered src)) /\
  topic_global_counts (build src) =
    Counter (flat_map (fun fp => topics_of src (snd fp)) (registered src)).
Proof.
  rewrite build_closed. simpl.
  destruct (first_pass_fields src) as (_ & G1 & G2 & _). now rewrite G1, G2.
Qed.

Lemma count_occ_flat_map {A} (g : A -> list str) l k :
  count_occ str_eq_dec (flat_map g l) k =
  list_sum (map (fun x => count_occ str_eq_dec (g x) k) l).
Proof.
  induction l as [|x l IH]; simpl; trivial.
  now rewrite count_occ_app, IH.
Qed.

Lemma fold_snoc_map {A B} (g : A -> B) l : forall acc,
  fold_left (fun acc x => acc ++ [g x]) l acc = acc ++ map g l.
Proof.
  induction l as [|x l IH]; intros acc; simpl.
  - now rewrite app_nil_r.
  - now rewrite IH, <- app_assoc.
Qed.

Lemma summary_lines_closed st :
  summary_lines st =
  [lit "# Knowledge Graph Summary" ++ newline;
   lit "- Files: " ++ str_of_nat (length (file_nodes (nodes st)));
   lit "- Entities: " ++ str_of_nat (length (entity_nodes (nodes st)));
   lit "- Topics: " ++ str_of_nat (length (topic_nodes (nodes st))) ++ newline;
   lit "## Top Entities" ++ newline]
  ++ map mention_line (most_common 20 (entity_global_counts st))
  ++ [newline ++ lit "## Top Topics" ++ newline]
  ++ map occurrence_line (most_common 20 (topic_global_counts st)).
Proof.
  unfold summary_lines. cbv zeta. rewrite !fold_snoc_map.
  cbn [app]. now rewrite <- !app_assoc.
Qed.

(** A list without repetition holds each of its members once. *)
Lemma count_occ_NoDup l (t : str) :
  NoDup l -> count_occ str_eq_dec l t = if str_in t l then 1 else 0.
Proof.
  intros ND. destruct (str_in t l) eqn:E.
  - apply str_in_In in E. now apply NoDup_count_occ'.
  - apply str_in_false in E. now apply count_occ_not_In.
Qed.

(** Over lists without repetition, counting occurrences is counting the
    lists that hold the term. *)
Lemma count_occ_presence src t (l : list (str * str)) :
  count_occ str_eq_dec (flat_map (fun fp => topics_of src (snd fp)) l) t =
  length (filter (fun fp => str_in t (topics_of src (snd fp))) l).
Proof.
  rewrite count_occ_flat_map.
  induction l as [|fp l IH]; simpl; trivial.
  rewrite IH, count_occ_NoDup by apply find_topics_NoDup.
  now destruct (str_in t (topics_of src (snd fp))).
Qed.

(** The global counters and the summary as the code makes them.  After a
    run, the global counter of an entity name is the sum, over the registered files, of the number of
    occurrences of the phrase among the entities extracted from the file
    (all occurrences counted, not one per file).  The global counter of a
    topic name is the number of registered files whose [find_topics] list
    holds the word, however often the word occurs in their texts.  The
    summary lists, after its five header lines, the twenty entities of
    highest count, highest first and first-met first among equals, each
    with its count, then the twenty topics the same way. *)
Theorem global_counts_and_summary (src : sources) :
  let st := build src in
  let reg := registered src in
  let ents := flat_map (fun fp => entities_of src (snd fp)) reg in
  let tops := flat_map (fun fp => topics_of src (snd fp)) reg in
  (forall e,
      counter_get (entity_global_counts st) e =
      list_sum (map (fun fp => count_occ str_eq_dec (entities_of src (snd fp)) e) reg)) /\
  (forall t,
      counter_get (topic_global_counts st) t =
      length (filter (fun fp => str_in t (topics_of src (snd fp))) reg)) /\
  top_ranked 20 ents (most_common 20 (entity_global_counts st)) /\
  top_ranked 20 tops (most_common 20 (topic_global_counts st)) /\
  skipn 5 (summary_lines st) =
    map mention_line (most_common 20 (entity_global_counts st))
    ++ [newline ++ lit "## Top Topics" ++ newline]
    ++ map occurrence_line (most_common 20 (topic_global_counts st)) /\
  (forall item,
      mention_line item =
        lit "- " ++ fst item ++ lit " (" ++ str_of_nat (snd item) ++ lit " mentions)" /\
      occurrence_line item =
        lit "- " ++ fst item ++ lit " (" ++ str_of_nat (snd item) ++ lit " occurrences)").
Proof.
  intros st reg ents tops. subst st.
  destruct (build_globals src) as [G1 G2]. rewrite G1, G2.
  split; [|split; [|split; [|split; [|split]]]].
  - intros e. rewrite get_Counter. apply count_occ_flat_map.
  - intros t. rewrite get_Counter. apply count_occ_presence.
  - apply most_common_top_ranked.
  - apply most_common_top_ranked.
  - rewrite summary_lines_closed, G1, G2. reflexivity.
  - intros item. split; reflexivity.
Qed.

(** C9. In every run each FILE_CONTAINS_TOPIC edge has weight exactly 1:
    the per-file topic counter is built from the list [find_topics]
    returns, which has no repetition and at most [top_n] words.  So a file
    adds at most 1 to a topic's global counter, and that counter is the
    number of registered files whose topic list holds the topic. *)
Theorem topic_edges_weigh_one (src : sources) :
  let st := build src in
  (forall text n, NoDup (find_topics text n) /\ length (find_topics text n) <= n) /\
  (forall e, In e (edges st) -> e_type e = FILE_CONTAINS_TOPIC -> e_attr e = weight 1) /\
  (forall path t, counter_get (Counter (topics_of src path)) t <= 1) /\
  (forall t,
      counter_get (topic_global_counts st) t =
      length (filter (fun fp => str_in t (topics_of src (snd fp))) (registered src))).
Proof.
  intros st. subst st. split; [|split; [|split]].
  - intros text n. split; [apply find_topics_NoDup|].
    destruct (find_topics_top_ranked text n) as ((L & _) & ->).
    rewrite length_map, L. apply Nat.le_min_l.
  - intros e He Ty. rewrite build_edges in He. apply in_app_iff in He.
    destruct He as [He|He]; apply in_flat_map in He; destruct He as (x & _ & He).
    + apply containment_In in He.
      destruct He as (_ & [(Ty' & _)|(_ & t & _ & Ht & A)]); [congruence|].
      rewrite A. f_equal. apply NoDup_count_occ'; trivial. apply find_topics_NoDup.
    + apply cooccurrence_In in He. destruct He as (_ & a & _ & _ & He).
      destruct He as [(He & _)|(He & _)]; congruence.
  - intros path t. rewrite get_Counter.
    apply NoDup_count_occ, find_topics_NoDup.
  - intros t. destruct (build_globals src) as [_ ->].
    rewrite get_Counter. apply count_occ_presence.
Qed.

End Summary.

(** ** Nodes *)

Section Nodes.
Context {R : PyRuntime}.

Lemma build_nodes src : nodes (build src) = nodes (first_pass src).
Proof. now rewrite build_closed. Qed.

Lemma build_created src :
  created (build src) =
  created (first_pass src)
  ++ map (fun e => (e, nodes (first_pass src)))
       (flat_map cooccurrence (file_texts (first_pass src))).
Proof. now rewrite build_closed. Qed.

Lemma contain_file_nodes ty ety mk fid items : forall st,
  kind_ok ty ety mk ->
  file_nodes (nodes (fold_left (contain ty ety mk fid) items st)) = file_nodes (nodes st).
Proof.
  induction items as [|[t n] items IH]; intros st K; simpl; trivial.
  rewrite IH by trivial. unfold ensure_node.
  destruct (dict_mem (mk t) (get_nodes ty (nodes st))); trivial.
  destruct K as [(-> & _)|(-> & _)]; reflexivity.
Qed.

(** File nodes are made for registered files only. *)
Lemma visits_file_keys src l : forall st k,
  In k (dict_keys (file_nodes (nodes (fold_left (visit src) l st)))) ->
  In k (dict_keys (file_nodes (nodes st))) \/
  exists fp, In fp l /\ strip (extract_text src (snd fp)) <> [] /\
             k = file_id_of (snd fp).
Proof.
  induction l as [|fp l IH]; intros st k H; simpl in H; auto.
  apply IH in H. destruct H as [H|(fp' & H1 & H2 & H3)].
  - unfold visit, collect in H.
    destruct (strip (extract_text src (snd fp))) as [|c s] eqn:B; auto.
    cbv zeta in H.
    rewrite !contain_file_nodes in H by (unfold kind_ok; auto).
    simpl in H. apply dict_set_keys_In in H. destruct H as [H|H]; auto.
    right. exists fp. simpl. rewrite B. repeat split; auto. discriminate.
  - right. exists fp'. simpl. auto.
Qed.

Lemma file_keys_registered src k :
  In k (dict_keys (file_nodes (nodes (build src)))) ->
  exists fp, In fp (registered src) /\ k = file_id_of (snd fp).
Proof.
  rewrite build_nodes, first_pass_visit. intros H.
  apply visits_file_keys in H. destruct H as [[]|(fp & H1 & H2 & H3)].
  exists fp. split; trivial. now apply registered_In.
Qed.

(** When the key of every entry is a function of an attribute of its
    value, distinct keys make distinct attributes. *)
Lemma NoDup_attr {V B} (d : dict V) (attr : V -> B) (key : B -> str) :
  NoDup (dict_keys d) ->
  (forall kv, In kv d -> fst kv = key (attr (snd kv))) ->
  NoDup (map attr (dict_values d)).
Proof.
  intros ND H. unfold dict_keys, dict_values in *.
  apply (NoDup_map_inv key). rewrite !map_map.
  erewrite map_ext_in; [exact ND|].
  intros kv Hkv. simpl. symmetry. now apply H.
Qed.

Lemma store_ok_names ns :
  store_ok ns ->
  NoDup (map n_name (dict_values (entity_nodes ns))) /\
  NoDup (map n_name (dict_values (topic_nodes ns))) /\
  NoDup (map n_path (dict_values (file_nodes ns))).
Proof.
  intros OK.
  destruct (OK entity) as [N1 F1], (OK topic) as [N2 F2], (OK file) as [N3 F3].
  rewrite Forall_forall in F1, F2, F3. simpl in *.
  split; [|split].
  - apply (NoDup_attr _ n_name ent_id_of); trivial.
    intros kv H. apply F1 in H. apply H.
  - apply (NoDup_attr _ n_name top_id_of); trivial.
    intros kv H. apply F2 in H. apply H.
  - apply (NoDup_attr _ n_path
             (fun o => match o with Some p => file_id_of p | None => [] end)); trivial.
    intros kv H. apply F3 in H. destruct H as (_ & _ & p & -> & E). exact E.
Qed.

Lemma set_iter_In l x : set_iter_ok R -> In x (set_iter l) -> In x l.
Proof. intros SI. apply (SI l). Qed.

(** The second pass keeps the log in order. *)
Lemma build_log_ok src : set_iter_ok R -> log_ok (build src).
Proof.
  intros SI. destruct (first_pass_inv src) as (_ & [LE LF] & CV).
  unfold log_ok. rewrite build_created, build_edges.
  destruct (first_pass_fields src) as (E & _). rewrite <- E, <- LE.
  split.
  - rewrite map_app, map_map. simpl. now rewrite map_id.
  - apply Forall_app. split; trivial.
    apply Forall_forall. intros [e ns] H.
    apply in_map_iff in H. destruct H as (e' & Q & H). injection Q as -> <-.
    apply in_flat_map in H. destruct H as ([fid text] & Hi & H).
    destruct (CV _ _ Hi) as (_ & CE & CT).
    apply cooccurrence_In in H. simpl in H.
    destruct H as (_ & a & Fr & Ha & H). apply set_iter_In in Ha; trivial.
    unfold endpoints_in. simpl.
    destruct H as [(-> & b & -> & Hb)|(-> & t & -> & Ht)]; rewrite Fr.
    + apply set_iter_In in Hb; trivial. split; auto.
    + apply set_iter_In in Ht; trivial. split; auto.
Qed.

End Nodes.

(** ** Node identity and endpoints *)

Section Identity.
Context {R : PyRuntime}.

Lemma kept_registered src fid text :
  In (fid, text) (file_texts (first_pass src)) ->
  exists fp, In fp (registered src) /\ fid = file_id_of (snd fp) /\
             text = extract_text src (snd fp).
Proof.
  intros H. apply file_texts_spec in H. apply in_map_iff in H.
  destruct H as (fp & E & H). injection E as <- <-. now exists fp.
Qed.

Lemma registered_kept src fp :
  In fp (registered src) ->
  In (file_id_of (snd fp), extract_text src (snd fp)) (file_texts (first_pass src)).
Proof.
  intros H. apply file_texts_spec. apply in_map_iff. now exists fp.
Qed.

Lemma build_edges_In src e :
  In e (edges (build src)) ->
  (exists fp, In fp (registered src) /\ In e (containment src (snd fp))) \/
  (exists fp, In fp (registered src) /\
              In e (cooccurrence (file_id_of (snd fp), extract_text src (snd fp)))).
Proof.
  rewrite build_edges, in_app_iff, !in_flat_map.
  intros [(fp & H1 & H2)|([fid text] & H1 & H2)]; [left; eauto|right].
  apply kept_registered in H1. destruct H1 as (fp & H1 & -> & ->). eauto.
Qed.

(** C6. Every edge is appended, in either pass, when both its endpoints
    are already nodes of the collections its type names; and every
    co-occurrence edge is appended once the first pass is over, and joins
    an entity of a registered file's text to another entity or to a topic
    of the same text, whose nodes the first pass has made. *)
Theorem edges_join_existing_nodes (src : sources) :
  set_iter_ok R ->
  let st := build src in
  map fst (created st) = edges st /\
  Forall (fun en => endpoints_in (snd en) (fst en)) (created st) /\
  (forall e ns,
      In (e, ns) (created st) ->
      e_type e = ENTITY_RELATED_TO_ENTITY \/ e_type e = ENTITY_RELATED_TO_TOPIC ->
      ns = nodes (first_pass src) /\
      exists fp a,
        In fp (registered src) /\
        e_attr e = from_file (file_id_of (snd fp)) /\
        e_from e = ent_id_of a /\ In a (entities_of src (snd fp)) /\
        ((e_type e = ENTITY_RELATED_TO_ENTITY /\
          exists b, e_to e = ent_id_of b /\ In b (entities_of src (snd fp))) \/
         (e_type e = ENTITY_RELATED_TO_TOPIC /\
          exists t, e_to e = top_id_of t /\ In t (topics_of src (snd fp))))).
Proof.
  intros SI st. subst st. destruct (build_log_ok src SI) as [LE LF].
  split; [|split]; trivial.
  intros e ns H Ty. rewrite build_created in H. apply in_app_iff in H.
  destruct H as [H|H].
  - exfalso. destruct (first_pass_inv src) as (_ & [LE1 _] & _).
    assert (In e (edges (first_pass src))) as He.
    { rewrite <- LE1. change e with (fst (e, ns)). now apply in_map. }
    destruct (first_pass_fields src) as (E & _). rewrite E in He.
    apply in_flat_map in He. destruct He as (fp & _ & He).
    apply containment_In in He.
    destruct He as (_ & [(Q & _)|(Q & _)]), Ty as [Ty|Ty]; congruence.
  - apply in_map_iff in H. destruct H as (e' & Q & H). injection Q as -> <-.
    split; trivial.
    apply in_flat_map in H. destruct H as ([fid text] & Hi & H).
    apply kept_registered in Hi. destruct Hi as (fp & Hr & -> & ->).
    apply cooccurrence_In in H. simpl in H.
    destruct H as (A & a & Fr & Ha & H). apply set_iter_In in Ha; trivial.
    exists fp, a. repeat split; trivial.
    destruct H as [(T1 & b & To & Hb)|(T1 & t & To & Ht)]; [left|right];
      (split; trivial); eexists; split; eauto; now apply set_iter_In.
Qed.

(** C4, as the code has it.  A walked file whose extracted text is empty,
    or holds blanks only, is skipped: the run makes no file node for it
    and appends no edge that leaves it or is attributed to it. *)
Theorem blank_file_is_skipped (src : sources) (path : str) :
  strip (extract_text src path) = [] ->
  let st := build src in
  ~ In (file_id_of path) (dict_keys (file_nodes (nodes st))) /\
  (forall e, In e (edges st) ->
             e_from e <> file_id_of path /\ e_attr e <> from_file (file_id_of path)).
Proof.
  intros B st. subst st.
  assert (forall fp, In fp (registered src) -> file_id_of path <> file_id_of (snd fp))
    as NR.
  { intros fp Hr E. apply file_id_inj in E. subst path.
    apply registered_In in Hr. tauto. }
  split.
  - intros H. apply file_keys_registered in H. destruct H as (fp & Hr & E).
    now apply (NR fp).
  - intros e He. apply build_edges_In in He.
    destruct He as [(fp & Hr & He)|(fp & Hr & He)].
    + apply containment_In in He. destruct He as (Fr & He). rewrite Fr. split.
      * intros E. now apply (NR fp).
      * destruct He as [(_ & t & _ & _ & ->)|(_ & t & _ & _ & ->)]; discriminate.
    + apply cooccurrence_In in He. simpl in He.
      destruct He as (A & a & Fr & _). rewrite Fr, A. split.
      * discriminate.
      * intros E. apply (NR fp Hr). congruence.
Qed.

(** C5, as the code has it.  Within each type no two nodes share an id;
    an entity or topic id is built from the name, so no two entity nodes
    and no two topic nodes share a name, while a file id is built from the
    path, so no two file nodes share a path.  Registering an id that is
    already present makes no second node, and every containment edge of a
    term points to the one node that bears the term's name. *)
Theorem node_identity (src : sources) :
  let st := build src in
  let ns := nodes st in
  (forall ty, NoDup (dict_keys (get_nodes ty ns)) /\ Forall (node_ok ty) (get_nodes ty ns)) /\
  NoDup (map n_name (dict_values (entity_nodes ns))) /\
  NoDup (map n_name (dict_values (topic_nodes ns))) /\
  NoDup (map n_path (dict_values (file_nodes ns))) /\
  (forall ty id nd s,
      In id (dict_keys (get_nodes ty (nodes s))) ->
      ensure_node ty id nd s = s /\
      dict_keys (get_nodes ty (nodes (set_node ty id nd s)))
      = dict_keys (get_nodes ty (nodes s))) /\
  (forall e, In e (edges st) ->
     (e_type e = FILE_CONTAINS_ENTITY ->
      exists nd, In (e_to e, nd) (entity_nodes ns) /\
                 e_to e = ent_id_of (n_name nd) /\
                 forall k' nd', In (k', nd') (entity_nodes ns) ->
                                n_name nd' = n_name nd -> (k', nd') = (e_to e, nd)) /\
     (e_type e = FILE_CONTAINS_TOPIC ->
      exists nd, In (e_to e, nd) (topic_nodes ns) /\
                 e_to e = top_id_of (n_name nd) /\
                 forall k' nd', In (k', nd') (topic_nodes ns) ->
                                n_name nd' = n_name nd -> (k', nd') = (e_to e, nd))).
Proof.
  intros st ns. subst st ns. rewrite build_nodes.
  destruct (first_pass_inv src) as (OK & _ & CV).
  destruct (store_ok_names _ OK) as (N1 & N2 & N3).
  split; [exact OK|]. split; [exact N1|]. split; [exact N2|]. split; [exact N3|].
  split.
  - intros ty id nd s H. split.
    + unfold ensure_node. apply dict_mem_In in H. now rewrite H.
    + simpl. rewrite get_put_same, keys_dict_set.
      apply dedup_step_old. now apply str_in_In.
  - intros e He. apply build_edges_In in He.
    destruct He as [(fp & Hr & He)|(fp & Hr & He)].
    2:{ apply cooccurrence_In in He. destruct He as (_ & a & _ & _ & He).
        split; intros Ty; destruct He as [(Q & _)|(Q & _)]; congruence. }
    apply containment_In in He. destruct He as (_ & He).
    destruct (CV _ _ (registered_kept src fp Hr)) as (_ & CE & CT).
    split; intros Ty;
      destruct He as [(Q & t & To & Ht & _)|(Q & t & To & Ht & _)]; try congruence.
    + apply CE in Ht. rewrite <- To in Ht.
      apply in_map_iff in Ht. destruct Ht as ([k nd] & Ek & Hk). simpl in Ek. subst k.
      destruct (OK entity) as [ND F]. rewrite Forall_forall in F. simpl in ND, F.
      destruct (F _ Hk) as (_ & _ & _ & Kn). simpl in Kn.
      exists nd. split; [exact Hk|]. split; [exact Kn|].
      intros k' nd' Hk' En. destruct (F _ Hk') as (_ & _ & _ & Kn'). simpl in Kn'.
      assert (k' = e_to e) as -> by congruence.
      f_equal. exact (dict_functional _ _ _ _ ND Hk' Hk).
    + apply CT in Ht. rewrite <- To in Ht.
      apply in_map_iff in Ht. destruct Ht as ([k nd] & Ek & Hk). simpl in Ek. subst k.
      destruct (OK topic) as [ND F]. rewrite Forall_forall in F. simpl in ND, F.
      destruct (F _ Hk) as (_ & _ & _ & Kn). simpl in Kn.
      exists nd. split; [exact Hk|]. split; [exact Kn|].
      intros k' nd' Hk' En. destruct (F _ Hk') as (_ & _ & _ & Kn'). simpl in Kn'.
      assert (k' = e_to e) as -> by congruence.
      f_equal. exact (dict_functional _ _ _ _ ND Hk' Hk).
Qed.

End Identity.

(** ** Co-occurrence *)

Section Pairs.

Lemma map_nth_seq {A} (d : A) l : map (fun j => nth j l d) (seq 0 (length l)) = l.
Proof.
  induction l as [|x l IH]; simpl; trivial.
  f_equal. rewrite <- seq_shift, map_map. exact IH.
Qed.

Lemma flat_map_map {A B C} (g : B -> list C) (h : A -> B) l :
  flat_map g (map h l) = flat_map (fun x => g (h x)) l.
Proof. induction l as [|x l IH]; simpl; trivial. now rewrite IH. Qed.

(** The two index loops enumerate the pairs. *)
Lemma index_pairs {A B} (d : A) (mk : A -> A -> B) (l : list A) :
  flat_map
    (fun i => map (fun j => mk (nth i l d) (nth j l d))
                (seq (i + 1) (length l - (i + 1))))
    (seq 0 (length l))
  = map (fun ab => mk (fst ab) (snd ab)) (pairs l).
Proof.
  induction l as [|x l IH]; trivial.
  cbn [length seq flat_map pairs]. rewrite map_app, map_map. f_equal.
  - cbn [Nat.add Nat.sub nth fst snd]. rewrite Nat.sub_0_r.
    rewrite <- seq_shift, map_map. cbn [nth].
    rewrite <- (map_nth_seq d l) at 2. now rewrite map_map.
  - rewrite <- IH, <- seq_shift, flat_map_map.
    apply flat_map_ext. intros i.
    cbn [Nat.add Nat.sub nth]. rewrite <- seq_shift, map_map. reflexivity.
Qed.

Lemma length_pairs {A} (l : list A) :
  length (pairs l) = length l * (length l - 1) / 2.
Proof.
  induction l as [|x l IH]; trivial.
  cbn [pairs length]. rewrite length_app, length_map, IH.
  replace (S (length l) * (S (length l) - 1))
    with (length l * 2 + length l * (length l - 1)) by nia.
  now rewrite Nat.div_add_l by discriminate.
Qed.

Lemma pairs_In {A} (l : list A) a b : In (a, b) (pairs l) -> In a l /\ In b l.
Proof.
  induction l as [|x l IH]; simpl; [tauto|].
  rewrite in_app_iff, in_map_iff. intros [(y & E & Hy)|H].
  - injection E as -> ->. auto.
  - apply IH in H. tauto.
Qed.

Lemma pairs_distinct {A} (l : list A) a b : NoDup l -> In (a, b) (pairs l) -> a <> b.
Proof.
  induction l as [|x l IH]; simpl; intros ND H; [contradiction|].
  inversion ND as [|? ? NI ND']; subst.
  apply in_app_iff in H. destruct H as [H|H]; [|now apply IH].
  apply in_map_iff in H. destruct H as (y & E & Hy). injection E as -> ->.
  intros ->. contradiction.
Qed.

Lemma count_one (l : list str) a :
  NoDup l -> In a l -> length (filter (fun x => str_eqb x a) l) = 1.
Proof.
  induction l as [|x l IH]; simpl; intros ND H; [contradiction|].
  inversion ND as [|? ? NI ND']; subst.
  destruct (str_eqb x a) eqn:E.
  - apply str_eqb_eq in E. subst. simpl. f_equal.
    rewrite filter_nil; trivial. intros y Hy.
    destruct (str_eqb y a) eqn:Q; trivial. apply str_eqb_eq in Q. now subst.
  - destruct H as [->|H]; [now rewrite str_eqb_refl in E|now apply IH].
Qed.

(** Of two distinct members of a list without repetition, the pairs hold
    exactly one arrangement. *)
Lemma pairs_count (l : list str) a b :
  NoDup l -> In a l -> In b l -> a <> b ->
  length (filter (unordered a b) (pairs l)) = 1.
Proof.
  assert (forall (l : list str) x a b, ~ In x l -> a <> b ->
            length (filter (unordered a b) (map (pair x) l))
            = length (filter (fun y => (str_eqb x a && str_eqb y b)
                                       || (str_eqb x b && str_eqb y a)) l)) as Hd.
  { intros l0 x a0 b0 _ _. now rewrite filter_map_comm, length_map. }
  assert (forall (l : list str) a b, ~ In a l ->
            filter (unordered a b) (pairs l) = []) as Ha.
  { intros l0 a0 b0 N. apply filter_nil. intros [x y] H. apply pairs_In in H.
    unfold unordered. simpl.
    destruct (str_eqb x a0) eqn:Q1; [apply str_eqb_eq in Q1; subst; tauto|].
    destruct (str_eqb y a0) eqn:Q2; [apply str_eqb_eq in Q2; subst; tauto|].
    simpl. now rewrite andb_false_r. }
  assert (forall (l : list str) a b, ~ In b l ->
            filter (unordered a b) (pairs l) = []) as Hb.
  { intros l0 a0 b0 N. apply filter_nil. intros [x y] H. apply pairs_In in H.
    unfold unordered. simpl.
    destruct (str_eqb x b0) eqn:Q1; [apply str_eqb_eq in Q1; subst; tauto|].
    destruct (str_eqb y b0) eqn:Q2; [apply str_eqb_eq in Q2; subst; tauto|].
    simpl. now rewrite andb_false_r. }
  induction l as [|x l IH]; intros ND Ia Ib N; [contradiction|].
  inversion ND as [|? ? NI ND']; subst.
  cbn [pairs]. rewrite filter_app, length_app, Hd by trivial.
  destruct (str_eq_dec x a) as [->|Na].
  - destruct Ib as [Ib|Ib]; [congruence|].
    rewrite (Ha l a b NI). rewrite (filter_ext _ (fun y => str_eqb y b)).
    + rewrite count_one; trivial.
    + intros y. rewrite str_eqb_refl. simpl.
      destruct (str_eqb a b) eqn:Q; [apply str_eqb_eq in Q; congruence|].
      simpl. now rewrite orb_false_r.
  - destruct Ia as [Ia|Ia]; [congruence|].
    destruct (str_eq_dec x b) as [->|Nb].
    + rewrite (Hb l a b NI). rewrite (filter_ext _ (fun y => str_eqb y a)).
      * rewrite count_one; trivial.
      * intros y. rewrite str_eqb_refl. simpl.
        destruct (str_eqb b a) eqn:Q; [apply str_eqb_eq in Q; congruence|].
        reflexivity.
    + destruct Ib as [Ib|Ib]; [congruence|].
      rewrite filter_nil.
      * simpl. now apply IH.
      * intros y _.
        destruct (str_eqb x a) eqn:Q1; [apply str_eqb_eq in Q1; congruence|].
        destruct (str_eqb x b) eqn:Q2; [apply str_eqb_eq in Q2; congruence|].
        reflexivity.
Qed.

Lemma length_flat_map_const {A B} (g : A -> list B) l n :
  (forall x, length (g x) = n) -> length (flat_map g l) = length l * n.
Proof.
  intros H. induction l as [|x l IH]; simpl; trivial.
  now rewrite length_app, H, IH.
Qed.

End Pairs.

Section Cooccurrence.
Context {R : PyRuntime}.

Lemma set_iter_length l : set_iter_ok R -> length (set_iter l) = length (dedup l).
Proof.
  intros SI. apply Permutation_length, NoDup_Permutation.
  - apply SI.
  - apply dedup_NoDup.
  - intros x. rewrite dedup_In. apply SI.
Qed.

Lemma id_eqb (mk : str -> str) a b :
  (forall x y, mk x = mk y -> x = y) -> str_eqb (mk a) (mk b) = str_eqb a b.
Proof.
  intros Inj. unfold str_eqb.
  destruct (str_eq_dec (mk a) (mk b)) as [E|N], (str_eq_dec a b) as [E'|N'];
    trivial; [apply Inj in E|]; congruence.
Qed.

Lemma entity_pairs_closed fid l :
  entity_pairs fid l =
  map (fun ab => related_edge ENTITY_RELATED_TO_ENTITY fid
                   (ent_id_of (fst ab)) (ent_id_of (snd ab))) (pairs l).
Proof.
  unfold entity_pairs.
  apply (index_pairs [] (fun a b => related_edge ENTITY_RELATED_TO_ENTITY fid
                                      (ent_id_of a) (ent_id_of b))).
Qed.

(** A filter on the file attribution sees only the block of that file. *)
Lemma filter_build_tagged src fp (g : edge -> bool) :
  In fp (registered src) ->
  (forall e, g e = true -> e_attr e = from_file (file_id_of (snd fp))) ->
  filter g (edges (build src)) = filter g (cooccurrence (kept src fp)).
Proof.
  intros Hr G. rewrite build_edges, filter_app.
  rewrite (filter_flat_map_nil g (fun fp => containment src (snd fp))).
  2:{ intros x e _ He. apply not_true_false. intros Q. apply G in Q.
      apply containment_In in He.
      destruct He as (_ & [(_ & t & _ & _ & A)|(_ & t & _ & _ & A)]); congruence. }
  destruct (file_texts_spec src) as [ND _].
  pose proof (registered_kept src fp Hr) as Hk.
  apply in_split in Hk. destruct Hk as (l1 & l2 & E). rewrite E in *.
  unfold dict_keys in ND. rewrite map_app in ND. simpl in ND.
  apply NoDup_remove_2 in ND.
  rewrite flat_map_app. simpl. rewrite !filter_app.
  rewrite (filter_flat_map_nil g _ l1), (filter_flat_map_nil g _ l2).
  - now rewrite app_nil_r.
  - intros item e Hi He. apply not_true_false. intros Q. apply G in Q.
    apply cooccurrence_In in He. destruct He as (A & _).
    rewrite A in Q. injection Q as Q. apply ND, in_app_iff. right.
    change (In (file_id_of (snd fp)) (map fst l2)).
    rewrite <- Q. now apply in_map.
  - intros item e Hi He. apply not_true_false. intros Q. apply G in Q.
    apply cooccurrence_In in He. destruct He as (A & _).
    rewrite A in Q. injection Q as Q. apply ND, in_app_iff. left.
    change (In (file_id_of (snd fp)) (map fst l1)).
    rewrite <- Q. now apply in_map.
Qed.

Lemma tagged_related ty ty' fid a b :
  tagged ty fid (related_edge ty' fid a b) = edge_type_eqb ty' ty.
Proof. unfold tagged. simpl. now rewrite str_eqb_refl, andb_true_r. Qed.

(** C2. For a registered file whose text has [n] distinct entities and
    [m] distinct topics, the second pass appends exactly [n (n - 1) / 2]
    ENTITY_RELATED_TO_ENTITY edges attributed to the file: each joins two
    distinct entities of the text, and each unordered pair of distinct
    entities is joined by exactly one of them; and it appends exactly
    [n m] ENTITY_RELATED_TO_TOPIC edges attributed to the file, exactly
    one for each entity and topic. *)
Theorem cooccurrence_edge_counts (src : sources) (f path : str) :
  set_iter_ok R ->
  In (f, path) (walked src) ->
  strip (extract_text src path) <> [] ->
  let fid := file_id_of path in
  let n := length (dedup (entities_of src path)) in
  let m := length (dedup (topics_of src path)) in
  let E := edges (build src) in
  length (filter (tagged ENTITY_RELATED_TO_ENTITY fid) E) = n * (n - 1) / 2 /\
  (forall a b,
      In a (entities_of src path) -> In b (entities_of src path) -> a <> b ->
      length
        (filter
           (fun e => tagged ENTITY_RELATED_TO_ENTITY fid e &&
                     (joins ENTITY_RELATED_TO_ENTITY (ent_id_of a) (ent_id_of b) e ||
                      joins ENTITY_RELATED_TO_ENTITY (ent_id_of b) (ent_id_of a) e))
           E) = 1) /\
  (forall e,
      In e E -> tagged ENTITY_RELATED_TO_ENTITY fid e = true ->
      exists a b, a <> b /\ In a (entities_of src path) /\ In b (entities_of src path) /\
                  e_from e = ent_id_of a /\ e_to e = ent_id_of b) /\
  length (filter (tagged ENTITY_RELATED_TO_TOPIC fid) E) = n * m /\
  (forall a t,
      In a (entities_of src path) -> In t (topics_of src path) ->
      length
        (filter
           (fun e => tagged ENTITY_RELATED_TO_TOPIC fid e &&
                     joins ENTITY_RELATED_TO_TOPIC (ent_id_of a) (top_id_of t) e)
           E) = 1).
Proof.
  intros SI Hw NB fid n m E.
  assert (In (f, path) (registered src)) as Hr by (apply registered_In; auto).
  set (ents := set_iter (entities_of src path)).
  set (tops := set_iter (topics_of src path)).
  assert (NoDup ents) as NDe by apply SI.
  assert (NoDup tops) as NDt by apply SI.
  assert (cooccurrence (kept src (f, path))
          = entity_pairs fid ents ++ entity_topic_pairs fid ents tops) as Hc
    by reflexivity.
  assert (forall g,
             (forall e, g e = true -> e_attr e = from_file fid) ->
             filter g E = filter g (entity_pairs fid ents)
                          ++ filter g (entity_topic_pairs fid ents tops)) as Red.
  { intros g G. subst E. rewrite (filter_build_tagged src (f, path)); trivial.
    now rewrite Hc, filter_app. }
  assert (forall e, In e (entity_pairs fid ents) ->
                    tagged ENTITY_RELATED_TO_ENTITY fid e = true /\
                    tagged ENTITY_RELATED_TO_TOPIC fid e = false) as Tee.
  { intros e He. rewrite entity_pairs_closed in He. apply in_map_iff in He.
    destruct He as (ab & <- & _). now rewrite !tagged_related. }
  assert (forall e, In e (entity_topic_pairs fid ents tops) ->
                    tagged ENTITY_RELATED_TO_ENTITY fid e = false /\
                    tagged ENTITY_RELATED_TO_TOPIC fid e = true) as Tet.
  { intros e He. unfold entity_topic_pairs in He. apply in_flat_map in He.
    destruct He as (a & _ & He). apply in_map_iff in He.
    destruct He as (t & <- & _). now rewrite !tagged_related. }
  split; [|split; [|split; [|split]]].
  - rewrite Red by (intros e Q; now apply tagged_iff in Q).
    rewrite filter_all by (intros e He; now apply Tee).
    rewrite filter_nil by (intros e He; now apply Tet).
    rewrite app_nil_r, entity_pairs_closed, length_map, length_pairs.
    unfold ents. now rewrite set_iter_length.
  - intros a b Ha Hb N.
    rewrite Red.
    2:{ intros e Q. apply andb_true_iff in Q. destruct Q as [Q _].
        now apply tagged_iff in Q. }
    rewrite (filter_nil _ (entity_topic_pairs fid ents tops)).
    2:{ intros e He. apply Tet in He. destruct He as [-> _]. reflexivity. }
    rewrite app_nil_r, entity_pairs_closed, filter_map_comm, length_map.
    rewrite (filter_ext _ (unordered a b)).
    + apply pairs_count; trivial; now apply SI.
    + intros [x y]. rewrite tagged_related. unfold joins, unordered. simpl.
      now rewrite !(id_eqb ent_id_of _ _ ent_id_inj).
  - intros e He Q. subst E. apply build_edges_In in He.
    destruct He as [(fp & _ & He)|(fp & Hfp & He)].
    + apply containment_In in He. apply tagged_iff in Q.
      destruct He as (_ & [(_ & t & _ & _ & A)|(_ & t & _ & _ & A)]), Q as [_ Q];
        congruence.
    + apply tagged_iff in Q. destruct Q as [Ty Q].
      pose proof (cooccurrence_In _ _ He) as (A & _). simpl in A.
      assert (snd fp = path) as P.
      { rewrite A in Q. now injection Q. }
      rewrite P in He. change (In e (cooccurrence (kept src (f, path)))) in He.
      rewrite Hc in He. apply in_app_iff in He. destruct He as [He|He].
      * rewrite entity_pairs_closed in He. apply in_map_iff in He.
        destruct He as ([a b] & <- & Hab). simpl.
        pose proof (pairs_distinct _ _ _ NDe Hab) as N.
        apply pairs_In in Hab. destruct Hab as [Ha Hb].
        exists a, b. repeat split; trivial; now apply (set_iter_In _ _ SI).
      * apply Tet in He. destruct He as [He _].
        assert (tagged ENTITY_RELATED_TO_ENTITY fid e = true) as Q'
          by (apply tagged_iff; auto).
        congruence.
  - rewrite Red by (intros e Q; now apply tagged_iff in Q).
    rewrite filter_nil by (intros e He; now apply Tee).
    rewrite filter_all by (intros e He; now apply Tet).
    unfold entity_topic_pairs. cbn [app].
    rewrite (length_flat_map_const _ _ (length tops))
      by (intros x; apply length_map).
    unfold ents, tops. now rewrite !set_iter_length.
  - intros a t Ha Ht.
    rewrite Red.
    2:{ intros e Q. apply andb_true_iff in Q. destruct Q as [Q _].
        now apply tagged_iff in Q. }
    rewrite (filter_nil _ (entity_pairs fid ents)).
    2:{ intros e He. apply Tee in He. destruct He as [_ ->]. reflexivity. }
    simpl. unfold entity_topic_pairs.
    apply (proj2 (SI _ ) a) in Ha. fold ents in Ha.
    apply (proj2 (SI _ ) t) in Ht. fold tops in Ht.
    clear -Ha Ht NDe NDt. induction ents as [|x l IH]; [contradiction|].
    inversion NDe as [|? ? NI ND']; subst.
    cbn [flat_map]. rewrite filter_app, length_app, filter_map_comm, length_map.
    rewrite (filter_ext _ (fun y => str_eqb x a && str_eqb y t)).
    2:{ intros y. rewrite tagged_related. unfold joins. simpl.
        now rewrite (id_eqb ent_id_of _ _ ent_id_inj),
          (id_eqb top_id_of _ _ top_id_inj). }
    destruct (str_eq_dec x a) as [->|N].
    + rewrite str_eqb_refl. simpl. rewrite count_one; trivial.
      rewrite filter_nil; trivial.
      intros e He. apply in_flat_map in He. destruct He as (x & Hx & He).
      apply in_map_iff in He. destruct He as (y & <- & _).
      rewrite tagged_related. unfold joins. simpl.
      rewrite (id_eqb ent_id_of _ _ ent_id_inj).
      destruct (str_eqb x a) eqn:Q; trivial. apply str_eqb_eq in Q. now subst.
    + destruct Ha as [Ha|Ha]; [congruence|].
      rewrite filter_nil.
      * simpl. now apply IH.
      * intros y _. destruct (str_eqb x a) eqn:Q; trivial.
        apply str_eqb_eq in Q. congruence.
Qed.

End Cooccurrence.

(** ** The Graphviz export *)

Section Graphviz.
Context {R : PyRuntime}.

Lemma count_occ_head (a : N) (l : str) (c : N) :
  count_occ N.eq_dec (a :: l) c
  = (if N.eq_dec c a then 1 else 0) + count_occ N.eq_dec l c.
Proof.
  simpl. destruct (N.eq_dec a c), (N.eq_dec c a); try congruence; lia.
Qed.

(** C10. The export writes, between the header and the closing brace,
    one line per file node, entity node and topic node and then one line
    per edge.  A node line is two spaces, a double quote, the id, a double
    quote, the text [ [label=], a double quote, the name, a double quote,
    the text [ shape=], the shape and the text [];]; an edge line is made
    the same way of the two endpoint ids and one of the four type tags.
    Nothing is escaped: a double quote occurs in a node line four times
    (six in an edge line) plus as often as in the spliced fields, and any
    other character, a backslash or a newline among them, as often as in
    the fixed text plus the spliced fields. *)
Theorem gv_lines_verbatim (st : state) :
  gv_lines st =
    [lit "graph G {"]
    ++ map (node_line (lit "box")) (dict_values (file_nodes (nodes st)))
    ++ map (node_line (lit "ellipse")) (dict_values (entity_nodes (nodes st)))
    ++ map (node_line (lit "diamond")) (dict_values (topic_nodes (nodes st)))
    ++ map edge_line (edges st)
    ++ [lit "}"] /\
  (forall shape nd,
      node_line shape nd =
        lit "  " ++ 34%N :: n_id nd ++ 34%N :: lit " [label=" ++ 34%N :: n_name nd
          ++ 34%N :: lit " shape=" ++ shape ++ lit "];" /\
      forall c,
        count_occ N.eq_dec (node_line shape nd) c =
        (if N.eq_dec c 34 then 4
         else count_occ N.eq_dec (lit "   [label= shape=];") c)
        + count_occ N.eq_dec (n_id nd) c + count_occ N.eq_dec (n_name nd) c
        + count_occ N.eq_dec shape c) /\
  (forall e,
      edge_line e =
        lit "  " ++ 34%N :: e_from e ++ 34%N :: lit " -- " ++ 34%N :: e_to e
          ++ 34%N :: lit " [label=" ++ 34%N ::
          match e_type e with
          | FILE_CONTAINS_ENTITY => lit "FILE_CONTAINS_ENTITY"
          | FILE_CONTAINS_TOPIC => lit "FILE_CONTAINS_TOPIC"
          | ENTITY_RELATED_TO_ENTITY => lit "ENTITY_RELATED_TO_ENTITY"
          | ENTITY_RELATED_TO_TOPIC => lit "ENTITY_RELATED_TO_TOPIC"
          end ++ 34%N :: lit "];" /\
      count_occ N.eq_dec (edge_line e) 34%N =
        6 + count_occ N.eq_dec (e_from e) 34%N + count_occ N.eq_dec (e_to e) 34%N /\
      count_occ N.eq_dec (edge_line e) 92%N =
        count_occ N.eq_dec (e_from e) 92%N + count_occ N.eq_dec (e_to e) 92%N /\
      count_occ N.eq_dec (edge_line e) 10%N =
        count_occ N.eq_dec (e_from e) 10%N + count_occ N.eq_dec (e_to e) 10%N).
Proof.
  split; [|split].
  - unfold gv_lines. cbv zeta. rewrite !fold_snoc_map. now rewrite <- !app_assoc.
  - intros shape nd.
    assert (node_line shape nd =
              lit "  " ++ 34%N :: n_id nd ++ 34%N :: lit " [label=" ++ 34%N :: n_name nd
                ++ 34%N :: lit " shape=" ++ shape ++ lit "];") as E by reflexivity.
    split; [exact E|]. intros c. rewrite E.
    change (lit "   [label= shape=];")
      with (lit "  " ++ lit " [label=" ++ lit " shape=" ++ lit "];").
    repeat (rewrite ?count_occ_app, ?count_occ_head).
    destruct (N.eq_dec c 34) as [->|_]; [|lia].
    change (count_occ N.eq_dec (lit "  ") 34%N) with 0.
    change (count_occ N.eq_dec (lit " [label=") 34%N) with 0.
    change (count_occ N.eq_dec (lit " shape=") 34%N) with 0.
    change (count_occ N.eq_dec (lit "];") 34%N) with 0.
    lia.
  - intros e.
    assert (edge_line e =
              lit "  " ++ 34%N :: e_from e ++ 34%N :: lit " -- " ++ 34%N :: e_to e
                ++ 34%N :: lit " [label=" ++ 34%N :: type_name (e_type e)
                ++ 34%N :: lit "];") as E by reflexivity.
    assert (forall c, In c [34%N; 92%N; 10%N] ->
              count_occ N.eq_dec (type_name (e_type e)) c = 0) as T.
    { intros c Hc. apply count_occ_not_In. intros H.
      destruct (e_type e); vm_compute in H, Hc; intuition congruence. }
    split; [rewrite E; now destruct (e_type e)|].
    rewrite E. repeat (rewrite ?count_occ_app, ?count_occ_head).
    rewrite !T by (simpl; auto).
    split; [|split]; vm_compute (count_occ N.eq_dec (lit _) _);
      repeat match goal with
             | |- context [N.eq_dec ?a ?b] => destruct (N.eq_dec a b); try discriminate
             end; lia.
Qed.

End Graphviz.

(** ** The claims on concrete runs *)

Section Runs.

#[local] Existing Instance ascii_runtime.

Lemma ascii_set_iter_ok : set_iter_ok ascii_runtime.
Proof. intros l. split; [apply dedup_NoDup|intros x; apply dedup_In]. Qed.

Lemma ascii_uni_lower_ok : uni_lower_ok ascii_runtime.
Proof.
  intros t i c. simpl. destruct (nth_error t i) as [d|]; [|intros []].
  destruct (is_upper d) eqn:E; [intros []|]. now intros [<-|[]].
Qed.

(** The extractors on sample texts. *)
Example find_entities_a_txt : find_entities a_txt = [lit "Acme Corp"; lit "Acme Corp"].
Proof. vm_compute. reflexivity. Qed.

Example find_entities_sample :
  find_entities
    (lit "The Project And USA a Bc De F Gh" ++ [9%N] ++ lit "Ij  Kl9 x9Ab Ab_C the The")
  = [lit "The Project And USA"; lit "Bc De"; lit "Gh" ++ [9%N] ++ lit "Ij  Kl9"].
Proof. vm_compute. reflexivity. Qed.

Example find_topics_a_txt : find_topics a_txt default_top_n = [lit "migration"].
Proof. vm_compute. reflexivity. Qed.

Example find_topics_sample :
  find_topics
    (lit "zebra apple apple Zebra banana banana cherry cloud clouds APPLE x12345 hello_world")
    3
  = [lit "apple"; lit "zebra"; lit "banana"].
Proof. vm_compute. reflexivity. Qed.

(** C1.  The code on a file saying a word twice: the word is twice among
    the topic candidates of the text, and the weights of the file's
    containment edges to the topic add up to 1, not to the 2 occurrences.
    [find_topics] returns the ranked words without their frequencies, and
    the script counts that list of distinct words again. *)
Lemma twice_alpha_topic_weight :
  let path := lit "./source/t.txt" in
  let occurrences := topic_words (extract_text twice_alpha path) in
  let es :=
    filter (joins FILE_CONTAINS_TOPIC (file_id_of path) (top_id_of (lit "alpha")))
      (edges (build twice_alpha)) in
  In (lit "t.txt", path) (registered twice_alpha) /\
  In (lit "alpha") (topics_of twice_alpha path) /\
  occurrences = [lit "alpha"; lit "alpha"] /\
  weight_sum es = 1 /\
  weight_sum es <> count_occ str_eq_dec occurrences (lit "alpha").
Proof.
  cbv zeta. split; [|split; [|split; [|split]]]; vm_compute;
    try reflexivity; try discriminate; auto.
Qed.

(** C3.  The code on a file saying a word twice: the word occurs twice in
    the only registered file, its global counter is 1, and the summary
    prints it with 1 occurrences. *)
Lemma twice_alpha_topic_total :
  let raw :=
    list_sum
      (map (fun fp => count_occ str_eq_dec
                        (topic_words (extract_text twice_alpha (snd fp))) (lit "alpha"))
         (registered twice_alpha)) in
  registered twice_alpha = [(lit "t.txt", lit "./source/t.txt")] /\
  raw = 2 /\
  counter_get (topic_global_counts (build twice_alpha)) (lit "alpha") <> raw /\
  In (lit "- alpha (1 occurrences)") (summary_lines (build twice_alpha)).
Proof.
  cbv zeta. split; [|split; [|split]]; vm_compute;
    try reflexivity; try discriminate.
  do 6 right. left. reflexivity.
Qed.

(** The quote and the backslash of a file name, and the newline of an
    entity, reach the output as they are. *)
Example gv_lines_odd_names :
  nth 1 (gv_lines (build odd_names)) [] =
    lit "  " ++ [34%N] ++ lit "file:./source/a" ++ [34%N] ++ lit "b\.txt" ++ [34%N]
      ++ lit " [label=" ++ [34%N] ++ lit "a" ++ [34%N] ++ lit "b\.txt" ++ [34%N]
      ++ lit " shape=box];" /\
  nth 2 (gv_lines (build odd_names)) [] =
    lit "  " ++ [34%N] ++ lit "entity:Acme" ++ [10%N] ++ lit "Corp" ++ [34%N]
      ++ lit " [label=" ++ [34%N] ++ lit "Acme" ++ [10%N] ++ lit "Corp" ++ [34%N]
      ++ lit " shape=ellipse];".
Proof. split; vm_compute; reflexivity. Qed.

(** The end-to-end scenario of two files. *)
Example two_files_scenario :
  map n_name (dict_values (entity_nodes (nodes (build two_files))))
    = [lit "Acme Corp"; lit "Globex Inc"] /\
  filter (joins FILE_CONTAINS_ENTITY (lit "file:./source/a.txt") (lit "entity:Acme Corp"))
    (edges (build two_files))
    = [{| e_type := FILE_CONTAINS_ENTITY; e_from := lit "file:./source/a.txt";
          e_to := lit "entity:Acme Corp"; e_attr := weight 2 |}] /\
  filter (tagged ENTITY_RELATED_TO_ENTITY (lit "file:./source/a.txt"))
    (edges (build two_files)) = [] /\
  filter (tagged ENTITY_RELATED_TO_ENTITY (lit "file:./source/b.txt"))
    (edges (build two_files))
    = [{| e_type := ENTITY_RELATED_TO_ENTITY; e_from := lit "entity:Acme Corp";
          e_to := lit "entity:Globex Inc";
          e_attr := from_file (lit "file:./source/b.txt") |}] /\
  In (lit "- Acme Corp (3 mentions)") (summary_lines (build two_files)).
Proof.
  repeat split; try (vm_compute; reflexivity).
  vm_compute. do 5 right. left. reflexivity.
Qed.

(** C4, as stated, fails: the empty file is walked and gets no node. *)
Lemma zero_byte_file_has_no_node :
  In (lit "empty.txt", lit "./source/empty.txt") (walked zero_byte) /\
  extract_text zero_byte (lit "./source/empty.txt") = [] /\
  ~ In (file_id_of (lit "./source/empty.txt"))
       (dict_keys (file_nodes (nodes (build zero_byte)))).
Proof.
  split; [|split].
  - vm_compute. auto.
  - reflexivity.
  - vm_compute. intros [].
Qed.

(** C5, as stated, fails: two files of the same base name in two
    directories give two file nodes of that name. *)
Lemma same_name_files_share_a_name : ~ names_unique (build same_name).
Proof.
  intros H. specialize (H file). vm_compute in H.
  inversion H as [|? ? NI _]. apply NI. now left.
Qed.

Lemma blank_file_is_skipped_witness :
  strip (extract_text zero_byte (lit "./source/empty.txt")) = [] /\
  ~ In (file_id_of (lit "./source/empty.txt"))
       (dict_keys (file_nodes (nodes (build zero_byte)))).
Proof.
  split; [reflexivity|].
  apply (blank_file_is_skipped zero_byte (lit "./source/empty.txt")). reflexivity.
Defined.

Lemma containment_edge_weights_witness :
  NoDup (map snd (walked two_files)) /\
  In (lit "a.txt", lit "./source/a.txt") (walked two_files) /\
  strip (extract_text two_files (lit "./source/a.txt")) <> [] /\
  In (lit "Acme Corp") (entities_of two_files (lit "./source/a.txt")) /\
  weight_sum
    (filter (joins FILE_CONTAINS_ENTITY (file_id_of (lit "./source/a.txt"))
               (ent_id_of (lit "Acme Corp")))
       (edges (build two_files))) = 2.
Proof.
  assert (NoDup (map snd (walked two_files))) as ND.
  { vm_compute. repeat constructor; simpl; intuition discriminate. }
  assert (In (lit "a.txt", lit "./source/a.txt") (walked two_files)) as Hw
    by (vm_compute; auto).
  assert (strip (extract_text two_files (lit "./source/a.txt")) <> []) as NB
    by (vm_compute; discriminate).
  assert (In (lit "Acme Corp") (entities_of two_files (lit "./source/a.txt"))) as Ht
    by (vm_compute; auto).
  split; [exact ND|]. split; [exact Hw|]. split; [exact NB|]. split; [exact Ht|].
  destruct (containment_edge_weights two_files (lit "a.txt") (lit "./source/a.txt")
              (lit "Acme Corp") ND Hw NB) as [He _].
  destruct (He Ht) as [_ W]. exact W.
Defined.

Lemma cooccurrence_edge_counts_witness :
  set_iter_ok ascii_runtime /\
  In (lit "b.txt", lit "./source/b.txt") (walked two_files) /\
  strip (extract_text two_files (lit "./source/b.txt")) <> [] /\
  length (filter (tagged ENTITY_RELATED_TO_ENTITY (file_id_of (lit "./source/b.txt")))
            (edges (build two_files))) = 1 /\
  length (filter (tagged ENTITY_RELATED_TO_TOPIC (file_id_of (lit "./source/b.txt")))
            (edges (build two_files))) = 4.
Proof.
  assert (In (lit "b.txt", lit "./source/b.txt") (walked two_files)) as Hw
    by (vm_compute; auto).
  assert (strip (extract_text two_files (lit "./source/b.txt")) <> []) as NB
    by (vm_compute; discriminate).
  split; [exact ascii_set_iter_ok|]. split; [exact Hw|]. split; [exact NB|].
  destruct (cooccurrence_edge_counts two_files (lit "b.txt") (lit "./source/b.txt")
              ascii_set_iter_ok Hw NB) as (C1 & _ & _ & C2 & _).
  split; [exact C1|exact C2].
Defined.

Lemma edges_join_existing_nodes_witness :
  set_iter_ok ascii_runtime /\
  map fst (created (build two_files)) = edges (build two_files) /\
  Forall (fun en => endpoints_in (snd en) (fst en)) (created (build two_files)).
Proof.
  split; [exact ascii_set_iter_ok|].
  destruct (edges_join_existing_nodes two_files ascii_set_iter_ok) as (A & B & _).
  split; [exact A|exact B].
Defined.

Lemma find_topics_ranked_witness :
  uni_lower_ok ascii_runtime /\
  length (find_topics b_txt 1) <= 1 /\
  StronglySorted (outranks (topic_words b_txt)) (find_topics b_txt 1).
Proof.
  split; [exact ascii_uni_lower_ok|].
  destruct (find_topics_ranked b_txt 1 ascii_uni_lower_ok) as (A & _ & _ & B & _).
  split; [exact A|exact B].
Defined.

End Runs.

(** ** The node collections in closed form *)

Section NodeCollections.
Context {R : PyRuntime}.

Lemma dict_set_absent {V} k (v : V) d :
  ~ In k (dict_keys d) -> dict_set k v d = d ++ [(k, v)].
Proof.
  unfold dict_keys. induction d as [|[k' v'] d IH]; simpl; intros N; trivial.
  destruct (str_eq_dec k' k) as [->|_]; [tauto|]. f_equal. apply IH. tauto.
Qed.

Lemma str_in_map_inj (mk : str -> str) t ks :
  (forall a b, mk a = mk b -> a = b) ->
  str_in (mk t) (map mk ks) = str_in t ks.
Proof.
  intros Inj. induction ks as [|k ks IH]; simpl; trivial.
  now rewrite IH, (id_eqb mk _ _ Inj).
Qed.

Lemma keys_term_nodes ty mk ks : dict_keys (map (term_node ty mk) ks) = map mk ks.
Proof. unfold dict_keys. rewrite map_map. reflexivity. Qed.

(** Making sure of the nodes of a run of terms lists the distinct terms
    in the order they are first met. *)
Lemma ensure_fold_closed ty mk ts :
  (forall a b, mk a = mk b -> a = b) ->
  forall ks,
    fold_left (ensure_term ty mk) ts (map (term_node ty mk) ks)
    = map (term_node ty mk) (fold_left dedup_step ts ks).
Proof.
  intros Inj. induction ts as [|t ts IH]; intros ks; simpl; trivial.
  rewrite <- IH. f_equal. unfold ensure_term, dict_mem, dedup_step.
  fold (dict_keys (map (term_node ty mk) ks)).
  rewrite keys_term_nodes, (str_in_map_inj mk t ks Inj).
  destruct (str_in t ks) eqn:E; trivial.
  rewrite dict_set_absent.
  - now rewrite map_app.
  - rewrite keys_term_nodes. intros H. apply in_map_iff in H.
    destruct H as (k & Ek & Hk). apply Inj in Ek. subst.
    apply str_in_false in E. contradiction.
Qed.

Lemma contain_nodes ty ety mk fid items : forall st,
  get_nodes ty (nodes (fold_left (contain ty ety mk fid) items st))
  = fold_left (ensure_term ty mk) (map fst items) (get_nodes ty (nodes st)) /\
  (forall ty', ty <> ty' ->
     get_nodes ty' (nodes (fold_left (contain ty ety mk fid) items st))
     = get_nodes ty' (nodes st)).
Proof.
  induction items as [|[t n] items IH]; intros st; cbn [fold_left map fst].
  - split; trivial.
  - destruct (IH (contain ty ety mk fid st (t, n))) as [A B]. split.
    + rewrite A. f_equal. unfold contain, ensure_term, ensure_node. simpl.
      destruct (dict_mem (mk t) (get_nodes ty (nodes st))); trivial.
      simpl. now rewrite get_put_same.
    + intros ty' N. rewrite (B ty' N). unfold contain, ensure_node. simpl.
      destruct (dict_mem (mk t) (get_nodes ty (nodes st))); trivial.
      simpl. now rewrite get_put_other.
Qed.

Lemma collect_nodes st f path text :
  strip text <> [] ->
  let st' := collect st f path text in
  file_nodes (nodes st') =
    dict_set (fst (file_node (f, path))) (snd (file_node (f, path)))
      (file_nodes (nodes st)) /\
  entity_nodes (nodes st') =
    fold_left (ensure_term entity ent_id_of) (dedup (find_entities text))
      (entity_nodes (nodes st)) /\
  topic_nodes (nodes st') =
    fold_left (ensure_term topic top_id_of) (dedup (find_topics text default_top_n))
      (topic_nodes (nodes st)).
Proof.
  intros NB. unfold collect. destruct (strip text) as [|c s]; [congruence|]. clear NB.
  cbv zeta.
  match goal with
  | |- context [fold_left ?f2 ?i2 (fold_left ?f1 ?i1 ?s0)] =>
      destruct (contain_nodes topic FILE_CONTAINS_TOPIC top_id_of (file_id_of path)
                  i2 (fold_left f1 i1 s0)) as (T2 & O2);
      destruct (contain_nodes entity FILE_CONTAINS_ENTITY ent_id_of (file_id_of path)
                  i1 s0) as (T1 & O1)
  end.
  pose proof (O2 file) as F2. pose proof (O2 entity) as E2.
  pose proof (O1 file) as F1. pose proof (O1 topic) as P1.
  simpl get_nodes in *.
  rewrite F2, E2, T2, F1, T1, P1 by discriminate.
  rewrite !keys_Counter. simpl. repeat split.
Qed.

Lemma visits_nodes src l : forall st,
  let reg := filter (fun fp => negb (is_blank (extract_text src (snd fp)))) l in
  let st' := fold_left (visit src) l st in
  file_nodes (nodes st') =
    fold_left (fun d fp => dict_set (fst (file_node fp)) (snd (file_node fp)) d) reg
      (file_nodes (nodes st)) /\
  entity_nodes (nodes st') =
    fold_left (ensure_term entity ent_id_of)
      (flat_map (fun fp => dedup (entities_of src (snd fp))) reg)
      (entity_nodes (nodes st)) /\
  topic_nodes (nodes st') =
    fold_left (ensure_term topic top_id_of)
      (flat_map (fun fp => dedup (topics_of src (snd fp))) reg)
      (topic_nodes (nodes st)).
Proof.
  induction l as [|fp l IH]; intros st; cbn [fold_left filter]; cbv zeta.
  - repeat split.
  - destruct (is_blank (extract_text src (snd fp))) eqn:B; cbn [negb].
    + apply is_blank_strip in B. unfold visit at 2 4 6.
      rewrite collect_blank by trivial. apply IH.
    + assert (strip (extract_text src (snd fp)) <> []) as NB.
      { intros E. apply is_blank_strip in E. congruence. }
      destruct (collect_nodes st (fst fp) (snd fp) _ NB) as (F & E & T).
      fold (visit src st fp) in F, E, T.
      destruct (IH (visit src st fp)) as (F' & E' & T').
      rewrite F', E', T', F, E, T.
      cbn [flat_map fold_left]. rewrite !fold_left_app.
      destruct fp as [f p]. repeat split.
Qed.

Lemma dedup_from_flat_dedup {A} (g : A -> list str) l : forall acc,
  fold_left dedup_step (flat_map (fun x => dedup (g x)) l) acc
  = fold_left dedup_step (flat_map g l) acc.
Proof.
  induction l as [|x l IH]; intros acc; simpl; trivial.
  now rewrite !fold_left_app, dedup_from_dedup, IH.
Qed.

(** The entity and topic collections hold one record per distinct term of
    the registered files, in the order the terms are first met. *)
Lemma term_nodes_closed src :
  entity_nodes (nodes (build src))
    = map (term_node entity ent_id_of) (dedup (all_entities src)) /\
  topic_nodes (nodes (build src))
    = map (term_node topic top_id_of) (dedup (all_topics src)).
Proof.
  rewrite build_nodes, first_pass_visit.
  destruct (visits_nodes src (walked src) init) as (_ & E & T).
  fold (registered src) in E, T. rewrite E, T. simpl.
  change (@nil (str * node)) with (map (term_node entity ent_id_of) []) at 1.
  rewrite (ensure_fold_closed _ _ _ ent_id_inj).
  change (@nil (str * node)) with (map (term_node topic top_id_of) []).
  rewrite (ensure_fold_closed _ _ _ top_id_inj).
  unfold all_entities, all_topics.
  split; f_equal.
  - apply (dedup_from_flat_dedup (fun fp => entities_of src (snd fp))).
  - apply (dedup_from_flat_dedup (fun fp => topics_of src (snd fp))).
Qed.

Lemma file_nodes_fold src :
  file_nodes (nodes (build src))
  = fold_left (fun d fp => dict_set (fst (file_node fp)) (snd (file_node fp)) d)
      (registered src) [].
Proof.
  rewrite build_nodes, first_pass_visit.
  destruct (visits_nodes src (walked src) init) as (F & _). exact F.
Qed.

Lemma fold_dict_set_keys {A V} (g : A -> str * V) l : forall d,
  dict_keys (fold_left (fun d x => dict_set (fst (g x)) (snd (g x)) d) l d)
  = fold_left dedup_step (map (fun x => fst (g x)) l) (dict_keys d).
Proof.
  induction l as [|x l IH]; intros d; simpl; trivial.
  now rewrite IH, keys_dict_set.
Qed.

(** Filling a dictionary under keys that are all new and distinct appends
    the entries. *)
Lemma fold_dict_set_fresh {A V} (g : A -> str * V) l : forall d,
  NoDup (dict_keys d ++ map (fun x => fst (g x)) l) ->
  fold_left (fun d x => dict_set (fst (g x)) (snd (g x)) d) l d = d ++ map g l.
Proof.
  induction l as [|x l IH]; intros d ND; simpl.
  - now rewrite app_nil_r.
  - simpl in ND. pose proof (NoDup_remove_2 _ _ _ ND) as NI.
    rewrite dict_set_absent by (intros H; apply NI, in_app_iff; now left).
    rewrite IH.
    + rewrite <- app_assoc. simpl. now destruct (g x).
    + unfold dict_keys in *. rewrite map_app, <- app_assoc. exact ND.
Qed.

End NodeCollections.

(** ** What the built graph holds *)

Section BuiltGraph.
Context {R : PyRuntime}.

(** X1. The entity list and the topic list of the exported graph hold one
    record (id, type, name) per distinct term of the registered files, in
    the order the terms are first met during the walk; the global
    counters have the same names as keys, in the same order. *)
Theorem term_nodes_in_first_met_order (src : sources) :
  let g := graph (build src) in
  g_entity g =
    map (fun t => {| n_id := ent_id_of t; n_type := entity; n_name := t;
                     n_path := None |}) (dedup (all_entities src)) /\
  g_topic g =
    map (fun t => {| n_id := top_id_of t; n_type := topic; n_name := t;
                     n_path := None |}) (dedup (all_topics src)) /\
  map n_name (g_entity g) = map fst (entity_global_counts (build src)) /\
  map n_name (g_topic g) = map fst (topic_global_counts (build src)).
Proof.
  cbv zeta. unfold graph. cbn [g_entity g_topic].
  destruct (term_nodes_closed src) as [E T]. rewrite E, T.
  destruct (build_globals src) as [G1 G2]. rewrite G1, G2, !keys_Counter.
  unfold dict_values. rewrite !map_map. cbn [term_node snd n_name].
  repeat split. 1,2: now rewrite map_id.
Qed.

Lemma NoDup_map_inj {A B} (g : A -> B) l :
  (forall a b, g a = g b -> a = b) -> NoDup l -> NoDup (map g l).
Proof.
  intros Inj. induction 1 as [|x l NI ND IH]; simpl; constructor; trivial.
  intros H. apply in_map_iff in H. destruct H as (y & E & Hy).
  apply Inj in E. now subst.
Qed.

(** X2. In a walk that meets each path once, the file list of the
    exported graph holds one record per registered file, in walk order,
    with the file's base name as name and its joined path as path. *)
Theorem file_nodes_in_walk_order (src : sources) :
  NoDup (map snd (walked src)) ->
  g_file (graph (build src)) =
    map (fun fp => {| n_id := file_id_of (snd fp); n_type := file;
                      n_name := fst fp; n_path := Some (snd fp) |})
      (registered src).
Proof.
  intros ND. unfold graph. cbn [g_file]. rewrite file_nodes_fold.
  rewrite (fold_dict_set_fresh file_node).
  - unfold dict_values. simpl. now rewrite map_map.
  - simpl. rewrite <- (map_map snd file_id_of).
    apply NoDup_map_inj; [exact file_id_inj|].
    now apply NoDup_map_filter.
Qed.

(** X3. The three statistics count the distinct registered paths, the
    distinct entities and the distinct topics of the registered files;
    the last two are also the sizes of the global counters; and they are
    the numbers the summary prints in its second to fourth lines. *)
Theorem stats_count_distinct (src : sources) :
  let s := g_stats (graph (build src)) in
  num_files s = length (dedup (map (fun fp => file_id_of (snd fp)) (registered src))) /\
  num_entities s = length (dedup (all_entities src)) /\
  num_topics s = length (dedup (all_topics src)) /\
  num_entities s = length (entity_global_counts (build src)) /\
  num_topics s = length (topic_global_counts (build src)) /\
  nth 1 (summary_lines (build src)) [] = lit "- Files: " ++ str_of_nat (num_files s) /\
  nth 2 (summary_lines (build src)) [] = lit "- Entities: " ++ str_of_nat (num_entities s) /\
  nth 3 (summary_lines (build src)) [] =
    lit "- Topics: " ++ str_of_nat (num_topics s) ++ newline.
Proof.
  cbv zeta. unfold graph. cbn [g_stats num_files num_entities num_topics].
  destruct (term_nodes_closed src) as [E T]. rewrite E, T, !length_map.
  destruct (build_globals src) as [G1 G2]. rewrite G1, G2.
  rewrite <- !(length_map fst (Counter _)), !keys_Counter.
  rewrite summary_lines_closed, E, T, !length_map.
  repeat split.
  rewrite <- (length_map fst (file_nodes _)). fold (dict_keys (file_nodes (nodes (build src)))).
  rewrite file_nodes_fold, fold_dict_set_keys. reflexivity.
Qed.

Lemma visits_registered src l : forall st,
  fold_left (visit src) l st
  = fold_left (visit src)
      (filter (fun fp => negb (is_blank (extract_text src (snd fp)))) l) st.
Proof.
  induction l as [|fp l IH]; intros st; simpl; trivial.
  destruct (is_blank (extract_text src (snd fp))) eqn:B; simpl.
  - apply is_blank_strip in B. unfold visit at 2.
    rewrite collect_blank by trivial. apply IH.
  - apply IH.
Qed.

Lemma walked_prune src : walked (prune src) = registered src.
Proof.
  unfold registered, walked, prune. simpl.
  induction (walk src) as [|[root files] dirs IH]; simpl; trivial.
  rewrite filter_app, IH. f_equal.
  clear. induction files as [|f files IH]; simpl; trivial.
  destruct (is_blank (extract_text src (path_join root f))); simpl; now rewrite IH.
Qed.

(** X4. Files whose text is blank leave no trace: the run on the source
    tree without them ends in the same state, so in the same three
    outputs. *)
Theorem blank_files_leave_no_trace (src : sources) :
  build (prune src) = build src /\
  first_pass src = fold_left (visit src) (registered src) init.
Proof.
  assert (first_pass src = fold_left (visit src) (registered src) init) as F.
  { rewrite first_pass_visit. apply visits_registered. }
  split; trivial. unfold build. f_equal.
  rewrite F, first_pass_visit, walked_prune. reflexivity.
Qed.

Lemma set_iter_nil : set_iter_ok R -> set_iter [] = [].
Proof.
  intros SI. destruct (set_iter []) as [|x l] eqn:E; trivial.
  exfalso. apply (proj2 (SI []) x). rewrite E. now left.
Qed.

(** X5. A registered file always gets its file node, which records its
    path.  When its text holds no entity, no co-occurrence edge is
    attributed to it, whatever its topics; when it holds no topic either,
    no edge at all leaves it. *)
Theorem registered_file_without_terms (src : sources) (f path : str) :
  set_iter_ok R ->
  In (f, path) (walked src) ->
  strip (extract_text src path) <> [] ->
  (exists nd, In (file_id_of path, nd) (file_nodes (nodes (build src))) /\
              n_id nd = file_id_of path /\ n_type nd = file /\ n_path nd = Some path) /\
  (entities_of src path = [] ->
   forall e, In e (edges (build src)) -> e_attr e <> from_file (file_id_of path)) /\
  (entities_of src path = [] -> topics_of src path = [] ->
   forall e, In e (edges (build src)) -> e_from e <> file_id_of path).
Proof.
  intros SI Hw NB.
  assert (In (f, path) (registered src)) as Hr by (apply registered_In; auto).
  split; [|split].
  - destruct (first_pass_inv src) as (OK & _ & CV).
    destruct (CV _ _ (registered_kept src _ Hr)) as (Hk & _). simpl in Hk.
    rewrite build_nodes. apply in_map_iff in Hk.
    destruct Hk as ([k nd] & Ek & Hk). simpl in Ek. subst k.
    destruct (OK file) as [_ F]. rewrite Forall_forall in F.
    destruct (F _ Hk) as (I & T & p & P & Q). simpl in *.
    apply file_id_inj in Q. subst p. now exists nd.
  - intros En e He A. apply build_edges_In in He.
    destruct He as [(fp & _ & He)|(fp & _ & He)].
    + apply containment_In in He.
      destruct He as (_ & [(_ & t & _ & _ & W)|(_ & t & _ & _ & W)]); congruence.
    + pose proof (cooccurrence_In _ _ He) as (A' & a & _ & Ha & _). simpl in A', Ha.
      rewrite A' in A. injection A as A. rewrite A in Ha.
      unfold entities_of in En. rewrite En, (set_iter_nil SI) in Ha. exact Ha.
  - intros En Tn e He Fr. apply build_edges_In in He.
    destruct He as [(fp & _ & He)|(fp & _ & He)].
    + apply containment_In in He. destruct He as (Fr' & He).
      rewrite Fr' in Fr. apply file_id_inj in Fr. subst path.
      rewrite En, Tn in He.
      destruct He as [(_ & t & _ & [] & _)|(_ & t & _ & [] & _)].
    + apply cooccurrence_In in He. destruct He as (_ & a & Fr' & _).
      rewrite Fr' in Fr. discriminate.
Qed.

(** X6. No term node is an orphan: every entity node and every topic node
    of the built graph is the target of a containment edge that leaves
    the node of a registered file. *)
Theorem term_nodes_have_an_edge (src : sources) :
  (forall nd, In nd (g_entity (graph (build src))) ->
     exists e fp, In e (edges (build src)) /\ In fp (registered src) /\
                  e_type e = FILE_CONTAINS_ENTITY /\
                  e_from e = file_id_of (snd fp) /\ e_to e = n_id nd) /\
  (forall nd, In nd (g_topic (graph (build src))) ->
     exists e fp, In e (edges (build src)) /\ In fp (registered src) /\
                  e_type e = FILE_CONTAINS_TOPIC /\
                  e_from e = file_id_of (snd fp) /\ e_to e = n_id nd).
Proof.
  unfold graph. cbn [g_entity g_topic].
  destruct (term_nodes_closed src) as [E T]. rewrite E, T. unfold dict_values.
  split; intros nd H; rewrite map_map in H; apply in_map_iff in H;
    destruct H as (t & <- & Ht); apply (proj1 (dedup_In _ _)) in Ht;
    unfold all_entities, all_topics in Ht;
    apply in_flat_map in Ht; destruct Ht as (fp & Hr & Ht).
  - exists (contain_edge FILE_CONTAINS_ENTITY ent_id_of (file_id_of (snd fp))
              (t, count_occ str_eq_dec (entities_of src (snd fp)) t)), fp.
    repeat split; trivial. rewrite build_edges. apply in_app_iff. left.
    apply in_flat_map. exists fp. split; trivial.
    unfold containment. apply in_app_iff. left. apply in_map, Counter_has, Ht.
  - exists (contain_edge FILE_CONTAINS_TOPIC top_id_of (file_id_of (snd fp))
              (t, count_occ str_eq_dec (topics_of src (snd fp)) t)), fp.
    repeat split; trivial. rewrite build_edges. apply in_app_iff. left.
    apply in_flat_map. exists fp. split; trivial.
    unfold containment. apply in_app_iff. right. apply in_map, Counter_has, Ht.
Qed.

End BuiltGraph.

(** ** Weights, order and size *)

Section Weights.
Context {R : PyRuntime}.

Lemma weight_sum_app a b : weight_sum (a ++ b) = weight_sum a + weight_sum b.
Proof. unfold weight_sum. now rewrite map_app, list_sum_app. Qed.

Lemma weight_sum_flat_map {A} (f : edge -> bool) (g : A -> list edge) l :
  weight_sum (filter f (flat_map g l))
  = list_sum (map (fun x => weight_sum (filter f (g x))) l).
Proof.
  induction l as [|x l IH]; simpl; trivial.
  now rewrite filter_app, weight_sum_app, IH.
Qed.

Lemma weight_sum_contain ety mk fid (c : counter) :
  weight_sum (map (contain_edge ety mk fid) c) = list_sum (map snd c).
Proof. unfold weight_sum. now rewrite map_map. Qed.

(** The counts a counter lists under a key add up to the count looked up. *)
Lemma sum_key (c : counter) k :
  NoDup (map fst c) ->
  list_sum (map snd (filter (fun it => str_eqb (fst it) k) c)) = counter_get c k.
Proof.
  induction c as [|[k' m] c IH]; simpl; intros ND; trivial.
  inversion ND as [|? ? NI ND']; subst. unfold str_eqb at 1.
  destruct (str_eq_dec k' k) as [->|N]; simpl; [|now apply IH].
  rewrite filter_nil; [simpl; lia|].
  intros [k1 n1] H1. simpl. destruct (str_eqb k1 k) eqn:Q; trivial.
  apply str_eqb_eq in Q. subst. exfalso. apply NI.
  change k with (fst (k, n1)). now apply in_map.
Qed.

Lemma sum_counter_add k n c :
  list_sum (map snd (counter_add k n c)) = list_sum (map snd c) + n.
Proof.
  induction c as [|[k' m] c IH]; simpl; [lia|].
  destruct (str_eq_dec k' k); simpl; [lia|]. rewrite IH. lia.
Qed.

(** The counts of a counter add up to the length of the list counted. *)
Lemma sum_Counter l : list_sum (map snd (Counter l)) = length l.
Proof.
  unfold Counter. fold add1.
  assert (forall c, list_sum (map snd (fold_left add1 l c))
                    = list_sum (map snd c) + length l) as H; [|apply (H [])].
  induction l as [|x l IH]; intros c; simpl; [lia|].
  rewrite IH. unfold add1. rewrite sum_counter_add. lia.
Qed.

Lemma points_at_contain ety mk fid t (c : counter) :
  (forall a b, mk a = mk b -> a = b) ->
  filter (points_at ety (mk t)) (map (contain_edge ety mk fid) c)
  = map (contain_edge ety mk fid) (filter (fun it => str_eqb (fst it) t) c).
Proof.
  intros Inj. rewrite filter_map_comm. f_equal. apply filter_ext.
  intros [k m]. unfold points_at, contain_edge. simpl.
  rewrite (id_eqb mk _ _ Inj). now destruct ety.
Qed.

Lemma points_at_other ety ety' mk fid id (c : counter) :
  ety <> ety' -> filter (points_at ety' id) (map (contain_edge ety mk fid) c) = [].
Proof.
  intros N. apply filter_nil. intros e He.
  apply in_map_iff in He. destruct He as (it & <- & _).
  unfold points_at. simpl. destruct ety, ety'; simpl; congruence.
Qed.

Lemma points_at_cooccurrence ety id item :
  (ety = FILE_CONTAINS_ENTITY \/ ety = FILE_CONTAINS_TOPIC) ->
  filter (points_at ety id) (cooccurrence item) = [].
Proof.
  intros Ty. apply filter_nil. intros e He.
  apply cooccurrence_In in He. destruct He as (_ & a & _ & _ & He).
  unfold points_at.
  destruct He as [(-> & _)|(-> & _)], Ty as [->| ->]; reflexivity.
Qed.

(** X7. The global counter of a term is its weighted in-degree: the sum
    of the weights of the containment edges that point at the term's
    node.  So the counts the summary prints can be recomputed from the
    exported edges. *)
Theorem counters_are_weighted_degrees (src : sources) (t : str) :
  counter_get (entity_global_counts (build src)) t =
    weight_sum (filter (points_at FILE_CONTAINS_ENTITY (ent_id_of t)) (edges (build src))) /\
  counter_get (topic_global_counts (build src)) t =
    weight_sum (filter (points_at FILE_CONTAINS_TOPIC (top_id_of t)) (edges (build src))).
Proof.
  destruct (build_globals src) as [G1 G2]. rewrite G1, G2, !get_Counter, build_edges.
  rewrite !filter_app, !weight_sum_app.
  rewrite !(filter_flat_map_nil _ cooccurrence).
  2,3: intros item e _ He; apply not_true_false; intros Q;
       assert (In e (filter (points_at _ _) (cooccurrence item))) as Hf
         by (apply filter_In; split; [exact He|exact Q]);
       rewrite points_at_cooccurrence in Hf by auto; exact Hf.
  unfold weight_sum at 2 4. simpl. rewrite !Nat.add_0_r, !weight_sum_flat_map.
  rewrite !count_occ_flat_map. split; f_equal; apply map_ext; intros fp;
    unfold containment; rewrite filter_app, weight_sum_app.
  - rewrite (points_at_contain _ _ _ _ _ ent_id_inj), points_at_other by discriminate.
    rewrite weight_sum_contain, sum_key by apply keys_Counter_NoDup.
    rewrite get_Counter. unfold weight_sum. simpl. lia.
  - rewrite (points_at_contain _ _ _ _ _ top_id_inj), points_at_other by discriminate.
    rewrite weight_sum_contain, sum_key by apply keys_Counter_NoDup.
    rewrite get_Counter. unfold weight_sum. simpl. lia.
Qed.

(** X8. The exported edge list is in creation order: first the
    containment edges, file after file in walk order and, within a file,
    entities before topics; then the co-occurrence edges, file after file
    in the order the texts were kept.  No containment edge comes after a
    co-occurrence edge. *)
Theorem containment_then_cooccurrence (src : sources) :
  g_edges (graph (build src)) =
    flat_map (fun fp => containment src (snd fp)) (registered src)
    ++ flat_map cooccurrence (file_texts (first_pass src)) /\
  Forall (fun e => is_containment e = true)
    (flat_map (fun fp => containment src (snd fp)) (registered src)) /\
  Forall (fun e => is_containment e = false)
    (flat_map cooccurrence (file_texts (first_pass src))) /\
  dict_keys (file_texts (first_pass src))
    = dedup (map (fun fp => file_id_of (snd fp)) (registered src)).
Proof.
  split; [apply build_edges|]. split; [|split].
  - apply Forall_forall. intros e He. apply in_flat_map in He.
    destruct He as (fp & _ & He). apply containment_In in He.
    unfold is_containment.
    destruct He as (_ & [(-> & _)|(-> & _)]); reflexivity.
  - apply Forall_forall. intros e He. apply in_flat_map in He.
    destruct He as (item & _ & He). apply cooccurrence_In in He.
    unfold is_containment.
    destruct He as (_ & a & _ & _ & [(-> & _)|(-> & _)]); reflexivity.
  - destruct (first_pass_fields src) as (_ & _ & _ & T). rewrite T.
    rewrite (fold_dict_set_keys (kept src)). reflexivity.
Qed.

Lemma length_flat_map_sum {A B} (g : A -> list B) l :
  length (flat_map g l) = list_sum (map (fun x => length (g x)) l).
Proof.
  induction l as [|x l IH]; simpl; trivial. now rewrite length_app, IH.
Qed.

Lemma list_sum_map_add {A} (f g : A -> nat) l :
  list_sum (map f l) + list_sum (map g l) = list_sum (map (fun x => f x + g x) l).
Proof. induction l as [|x l IH]; simpl; trivial. rewrite <- IH. lia. Qed.

Lemma file_texts_fresh src :
  NoDup (map snd (walked src)) ->
  file_texts (first_pass src) = map (kept src) (registered src).
Proof.
  intros ND. destruct (first_pass_fields src) as (_ & _ & _ & T). rewrite T.
  rewrite (fold_dict_set_fresh (kept src)); trivial.
  simpl. rewrite <- (map_map snd file_id_of).
  apply NoDup_map_inj; [exact file_id_inj|]. now apply NoDup_map_filter.
Qed.

(** X9. In a walk that meets each path once, the number of edges of the
    graph is the sum, over the registered files, of [n + m + n (n - 1) / 2
    + n m], for the [n] distinct entities and the [m] distinct topics of
    the file. *)
Theorem number_of_edges (src : sources) :
  set_iter_ok R ->
  NoDup (map snd (walked src)) ->
  length (edges (build src))
  = list_sum (map (fun fp => edges_of_file src (snd fp)) (registered src)).
Proof.
  intros SI ND. rewrite build_edges, length_app, file_texts_fresh by trivial.
  rewrite flat_map_map, !length_flat_map_sum, list_sum_map_add.
  f_equal. apply map_ext. intros fp.
  unfold edges_of_file, containment, cooccurrence, kept. cbn [fst snd].
  rewrite !length_app, !length_map, entity_pairs_closed, length_map, length_pairs.
  unfold entity_topic_pairs.
  rewrite (length_flat_map_const _ _ (length (set_iter (topics_of src (snd fp)))))
    by (intros x; apply length_map).
  fold (entities_of src (snd fp)). fold (topics_of src (snd fp)).
  rewrite !set_iter_length by trivial.
  rewrite <- !(length_map fst (Counter _)), !keys_Counter. lia.
Qed.

(** Deduplicating a list without repetition changes nothing. *)
Lemma dedup_from_fresh l : forall acc,
  NoDup (acc ++ l) -> fold_left dedup_step l acc = acc ++ l.
Proof.
  induction l as [|x l IH]; intros acc ND; simpl.
  - now rewrite app_nil_r.
  - rewrite dedup_step_new.
    + rewrite IH; rewrite <- app_assoc; trivial.
    + apply str_in_false. intros H. apply NoDup_remove_2 in ND.
      apply ND, in_app_iff. now left.
Qed.

Lemma leaves_containment ty fid e :
  leaves ty fid e = true -> e_type e = ty /\ e_from e = fid.
Proof.
  unfold leaves. rewrite andb_true_iff, str_eqb_eq.
  destruct (e_type e), ty; simpl; intuition congruence.
Qed.

(** X10. In a walk that meets each path once, the containment edges that
    leave a registered file are one per distinct entity and one per
    distinct topic; the entity weights add up to the number of entity
    occurrences extracted from the file, and the topic weights to the
    number of topics listed for it. *)
Theorem weights_leaving_a_file (src : sources) (f path : str) :
  NoDup (map snd (walked src)) ->
  In (f, path) (walked src) ->
  strip (extract_text src path) <> [] ->
  let fid := file_id_of path in
  let ee := filter (leaves FILE_CONTAINS_ENTITY fid) (edges (build src)) in
  let te := filter (leaves FILE_CONTAINS_TOPIC fid) (edges (build src)) in
  map e_to ee = map ent_id_of (dedup (entities_of src path)) /\
  weight_sum ee = length (entities_of src path) /\
  map e_to te = map top_id_of (topics_of src path) /\
  weight_sum te = length (topics_of src path).
Proof.
  intros ND Hw NB fid ee te. subst ee te.
  assert (In (f, path) (registered src)) as Hr by (apply registered_In; auto).
  rewrite !(filter_build_from src f path) by
    (trivial; intros e Q; apply leaves_containment in Q; destruct Q as [-> ->]; auto).
  unfold containment. rewrite !filter_app.
  rewrite (filter_all (leaves FILE_CONTAINS_ENTITY fid)
             (map (contain_edge FILE_CONTAINS_ENTITY ent_id_of fid) _)).
  2:{ intros e He. apply in_map_iff in He. destruct He as (it & <- & _).
      unfold leaves. simpl. now rewrite str_eqb_refl. }
  rewrite (filter_nil (leaves FILE_CONTAINS_ENTITY fid)
             (map (contain_edge FILE_CONTAINS_TOPIC top_id_of fid) _)).
  2:{ intros e He. apply in_map_iff in He. now destruct He as (it & <- & _). }
  rewrite (filter_nil (leaves FILE_CONTAINS_TOPIC fid)
             (map (contain_edge FILE_CONTAINS_ENTITY ent_id_of fid) _)).
  2:{ intros e He. apply in_map_iff in He. now destruct He as (it & <- & _). }
  rewrite (filter_all (leaves FILE_CONTAINS_TOPIC fid)
             (map (contain_edge FILE_CONTAINS_TOPIC top_id_of fid) _)).
  2:{ intros e He. apply in_map_iff in He. destruct He as (it & <- & _).
      unfold leaves. simpl. now rewrite str_eqb_refl. }
  rewrite app_nil_r. cbn [app].
  rewrite !weight_sum_contain, !sum_Counter, !map_map. cbn [contain_edge e_to].
  rewrite <- !(map_map fst), !keys_Counter.
  repeat split. f_equal.
  apply (dedup_from_fresh _ []), find_topics_NoDup.
Qed.

End Weights.

(** X11. The order in which sets are iterated touches the co-occurrence
    edges only: two runtimes that agree on the character tables leave the
    same state after the first pass, hence the same nodes, counters,
    summary and containment edges. *)
Theorem set_order_only_reaches_cooccurrence (R1 R2 : PyRuntime) (src : sources) :
  uni_word (PyRuntime := R1) = uni_word (PyRuntime := R2) ->
  uni_space (PyRuntime := R1) = uni_space (PyRuntime := R2) ->
  uni_lower (PyRuntime := R1) = uni_lower (PyRuntime := R2) ->
  first_pass (R := R1) src = first_pass (R := R2) src /\
  nodes (build (R := R1) src) = nodes (build (R := R2) src) /\
  summary_lines (build (R := R1) src) = summary_lines (build (R := R2) src) /\
  filter is_containment (edges (build (R := R1) src))
  = filter is_containment (edges (build (R := R2) src)).
Proof.
  destruct R1 as [w1 s1 l1 i1], R2 as [w2 s2 l2 i2]. simpl.
  intros -> -> ->.
  assert (first_pass (R := Build_PyRuntime w2 s2 l2 i1) src
          = first_pass (R := Build_PyRuntime w2 s2 l2 i2) src) as F by reflexivity.
  split; [exact F|]. rewrite !build_closed.
  unfold summary_lines, append_edges.
  cbn [nodes edges entity_global_counts topic_global_counts]. rewrite F.
  split; [reflexivity|]. split; [reflexivity|].
  rewrite !filter_app. f_equal.
  rewrite !filter_nil; trivial; intros e He; apply in_flat_map in He;
    destruct He as (item & _ & He); apply cooccurrence_In in He;
    unfold is_containment;
    destruct He as (_ & a & _ & _ & [(-> & _)|(-> & _)]); reflexivity.
Qed.

(** ** More on the term extractors *)

Section ExtractorsMore.
Context {R : PyRuntime}.

Lemma pieces_gap g ws s : pieces_of ws s -> pieces_of ws (g ++ s).
Proof.
  intros H. destruct H as [s|g' w ws s H]; [constructor|].
  rewrite app_assoc. now constructor.
Qed.

Lemma pieces_filter (f : str -> bool) ws s :
  pieces_of ws s -> pieces_of (filter f ws) s.
Proof.
  induction 1 as [s|g w ws s H IH]; simpl; [constructor|].
  destruct (f w); [now constructor|].
  rewrite app_assoc. now apply pieces_gap.
Qed.

Lemma pieces_length ws s : pieces_of ws s -> list_sum (map (@length N) ws) <= length s.
Proof.
  induction 1 as [s|g w ws s H IH]; simpl; [lia|].
  rewrite !length_app. lia.
Qed.

Lemma pieces_In ws s w : pieces_of ws s -> In w ws -> exists a b, s = a ++ w ++ b.
Proof.
  induction 1 as [s|g w' ws s H IH]; intros Hw; [contradiction|].
  destruct Hw as [->|Hw]; [now exists g, s|].
  destruct (IH Hw) as (a & b & ->). exists (g ++ w' ++ a), b.
  now rewrite <- !app_assoc.
Qed.

(** What [findall] returns are pieces of the text, left to right, that do
    not overlap. *)
Lemma scan_pieces r : forall s prev skip, pieces_of (scan r prev s skip) (skipn skip s).
Proof.
  induction s as [|c s IH]; intros prev skip.
  - simpl. destruct skip; simpl; try constructor.
    destruct (re_match r prev [] (fun _ rest => Some rest)); [|constructor].
    apply (pieces_cons [] [] [] []). constructor.
  - rewrite scan_cons. destruct skip as [|n]; [|apply IH].
    destruct (re_match r prev (c :: s) (fun _ rest => Some rest)) as [rest|] eqn:Hm.
    + apply re_match_sound in Hm. destruct Hm as (w & s' & _ & E & _ & Hk).
      injection Hk as <-. cbv zeta. rewrite E.
      rewrite length_app, Nat.add_sub, firstn_app, Nat.sub_diag, firstn_all.
      simpl firstn. rewrite app_nil_r. simpl skipn.
      specialize (IH (Some c) (length w - 1)).
      destruct w as [|c' w].
      * simpl in *. subst s'. apply (pieces_cons [] [] _ (c :: s)).
        now apply (pieces_gap [c]).
      * simpl in E. injection E as <- ->. simpl in IH.
        rewrite Nat.sub_0_r, skipn_app, skipn_all, Nat.sub_diag in IH.
        simpl in IH. apply (pieces_cons [] (c :: w) _ s').
        cbn [length]. rewrite Nat.sub_succ, Nat.sub_0_r. exact IH.
    + simpl. apply (pieces_gap [c]). apply (IH (Some c) 0).
Qed.

Lemma matches_chars (P : N -> Prop) r w :
  classes_in P r -> matches r w -> Forall P w.
Proof.
  intros C M. induction M as [p c Hp| |r1 r2 w1 w2 _ IH1 _ IH2|r|r w1 w2 _ IH1 _ IH2].
  - repeat constructor. now apply C.
  - constructor.
  - destruct C as [C1 C2]. apply Forall_app. auto.
  - constructor.
  - apply Forall_app. split; [apply IH1; exact C|apply IH2; exact C].
Qed.

Lemma entity_re_chars w :
  matches entity_re w -> Forall (fun c => is_alnum c = true \/ is_space c = true) w.
Proof.
  apply matches_chars. unfold entity_re, capitalized, Plus. simpl.
  repeat split; trivial; intros c H; auto; left; now apply upper_alnum.
Qed.

Lemma find_entities_candidates text p :
  In p (find_entities text) -> In p (findall entity_re text) /\ proper p.
Proof.
  unfold find_entities. intros H. apply in_map_iff in H.
  destruct H as (c & <- & H). apply filter_In in H. destruct H as [H _].
  pose proof (findall_sound _ _ _ H) as [M _].
  apply entity_re_proper in M. rewrite (proper_strip c M). auto.
Qed.

Lemma find_entities_unstripped text :
  find_entities text =
  filter (fun c => negb (str_in c entity_stop) && (2 <? length c))
    (findall entity_re text).
Proof.
  unfold find_entities. cbv zeta. rewrite <- map_id. apply map_ext_in.
  intros c H. apply filter_In in H. destruct H as [H _].
  apply findall_sound in H. destruct H as [M _].
  apply proper_strip, entity_re_proper, M.
Qed.

(** X12. The phrases [find_entities] returns are pieces of the text, in
    text order and without overlap, so their lengths add up to at most
    the length of the text; each starts with an ASCII capital, ends with
    an ASCII letter or digit and holds only ASCII letters, digits and
    whitespace. *)
Theorem entities_are_pieces_of_the_text (text : str) :
  pieces_of (find_entities text) text /\
  list_sum (map (@length N) (find_entities text)) <= length text /\
  Forall (fun p => proper p /\
                   Forall (fun c => is_alnum c = true \/ is_space c = true) p)
    (find_entities text).
Proof.
  assert (pieces_of (find_entities text) text) as P.
  { rewrite find_entities_unstripped. apply pieces_filter.
    apply (scan_pieces entity_re text None 0). }
  split; [exact P|]. split; [now apply pieces_length|].
  apply Forall_forall. intros p H. apply find_entities_candidates in H.
  destruct H as [H Pr]. split; trivial.
  apply findall_sound in H. destruct H as [M _]. now apply entity_re_chars.
Qed.

(** X13. A text without an ASCII capital letter, or of fewer than three
    characters, has no entity. *)
Theorem no_capital_no_entity (text : str) :
  Forall (fun c => is_upper c = false) text \/ length text < 3 ->
  find_entities text = [].
Proof.
  intros H. destruct (find_entities text) as [|p l] eqn:E; trivial. exfalso.
  assert (In p (find_entities text)) as Hp by (rewrite E; now left).
  pose proof (find_entities_candidates _ _ Hp) as [Hc (c & m & d & -> & U & _)].
  apply findall_sound in Hc. destruct Hc as (_ & s1 & s2 & Es).
  destruct H as [H|H].
  - rewrite Forall_forall in H. rewrite (H c) in U; [discriminate|].
    rewrite Es, !in_app_iff. right. left. now left.
  - rewrite find_entities_unstripped in Hp. apply filter_In in Hp.
    destruct Hp as [_ Hp]. apply andb_true_iff in Hp. destruct Hp as [_ L].
    apply Nat.ltb_lt in L. rewrite Es, !length_app in H. lia.
Qed.

Lemma topic_words_chars text w :
  In w (topic_words text) -> 5 <= length w /\ Forall (fun c => is_alpha c = true) w.
Proof.
  unfold topic_words. intros H. apply filter_In in H. destruct H as [H _].
  apply findall_sound in H. destruct H as [M _]. now apply topic_re_word.
Qed.

(** X14. Asking [find_topics] for fewer topics gives the beginning of the
    longer answer: the topics are a prefix of the full ranking of the
    counted words.  With [top_n = 0], or when the lower-cased text has
    fewer than five characters, there is no topic. *)
Theorem fewer_topics_are_a_prefix (text : str) (n m : nat) :
  n <= m ->
  find_topics text n = firstn n (find_topics text m) /\
  find_topics text 0 = [] /\
  (length (lower text) < 5 -> find_topics text m = []).
Proof.
  intros L. split; [|split].
  - unfold find_topics, most_common. cbv zeta.
    rewrite <- !firstn_map, firstn_firstn. now rewrite Nat.min_l.
  - reflexivity.
  - intros S. destruct (find_topics text m) as [|w l] eqn:E; trivial. exfalso.
    destruct (find_topics_top_ranked text m) as ((_ & _ & F & _) & Q).
    rewrite Q in E. rewrite Forall_forall in F.
    destruct (most_common m (Counter (topic_words text))) as [|kn top]; [discriminate|].
    destruct (F kn (or_introl eq_refl)) as [Hw _].
    pose proof (topic_words_chars _ _ Hw) as [L5 _].
    unfold topic_words in Hw. apply filter_In in Hw. destruct Hw as [Hw _].
    apply findall_sound in Hw. destruct Hw as (_ & s1 & s2 & Es).
    rewrite Es, !length_app in S. lia.
Qed.

Lemma alnum_keeps_quoting c :
  is_alnum c = true \/ is_space c = true -> breaks_quoting c = false.
Proof. unfold breaks_quoting, is_space. intros [H|H]; nbool. Qed.

Lemma count_occ_zero (l : str) c :
  (forall x, In x l -> x <> c) -> count_occ N.eq_dec l c = 0.
Proof. intros H. apply count_occ_not_In. intros Hc. now apply (H c). Qed.

(** X15. No entity name and no topic name holds a double quote or a
    backslash, so in the Graphviz export the line of an entity or topic
    node has exactly its four double quotes and no backslash: its quoted
    fields cannot be broken by the name.  (A file name can hold either,
    and an entity name can hold a newline.) *)
Theorem term_lines_keep_their_quotes (src : sources) (nd : node) (shape : str) :
  In nd (g_entity (graph (build src))) \/ In nd (g_topic (graph (build src))) ->
  Forall (fun c => breaks_quoting c = false) (n_name nd) /\
  (Forall (fun c => breaks_quoting c = false) shape ->
   count_occ N.eq_dec (node_line shape nd) 34%N = 4 /\
   count_occ N.eq_dec (node_line shape nd) 92%N = 0).
Proof.
  intros H.
  assert (Forall (fun c => breaks_quoting c = false) (n_name nd) /\
          exists pre, n_id nd = lit pre ++ n_name nd /\
                      Forall (fun c => breaks_quoting c = false) (lit pre)) as [Hn Hi].
  { unfold graph in H. cbn [g_entity g_topic] in H.
    destruct (term_nodes_closed src) as [E T]. rewrite E, T in H.
    unfold dict_values in H. rewrite !map_map in H.
    destruct H as [H|H]; apply in_map_iff in H; destruct H as (t & <- & Ht);
      apply (proj1 (dedup_In _ _)) in Ht; apply in_flat_map in Ht;
      destruct Ht as (fp & _ & Ht); cbn [term_node snd n_name n_id].
    - split.
      + apply find_entities_candidates in Ht. destruct Ht as [Ht _].
        apply findall_sound in Ht. destruct Ht as [M _].
        apply entity_re_chars in M. rewrite Forall_forall in *.
        intros c Hc. now apply alnum_keeps_quoting, M.
      + exists "entity:"%string. split; [reflexivity|].
        repeat constructor.
    - split.
      + unfold topics_of in Ht.
        destruct (find_topics_top_ranked (extract_text src (snd fp)) default_top_n)
          as ((_ & _ & F & _) & Q).
        rewrite Q in Ht. apply in_map_iff in Ht. destruct Ht as (kn & <- & Hk).
        rewrite Forall_forall in F. destruct (F kn Hk) as [Hw _].
        apply topic_words_chars in Hw. destruct Hw as [_ Hw].
        rewrite Forall_forall in *. intros c Hc.
        apply alnum_keeps_quoting. left. unfold is_alnum. now rewrite (Hw c Hc).
      + exists "topic:"%string. split; [reflexivity|].
        repeat constructor. }
  split; trivial. intros Hs.
  destruct Hi as (pre & Ei & Hp).
  assert (forall l c, Forall (fun c => breaks_quoting c = false) l ->
                      breaks_quoting c = true -> count_occ N.eq_dec l c = 0) as Z.
  { intros l c F B. apply count_occ_zero. intros x Hx ->.
    rewrite Forall_forall in F. rewrite (F c Hx) in B. discriminate. }
  unfold node_line. rewrite Ei, !count_occ_app.
  rewrite !(Z (n_name nd)), !(Z (lit pre)), !(Z shape) by trivial.
  split; reflexivity.
Qed.

End ExtractorsMore.

(** ** Text extraction *)

Section TextExtraction.
Context {R : PyRuntime}.

Lemma rfind_from_none c p : forall i,
  (forall x, In x p -> x <> c) -> rfind_from c i p = (-1)%Z.
Proof.
  induction p as [|x p IH]; intros i H; simpl; trivial.
  rewrite IH by (intros y Hy; apply H; now right). simpl.
  destruct (N.eqb_spec x c) as [E|_]; trivial.
  exfalso. apply (H x); auto. now left.
Qed.

Lemma rfind_from_last c a b : forall i,
  (0 <= i)%Z -> (forall x, In x b -> x <> c) ->
  rfind_from c i (a ++ c :: b) = (i + Z.of_nat (length a))%Z.
Proof.
  induction a as [|x a IH]; intros i Hi H; simpl.
  - rewrite rfind_from_none by trivial. simpl. rewrite N.eqb_refl. lia.
  - rewrite IH by (trivial; lia).
    destruct (Z.leb_spec 0 (i + 1 + Z.of_nat (length a))); lia.
Qed.

Lemma rfind_last c a b :
  (forall x, In x b -> x <> c) -> rfind c (a ++ c :: b) = Z.of_nat (length a).
Proof. intros H. unfold rfind. now rewrite rfind_from_last. Qed.

(** The separator index of a name under a directory prefix. *)
Lemma rfind_sep d name :
  dir_prefix d -> (forall x, In x name -> x <> 47%N) ->
  (rfind 47 (d ++ name) + 1)%Z = Z.of_nat (length d).
Proof.
  intros [->|(d' & ->)] H.
  - simpl. unfold rfind. now rewrite rfind_from_none.
  - rewrite <- app_assoc. simpl. rewrite rfind_last by trivial.
    rewrite length_app. simpl. lia.
Qed.

Lemma existsb_index (f : N -> bool) stem rest : forall d,
  existsb (fun i => f (nth i (d ++ stem ++ rest) 0%N)) (seq (length d) (length stem))
  = existsb f stem.
Proof.
  induction stem as [|x stem IH]; intros d; simpl; trivial.
  rewrite nth_middle. f_equal.
  specialize (IH (d ++ [x])). rewrite length_app, Nat.add_comm in IH. simpl in IH.
  rewrite <- app_assoc in IH. exact IH.
Qed.

(** The extension of [stem.e] under a directory prefix is [.e] when the
    stem holds something else than dots, and is empty otherwise. *)
Lemma splitext_name d stem e :
  dir_prefix d ->
  (forall x, In x stem -> x <> 47%N) ->
  (forall x, In x e -> x <> 47%N /\ x <> 46%N) ->
  snd (splitext (d ++ stem ++ 46%N :: e))
  = if existsb (fun c => negb (c =? 46)%N) stem then 46%N :: e else [].
Proof.
  intros D Hs He. unfold splitext.
  assert (rfind 46 (d ++ stem ++ 46%N :: e) = Z.of_nat (length (d ++ stem))) as Dot.
  { rewrite app_assoc. apply rfind_last. intros x Hx. now apply He. }
  assert ((rfind 47 (d ++ stem ++ 46%N :: e) + 1)%Z = Z.of_nat (length d)) as Sep.
  { apply rfind_sep; trivial. intros x Hx. apply in_app_iff in Hx.
    destruct Hx as [Hx|[<-|Hx]]; [now apply Hs|discriminate|now apply He]. }
  cbv zeta. rewrite Dot, Sep, Nat2Z.id.
  rewrite Nat2Z.id, length_app, Nat.add_comm, Nat.add_sub.
  assert ((rfind 47 (d ++ stem ++ 46%N :: e) <? Z.of_nat (length stem + length d))%Z
          = true) as -> by (apply Z.ltb_lt; lia).
  rewrite (existsb_index (fun c => negb (c =? 46)%N)).
  destruct (existsb (fun c => negb (c =? 46)%N) stem); trivial.
  simpl snd. rewrite Nat.add_comm, <- length_app, app_assoc.
  rewrite skipn_app, skipn_all, Nat.sub_diag. reflexivity.
Qed.

End TextExtraction.

Section TextExtractionFacts.
Context {R : PyRuntime}.

Lemma lstrip_nil s : lstrip s = [] <-> Forall (fun c => is_space c = true) s.
Proof.
  induction s as [|c s IH]; simpl.
  - split; constructor.
  - destruct (is_space c) eqn:E.
    + rewrite IH. split; [now constructor|]. intros H. now inversion H.
    + split; [discriminate|]. intros H. inversion H. congruence.
Qed.

Lemma lstrip_first s c t : lstrip s = c :: t -> is_space c = false.
Proof.
  induction s as [|x s IH]; simpl; [discriminate|].
  destruct (is_space x) eqn:E; [exact IH|]. now intros [= <- _].
Qed.

(** A string strips to nothing exactly when it holds blanks only. *)
Lemma strip_nil s : strip s = [] <-> Forall (fun c => is_space c = true) s.
Proof.
  unfold strip, rstrip. split.
  - intros H. apply (f_equal (@rev N)) in H. rewrite rev_involutive in H.
    simpl in H. apply lstrip_nil in H. apply Forall_rev in H.
    rewrite rev_involutive in H.
    destruct (lstrip s) as [|c t] eqn:E; [now apply lstrip_nil|].
    apply lstrip_first in E. inversion H. congruence.
  - intros H. apply lstrip_nil in H. now rewrite H.
Qed.

Lemma join_blank parts :
  Forall (fun p => strip p = []) parts -> strip (join newline parts) = [].
Proof.
  intros H. apply strip_nil.
  induction H as [|p parts Hp _ IH]; simpl; [constructor|].
  apply strip_nil in Hp.
  destruct parts as [|q parts]; trivial.
  apply Forall_app. split; trivial. constructor; trivial.
Qed.

(** A path whose text is blank is left out of the graph. *)
Lemma blank_path_excluded src path :
  strip (extract_text src path) = [] ->
  ~ In (file_id_of path) (dict_keys (file_nodes (nodes (build src)))) /\
  (forall e, In e (edges (build src)) ->
             e_from e <> file_id_of path /\ e_attr e <> from_file (file_id_of path)).
Proof.
  intros B.
  assert (forall fp, In fp (registered src) -> file_id_of path <> file_id_of (snd fp))
    as NR.
  { intros fp Hr E. apply file_id_inj in E. subst path.
    apply registered_In in Hr. tauto. }
  split.
  - intros H. apply file_keys_registered in H. destruct H as (fp & Hr & E).
    now apply (NR fp).
  - intros e He. apply build_edges_In in He.
    destruct He as [(fp & Hr & He)|(fp & Hr & He)].
    + apply containment_In in He. destruct He as (Fr & He). rewrite Fr. split.
      * intros E. now apply (NR fp).
      * destruct He as [(_ & t & _ & _ & ->)|(_ & t & _ & _ & ->)]; discriminate.
    + apply cooccurrence_In in He. simpl in He.
      destruct He as (A & a & Fr & _). rewrite Fr, A. split.
      * discriminate.
      * intros E. apply (NR fp Hr). congruence.
Qed.

Lemma extract_text_unknown fs path :
  ~ In (lower (snd (splitext path))) known_exts -> extract_text_of fs path = [].
Proof.
  intros N. unfold extract_text_of. cbv zeta.
  destruct (str_in (lower (snd (splitext path))) text_exts) eqn:E1.
  { exfalso. apply N, in_app_iff. left. now apply str_in_In. }
  destruct (str_eqb (lower (snd (splitext path))) (lit ".docx")) eqn:E2.
  { exfalso. apply str_eqb_eq in E2. rewrite E2 in N. apply N.
    unfold known_exts, text_exts. simpl. tauto. }
  destruct (str_eqb (lower (snd (splitext path))) (lit ".pdf")) eqn:E3.
  { exfalso. apply str_eqb_eq in E3. rewrite E3 in N. apply N.
    unfold known_exts, text_exts. simpl. tauto. }
  destruct (str_eqb (lower (snd (splitext path))) (lit ".pptx")) eqn:E4; trivial.
  exfalso. apply str_eqb_eq in E4. rewrite E4 in N. apply N.
  unfold known_exts, text_exts. simpl. tauto.
Qed.

(** X16. A walked file whose extension, lower-cased, is none of .txt, .md,
    .csv, .json, .docx, .pdf, .pptx yields the empty text whatever the
    readers would say, and is left out of the graph: no node, no edge
    that leaves it or is attributed to it. *)
Theorem unsupported_extension_is_excluded
    (fs : readers) (tree : list (str * list str)) (path : str) :
  ~ In (lower (snd (splitext path))) known_exts ->
  extract_text_of fs path = [] /\
  ~ In (file_id_of path) (dict_keys (file_nodes (nodes (build (disk fs tree))))) /\
  (forall e, In e (edges (build (disk fs tree))) ->
             e_from e <> file_id_of path /\ e_attr e <> from_file (file_id_of path)).
Proof.
  intros N. pose proof (extract_text_unknown fs path N) as E.
  split; trivial. apply blank_path_excluded. simpl. rewrite E. reflexivity.
Qed.

(** X17. A file whose reader raises does not stop the run and is left out
    of the graph: whatever the tree, the file is not registered, gets no
    node, and no edge leaves it or is attributed to it. *)
Theorem unreadable_file_is_excluded
    (fs : readers) (tree : list (str * list str)) (path : str) :
  reader_raises fs path ->
  (forall f, ~ In (f, path) (registered (disk fs tree))) /\
  ~ In (file_id_of path) (dict_keys (file_nodes (nodes (build (disk fs tree))))) /\
  (forall e, In e (edges (build (disk fs tree))) ->
             e_from e <> file_id_of path /\ e_attr e <> from_file (file_id_of path)).
Proof.
  intros F.
  assert (extract_text_of fs path = []) as E.
  { unfold reader_raises in F. cbv zeta in F. unfold extract_text_of. cbv zeta.
    destruct F as [(H & F)|[(H & F)|[(H & F)|(H & F)]]].
    - apply str_in_In in H. now rewrite H, F.
    - rewrite H. simpl. now rewrite F.
    - rewrite H. simpl. now rewrite F.
    - rewrite H. simpl. now rewrite F. }
  assert (strip (extract_text (disk fs tree) path) = []) as B
    by (simpl; rewrite E; reflexivity).
  split; [|now apply blank_path_excluded].
  intros f Hr. apply registered_In in Hr. tauto.
Qed.

(** X18. A document none of whose parts holds text gives a blank text,
    and so is skipped like an empty file: a DOCX whose paragraphs are all
    blank, a PDF whose pages yield nothing or blanks, a PPTX whose shapes
    are without text or blank, however many parts there are. *)
Theorem blank_documents_give_blank_text (fs : readers) (path : str) :
  let ext := lower (snd (splitext path)) in
  (ext = lit ".docx" ->
   forall paragraphs, Document fs path = Some paragraphs ->
     Forall (fun p => strip p = []) paragraphs ->
     strip (extract_text_of fs path) = []) /\
  (ext = lit ".pdf" ->
   forall pages, PdfReader fs path = Some pages ->
     Forall (fun pg => strip (or_empty pg) = []) pages ->
     strip (extract_text_of fs path) = []) /\
  (ext = lit ".pptx" ->
   forall slides, Presentation fs path = Some slides ->
     Forall (Forall (fun sh => strip (or_empty sh) = [])) slides ->
     strip (extract_text_of fs path) = []).
Proof.
  cbv zeta. unfold extract_text_of. cbv zeta.
  split; [|split]; intros -> parts F H; simpl; rewrite F; apply join_blank.
  - exact H.
  - apply Forall_forall. intros p Hp. apply in_map_iff in Hp.
    destruct Hp as (pg & <- & Hpg). rewrite Forall_forall in H. now apply H.
  - apply Forall_forall. intros p Hp. unfold shape_texts in Hp.
    apply in_flat_map in Hp. destruct Hp as (slide & Hs & Hp).
    apply in_flat_map in Hp. destruct Hp as (sh & Hsh & Hp).
    rewrite Forall_forall in H. specialize (H slide Hs).
    rewrite Forall_forall in H. specialize (H sh Hsh).
    destruct sh as [t|]; [|contradiction]. destruct Hp as [<-|[]]. exact H.
Qed.

(** X19. The reader is chosen by the extension of the last path component
    whatever the case of its letters: [dir/stem.e] is read as a text file
    when [.e] lower-cases to .txt, .md, .csv or .json.  But a name made of
    dots and an extension only, such as [dir/.txt], has no extension and
    gives no text. *)
Theorem text_extension_in_any_case (fs : readers) (d stem e : str) :
  dir_prefix d ->
  (forall x, In x stem -> x <> 47%N) ->
  (forall x, In x e -> x <> 47%N /\ x <> 46%N) ->
  In (lower (46%N :: e)) text_exts ->
  let path := d ++ stem ++ 46%N :: e in
  (existsb (fun c => negb (c =? 46)%N) stem = true ->
   extract_text_of fs path = or_empty (open_read fs path)) /\
  (existsb (fun c => negb (c =? 46)%N) stem = false ->
   extract_text_of fs path = []).
Proof.
  intros D Hs He Hx path. subst path. unfold extract_text_of. cbv zeta.
  rewrite (splitext_name d stem e D Hs He).
  split; intros ->.
  - apply str_in_In in Hx. rewrite Hx. reflexivity.
  - reflexivity.
Qed.

End TextExtractionFacts.

(** ** The further properties on concrete runs *)

Section MoreRuns.

#[local] Existing Instance ascii_runtime.

(** Of the four files only the note is registered. *)
Example mixed_tree_run :
  map n_name (g_file (graph (build (disk one_note mixed_tree)))) = [lit "NOTE.TXT"] /\
  map n_name (g_entity (graph (build (disk one_note mixed_tree)))) = [lit "Acme Corp"] /\
  g_stats (graph (build (disk one_note mixed_tree)))
    = {| num_files := 1; num_entities := 1; num_topics := 0 |}.
Proof. repeat split; vm_compute; reflexivity. Qed.

Lemma two_files_paths : NoDup (map snd (walked two_files)).
Proof. vm_compute. repeat constructor; simpl; intuition discriminate. Qed.

Lemma file_nodes_in_walk_order_witness :
  NoDup (map snd (walked two_files)) /\
  map n_name (g_file (graph (build two_files))) = [lit "a.txt"; lit "b.txt"].
Proof.
  split; [exact two_files_paths|].
  rewrite (file_nodes_in_walk_order two_files two_files_paths).
  vm_compute. reflexivity.
Defined.

Lemma registered_file_without_terms_witness :
  set_iter_ok ascii_runtime /\
  In (lit "a.txt", lit "./source/a.txt") (walked two_files) /\
  strip (extract_text two_files (lit "./source/a.txt")) <> [] /\
  exists nd,
    In (file_id_of (lit "./source/a.txt"), nd) (file_nodes (nodes (build two_files))) /\
    n_id nd = file_id_of (lit "./source/a.txt") /\ n_type nd = file /\
    n_path nd = Some (lit "./source/a.txt").
Proof.
  assert (In (lit "a.txt", lit "./source/a.txt") (walked two_files)) as Hw
    by (vm_compute; auto).
  assert (strip (extract_text two_files (lit "./source/a.txt")) <> []) as NB
    by (vm_compute; discriminate).
  split; [exact ascii_set_iter_ok|]. split; [exact Hw|]. split; [exact NB|].
  exact (proj1 (registered_file_without_terms two_files (lit "a.txt")
                  (lit "./source/a.txt") ascii_set_iter_ok Hw NB)).
Defined.

Lemma number_of_edges_witness :
  set_iter_ok ascii_runtime /\ NoDup (map snd (walked two_files)) /\
  length (edges (build two_files))
  = list_sum (map (fun fp => edges_of_file two_files (snd fp)) (registered two_files)).
Proof.
  split; [exact ascii_set_iter_ok|]. split; [exact two_files_paths|].
  exact (number_of_edges two_files ascii_set_iter_ok two_files_paths).
Defined.

Lemma weights_leaving_a_file_witness :
  NoDup (map snd (walked two_files)) /\
  In (lit "a.txt", lit "./source/a.txt") (walked two_files) /\
  strip (extract_text two_files (lit "./source/a.txt")) <> [] /\
  weight_sum
    (filter (leaves FILE_CONTAINS_ENTITY (file_id_of (lit "./source/a.txt")))
       (edges (build two_files)))
  = length (entities_of two_files (lit "./source/a.txt")).
Proof.
  assert (In (lit "a.txt", lit "./source/a.txt") (walked two_files)) as Hw
    by (vm_compute; auto).
  assert (strip (extract_text two_files (lit "./source/a.txt")) <> []) as NB
    by (vm_compute; discriminate).
  split; [exact two_files_paths|]. split; [exact Hw|]. split; [exact NB|].
  exact (proj1 (proj2 (weights_leaving_a_file two_files (lit "a.txt")
                         (lit "./source/a.txt") two_files_paths Hw NB))).
Defined.

Lemma set_order_only_reaches_cooccurrence_witness :
  uni_word (PyRuntime := ascii_runtime) = uni_word (PyRuntime := ascii_runtime_rev) /\
  uni_space (PyRuntime := ascii_runtime) = uni_space (PyRuntime := ascii_runtime_rev) /\
  uni_lower (PyRuntime := ascii_runtime) = uni_lower (PyRuntime := ascii_runtime_rev) /\
  summary_lines (build (R := ascii_runtime) two_files)
  = summary_lines (build (R := ascii_runtime_rev) two_files).
Proof.
  split; [reflexivity|]. split; [reflexivity|]. split; [reflexivity|].
  exact (proj1 (proj2 (proj2
           (set_order_only_reaches_cooccurrence ascii_runtime ascii_runtime_rev
              two_files eq_refl eq_refl eq_refl)))).
Defined.

Lemma no_capital_no_entity_witness :
  Forall (fun c => is_upper c = false) (lit "acme corp") /\
  find_entities (lit "acme corp") = [].
Proof.
  assert (Forall (fun c => is_upper c = false) (lit "acme corp")) as F
    by (repeat constructor).
  split; [exact F|]. exact (no_capital_no_entity (lit "acme corp") (or_introl F)).
Defined.

Lemma fewer_topics_are_a_prefix_witness :
  1 <= 10 /\ find_topics b_txt 1 = firstn 1 (find_topics b_txt 10).
Proof.
  assert (1 <= 10) as L by (repeat constructor).
  split; [exact L|]. exact (proj1 (fewer_topics_are_a_prefix b_txt 1 10 L)).
Defined.

Lemma term_lines_keep_their_quotes_witness :
  In (snd (term_node entity ent_id_of (lit "Acme Corp")))
     (g_entity (graph (build two_files))) /\
  Forall (fun c => breaks_quoting c = false) (lit "Acme Corp").
Proof.
  assert (In (snd (term_node entity ent_id_of (lit "Acme Corp")))
             (g_entity (graph (build two_files)))) as H by (vm_compute; auto).
  split; [exact H|].
  exact (proj1 (term_lines_keep_their_quotes two_files _ (lit "ellipse")
                  (or_introl H))).
Defined.

Lemma unsupported_extension_is_excluded_witness :
  ~ In (lower (snd (splitext (lit "./source/tool.exe")))) known_exts /\
  extract_text_of one_note (lit "./source/tool.exe") = [] /\
  ~ In (file_id_of (lit "./source/tool.exe"))
       (dict_keys (file_nodes (nodes (build (disk one_note mixed_tree))))).
Proof.
  assert (~ In (lower (snd (splitext (lit "./source/tool.exe")))) known_exts) as N
    by (vm_compute; intuition discriminate).
  split; [exact N|].
  destruct (unsupported_extension_is_excluded one_note mixed_tree
              (lit "./source/tool.exe") N) as (A & B & _).
  split; [exact A|exact B].
Defined.

Lemma text_extension_in_any_case_witness :
  dir_prefix (lit "./source/") /\
  In (lower (46%N :: lit "TXT")) text_exts /\
  extract_text_of one_note (lit "./source/" ++ lit "NOTE" ++ 46%N :: lit "TXT")
  = lit "Acme Corp".
Proof.
  assert (dir_prefix (lit "./source/")) as D
    by (right; exists (lit "./source"); reflexivity).
  assert (In (lower (46%N :: lit "TXT")) text_exts) as X by (vm_compute; auto).
  split; [exact D|]. split; [exact X|].
  assert (forall x, In x (lit "NOTE") -> x <> 47%N) as Hs
    by (simpl; intuition (subst; discriminate)).
  assert (forall x, In x (lit "TXT") -> x <> 47%N /\ x <> 46%N) as He
    by (simpl; intuition (subst; discriminate)).
  rewrite (proj1 (text_extension_in_any_case one_note _ _ _ D Hs He X) eq_refl).
  reflexivity.
Defined.

Lemma unreadable_file_is_excluded_witness :
  let tree := [(lit "./source", [lit "NOTE.TXT"; lit "gone.md"])] in
  reader_raises one_note (lit "./source/gone.md") /\
  In (lit "gone.md", lit "./source/gone.md") (walked (disk one_note tree)) /\
  ~ In (file_id_of (lit "./source/gone.md"))
       (dict_keys (file_nodes (nodes (build (disk one_note tree))))).
Proof.
  cbv zeta.
  assert (reader_raises one_note (lit "./source/gone.md")) as F
    by (left; split; [vm_compute; auto|reflexivity]).
  split; [exact F|]. split; [vm_compute; auto|].
  exact (proj1 (proj2 (unreadable_file_is_excluded one_note _ _ F))).
Defined.

Lemma blank_documents_give_blank_text_witness :
  lower (snd (splitext (lit "./source/scan.pdf"))) = lit ".pdf" /\
  PdfReader one_note (lit "./source/scan.pdf") = Some [None; Some []; None] /\
  strip (extract_text_of one_note (lit "./source/scan.pdf")) = [].
Proof.
  assert (lower (snd (splitext (lit "./source/scan.pdf"))) = lit ".pdf") as X
    by reflexivity.
  assert (PdfReader one_note (lit "./source/scan.pdf") = Some [None; Some []; None])
    as P by reflexivity.
  split; [exact X|]. split; [exact P|].
  refine (proj1 (proj2 (blank_documents_give_blank_text one_note
                          (lit "./source/scan.pdf"))) X _ P _).
  repeat constructor.
Defined.

End MoreRuns.

(** ** Paths *)

Section Paths.
Context {R : PyRuntime}.

Lemma slash_split_inj a : forall a' b b',
  ~ In 47%N b -> ~ In 47%N b' ->
  a ++ 47%N :: b = a' ++ 47%N :: b' -> a = a' /\ b = b'.
Proof.
  induction a as [|x a IH]; intros [|y a'] b b' Hb Hb' E; simpl in E.
  - injection E as ->. auto.
  - injection E as <- ->. exfalso. apply Hb, in_app_iff. right. now left.
  - injection E as -> <-. exfalso. apply Hb', in_app_iff. right. now left.
  - injection E as <- E. destruct (IH _ _ _ Hb Hb' E) as [-> ->]. auto.
Qed.

Lemma path_join_plain root f :
  root <> [] -> last root 0%N <> 47%N -> ~ In 47%N f ->
  path_join root f = root ++ 47%N :: f.
Proof.
  intros NE L Hf. unfold path_join.
  assert (match f with 47%N :: _ => False | _ => True end) as Hh.
  { destruct f as [|c f]; trivial. destruct (N.eq_dec c 47) as [->|N].
    - apply Hf. now left.
    - destruct c as [|p]; trivial.
      do 6 (destruct p as [p|p|]; trivial). congruence. }
  destruct (exists_last NE) as (r & c & ->). rewrite last_last in L.
  rewrite rev_app_distr. simpl.
  destruct f as [|x f].
  - destruct c as [|p]; trivial. do 6 (destruct p as [p|p|]; trivial). congruence.
  - destruct x as [|q].
    + destruct c as [|p]; trivial. do 6 (destruct p as [p|p|]; trivial). congruence.
    + do 6 (destruct q as [q|q|];
            try (destruct c as [|p]; trivial;
                 do 6 (destruct p as [p|p|]; trivial); congruence)).
      contradiction.
Qed.

Lemma walked_In src f p :
  In (f, p) (walked src) <->
  exists root files, In (root, files) (walk src) /\ In f files /\ p = path_join root f.
Proof.
  unfold walked. rewrite in_flat_map. split.
  - intros ([root files] & Hd & H). apply in_map_iff in H.
    destruct H as (f' & E & Hf). simpl in *. injection E as -> <-.
    now exists root, files.
  - intros (root & files & Hd & Hf & ->). exists (root, files). split; trivial.
    apply in_map_iff. now exists f.
Qed.

(** X20. Distinct files never collide.  On what [os.walk] yields, the
    joined path is the directory, a slash and the name; the walk meets
    each path once; and two walked files with the same file id are the
    same file of the same directory. *)
Theorem walked_paths_are_distinct (src : sources) :
  walk_ok (walk src) ->
  NoDup (map snd (walked src)) /\
  (forall root files f, In (root, files) (walk src) -> In f files ->
     path_join root f = root ++ 47%N :: f) /\
  (forall root files f root' files' f',
     In (root, files) (walk src) -> In f files ->
     In (root', files') (walk src) -> In f' files' ->
     file_id_of (path_join root f) = file_id_of (path_join root' f') ->
     root = root' /\ f = f').
Proof.
  intros [ND F]. rewrite Forall_forall in F.
  assert (forall root files f, In (root, files) (walk src) -> In f files ->
            path_join root f = root ++ 47%N :: f /\ ~ In 47%N f) as PJ.
  { intros root files f Hd Hf. destruct (F _ Hd) as (NE & L & _ & Sl).
    rewrite Forall_forall in Sl. simpl in *. split; [|now apply Sl].
    apply path_join_plain; trivial. now apply Sl. }
  assert (forall root files f root' files' f',
            In (root, files) (walk src) -> In f files ->
            In (root', files') (walk src) -> In f' files' ->
            path_join root f = path_join root' f' -> root = root' /\ f = f') as Inj.
  { intros root files f root' files' f' Hd Hf Hd' Hf' E.
    destruct (PJ _ _ _ Hd Hf) as [E1 S1], (PJ _ _ _ Hd' Hf') as [E2 S2].
    rewrite E1, E2 in E. now apply slash_split_inj in E. }
  split; [|split].
  - unfold walked. clear PJ.
    induction (walk src) as [|[root files] dirs IH]; simpl; [constructor|].
    rewrite map_app. simpl in ND. inversion ND as [|? ? NI ND']; subst.
    apply NoDup_app.
    + rewrite map_map. simpl.
      destruct (F (root, files) (or_introl eq_refl)) as (_ & _ & NDf & _).
      simpl in NDf. clear -NDf Inj.
      assert (forall f f', In f files -> In f' files ->
                path_join root f = path_join root f' -> f = f') as I
        by (intros f f' H H' E;
            now destruct (Inj root files f root files f'
                            (or_introl eq_refl) H (or_introl eq_refl) H' E)).
      clear Inj. induction NDf as [|f l NI ND IH]; simpl; constructor.
      * intros H. apply in_map_iff in H. destruct H as (f' & E & Hf').
        apply NI. rewrite (I f f'); auto. now left. now right.
      * apply IH. intros a b Ha Hb. apply I; now right.
    + apply IH; trivial.
      * intros d Hd. apply F. now right.
      * intros r fs f r' fs' f' Hd Hf Hd' Hf'. apply (Inj r fs f r' fs' f'); auto.
        now right. now right.
    + intros p Hp Hp'. rewrite map_map in Hp. simpl in Hp.
      apply in_map_iff in Hp. destruct Hp as (f & <- & Hf).
      apply in_map_iff in Hp'. destruct Hp' as ([f' p'] & E & H'). simpl in E. subst p'.
      apply in_flat_map in H'. destruct H' as ([root' files'] & Hd' & H').
      apply in_map_iff in H'. destruct H' as (f'' & E & Hf''). simpl in E.
      injection E as -> E.
      destruct (Inj root files f root' files' f' (or_introl eq_refl) Hf
                  (or_intror Hd') Hf'' (eq_sym E)) as [-> _].
      apply NI. change root' with (fst (root', files')). now apply in_map.
  - intros root files f Hd Hf. exact (proj1 (PJ _ _ _ Hd Hf)).
  - intros root files f root' files' f' Hd Hf Hd' Hf' E.
    apply file_id_inj in E. now apply (Inj root files f root' files' f').
Qed.

End Paths.

Section PathRuns.

#[local] Existing Instance ascii_runtime.

Lemma walked_paths_are_distinct_witness :
  walk_ok (walk two_files) /\ NoDup (map snd (walked two_files)).
Proof.
  assert (walk_ok (walk two_files)) as W.
  { split; vm_compute.
    - repeat constructor; simpl; intuition discriminate.
    - repeat constructor; simpl; intuition discriminate. }
  split; [exact W|]. exact (proj1 (walked_paths_are_distinct two_files W)).
Defined.

End PathRuns.
